(** * LC-3 two-pass assembler: a shallow embedding and its verified properties

    The development follows the C++ sources of the assembler:
    - [parser.cpp]      : the lexer ([Parser::next_token] and its helpers),
    - [token.hpp], [operand.hpp], [instruction.hpp] : the data model,
    - [instruction.cpp] : operand construction ([Instruction::add_operand]) and
                          the validator ([validate_and_emit_diagnostics]),
    - [solution.cpp]    : number decoding, immediate ranges, address
                          assignment, label scan, encoding,
    - [assembler.cpp]   : [Assembler::translate] and [Assembler::run],
    - [parser.cpp], [solution.cpp] : the parser driver
                          ([Parser::parse_instruction], [parse_operand_list],
                          [parse_instructions]),
    - [token.cpp], [operand.cpp], [instruction.cpp] : the text [operator<<]
                          writes for tokens, operands and instructions,
    - [main.cpp]        : the options, the token and instruction dumps and the
                          listing loop that prints one line per emitted word.

    Conventions.  A C++ [std::string] is a Rocq [string]; a fixed-width integer
    is a [Z] together with the explicit conversion ([to_u16], [to_i16], ...)
    the C++ code performs; a [std::vector] is a [list]; the symbol table
    ([std::unordered_map<std::string, std::uint16_t>]) is a [gmap string Z].
    A failed [assert], an out-of-bounds access or an uncaught exception is a
    [Fault]; text written to [std::cout] is a list of structured diagnostics,
    which [diagnostic_text] and [parser_diagnostic_text] spell out. *)

From Stdlib Require Import ZArith List String Ascii Bool Lia.
From stdpp Require Import gmap strings.
Import ListNotations.
Local Open Scope Z_scope.

(* ================================================================== *)
(** ** Fixed-width integers and characters *)
(* ================================================================== *)

Definition UINT16_MAX : Z := 65535.
Definition INT16_MIN : Z := -32768.
Definition INT16_MAX : Z := 32767.
Definition LLONG_MIN : Z := - 2 ^ 63.
Definition LLONG_MAX : Z := 2 ^ 63 - 1.

(** [static_cast<std::uint16_t>(z)] and the implicit conversion performed by
    an assignment to a [std::uint16_t] object. *)
Definition to_u16 (z : Z) : Z := z mod 65536.

(** [static_cast<std::int16_t>(z)]: two's complement wrap-around. *)
Definition to_i16 (z : Z) : Z := (z + 32768) mod 65536 - 32768.

(** Conversion to [std::uint8_t]. *)
Definition to_u8 (z : Z) : Z := z mod 256.

(** Conversion of an [int] to [std::size_t] on an LP64 target. *)
Definition to_size_t (z : Z) : Z := z mod 2 ^ 64.

(** The byte stored in a [char], read as an unsigned code 0..255. *)
Definition char_code (c : ascii) : Z := Z.of_N (N_of_ascii c).

(** The value of a [char] object as the integer the C++ expressions see.
    Whether plain [char] is signed is implementation-defined; the flag is a
    parameter of every function that converts a [char] to a wider type. *)
Definition char_value (char_is_signed : bool) (c : ascii) : Z :=
  if char_is_signed && (128 <=? char_code c) then char_code c - 256 else char_code c.

Definition in_range (lo hi : ascii) (c : ascii) : bool :=
  (char_code lo <=? char_code c) && (char_code c <=? char_code hi).

(** [std::isdigit], [std::isalnum] and [std::isspace] in the "C" locale. *)
Definition isdigit (c : ascii) : bool := in_range "0" "9" c.
Definition isalpha (c : ascii) : bool := in_range "A" "Z" c || in_range "a" "z" c.
Definition isalnum (c : ascii) : bool := isalpha c || isdigit c.
Definition isspace (c : ascii) : bool :=
  (char_code c =? 32) || ((9 <=? char_code c) && (char_code c <=? 13)).

Definition newline : ascii := ascii_of_nat 10.
Definition quote : ascii := ascii_of_nat 34.

(** [std::find_if_not(current, end, p)] on the unread suffix: drops the longest
    prefix of characters satisfying [p]. *)
Fixpoint find_if_not (p : ascii -> bool) (s : string) : string :=
  match s with
  | EmptyString => EmptyString
  | String c rest => if p c then find_if_not p rest else s
  end.

(** The characters skipped by [find_if_not]. *)
Fixpoint take_while (p : ascii -> bool) (s : string) : string :=
  match s with
  | EmptyString => EmptyString
  | String c rest => if p c then String c (take_while p rest) else EmptyString
  end.

(** [std::all_of] over the characters of a string. *)
Fixpoint all_of (p : ascii -> bool) (s : string) : bool :=
  match s with
  | EmptyString => true
  | String c rest => p c && all_of p rest
  end.

(** The prefix of [s] that lies before the suffix [rest]: the text between the
    pointers [token_begin] and [current_]. *)
Definition consumed (s rest : string) : string :=
  String.substring 0 (String.length s - String.length rest) s.

(* ================================================================== *)
(** ** Tokens *)
(* ================================================================== *)

Module Token.
Inductive TokenKind :=
| Unknown | EOL | End | Opcode | Label | Register | Pseudo
| Immediate | Number | String | Comma.

(** A token is a kind and the slice [begin_, end_) of the source. *)
Record Token := mk { kind : TokenKind; content : string }.
End Token.

Definition TokenKind_eqb (a b : Token.TokenKind) : bool :=
  match a, b with
  | Token.Unknown, Token.Unknown | Token.EOL, Token.EOL | Token.End, Token.End
  | Token.Opcode, Token.Opcode | Token.Label, Token.Label
  | Token.Register, Token.Register | Token.Pseudo, Token.Pseudo
  | Token.Immediate, Token.Immediate | Token.Number, Token.Number
  | Token.String, Token.String | Token.Comma, Token.Comma => true
  | _, _ => false
  end.

(* ================================================================== *)
(** ** Opcodes *)
(* ================================================================== *)

(** Modelled from the spec: the enumeration [Instruction::Opcode] is generated
    from the X-macro table [assembler/opcode.def], which is not part of the
    sources at hand.  Its entries are the mnemonics the specification lists:
    the real instructions ([OPCODE(name)]) and the five directives
    ([PSEUDO(name)]), preceded by [UnknownOp].  The lexer tests enumerate the
    same thirty mnemonics and five directives. *)
Inductive Opcode :=
| UnknownOp
| ADD | AND | BR | BRn | BRz | BRp | BRzp | BRnp | BRnz | BRnzp
| JMP | JSR | JSRR | LD | LDI | LDR | LEA | NOT | RET | RTI | ST | STI | STR
| TRAP | GETC | OUT | PUTS | IN | PUTSP | HALT
| ORIG | FILL | BLKW | STRINGZ | END.

(** Modelled from the spec: the [OPCODE(name)] entries of [opcode.def], each
    with the spelling [#name] the macro stringifies. *)
Definition opcode_def : list (string * Opcode) :=
  [ ("ADD", ADD); ("AND", AND); ("BR", BR); ("BRn", BRn); ("BRz", BRz);
    ("BRp", BRp); ("BRzp", BRzp); ("BRnp", BRnp); ("BRnz", BRnz);
    ("BRnzp", BRnzp); ("JMP", JMP); ("JSR", JSR); ("JSRR", JSRR); ("LD", LD);
    ("LDI", LDI); ("LDR", LDR); ("LEA", LEA); ("NOT", NOT); ("RET", RET);
    ("RTI", RTI); ("ST", ST); ("STI", STI); ("STR", STR); ("TRAP", TRAP);
    ("GETC", GETC); ("OUT", OUT); ("PUTS", PUTS); ("IN", IN);
    ("PUTSP", PUTSP); ("HALT", HALT) ]%string.

(** Modelled from the spec: the [PSEUDO(name)] entries of [opcode.def]; the
    code spells them ["." #name]. *)
Definition pseudo_def : list (string * Opcode) :=
  [ ("ORIG", ORIG); ("FILL", FILL); ("BLKW", BLKW); ("STRINGZ", STRINGZ);
    ("END", END) ]%string.

Definition Opcode_eq_dec (a b : Opcode) : {a = b} + {a <> b}.
Proof. decide equality. Defined.

Definition Opcode_eqb (a b : Opcode) : bool :=
  if Opcode_eq_dec a b then true else false.

(** [std::unordered_map::find] on a table built from an initialiser list. *)
Fixpoint table_find {A : Type} (key : string) (table : list (string * A)) : option A :=
  match table with
  | [] => None
  | (k, v) :: rest => if String.eqb key k then Some v else table_find key rest
  end.

(** The table [pseudos] of [is_valid_pseudo]: every [PSEUDO(name)] under the
    key ["." #name]. *)
Definition pseudos : list (string * Opcode) :=
  map (fun entry => (String "." (fst entry), snd entry)) pseudo_def.

(* ================================================================== *)
(** ** The lexer ([parser.cpp], [solution.cpp]) *)
(* ================================================================== *)

Definition consume_spaces (s : string) : string :=
  find_if_not (fun ch => isspace ch && negb (Ascii.eqb ch newline)) s.

Definition parse_decimal_number (s : string) : string :=
  match s with
  | EmptyString => EmptyString
  | String c rest =>
      let current := if Ascii.eqb c "+" || Ascii.eqb c "-" then rest else s in
      find_if_not isdigit current
  end.

Fixpoint parse_string_literal (s : string) : string :=
  match s with
  | EmptyString => EmptyString
  | String c rest =>
      if Ascii.eqb c quote then rest
      else if Ascii.eqb c newline then s
      else parse_string_literal rest
  end.

Definition lex_decimal_number (s : string) : string := parse_decimal_number s.
Definition lex_string_literal (s : string) : string := parse_string_literal s.
Definition lex_identifier (s : string) : string := find_if_not isalnum s.

Definition is_valid_opcode (identifier : string) : bool :=
  match table_find identifier opcode_def with Some _ => true | None => false end.

Definition is_valid_register (identifier : string) : bool :=
  match identifier with
  | String c0 (String c1 EmptyString) =>
      Ascii.eqb c0 "R" && (char_code "0" <=? char_code c1) && (char_code c1 <? char_code "8")
  | _ => false
  end.

Definition is_hex_digit (ch : ascii) : bool :=
  in_range "0" "9" ch || in_range "a" "f" ch || in_range "A" "F" ch.

Definition is_binary_digit (ch : ascii) : bool :=
  Ascii.eqb ch "0" || Ascii.eqb ch "1".

(** [identifier.front()] is read on a non-empty string only (the lexer has
    consumed a letter); the empty string falls in the [default] branch. *)
Definition may_be_valid_immediate_number (identifier : string) : bool :=
  match identifier with
  | EmptyString => false
  | String c rest =>
      if Ascii.eqb c "x" then all_of is_hex_digit rest
      else if Ascii.eqb c "b" then all_of is_binary_digit rest
      else false
  end.

Definition identifier_kind (identifier : string) : Token.TokenKind :=
  if is_valid_opcode identifier then Token.Opcode
  else if is_valid_register identifier then Token.Register
  else if may_be_valid_immediate_number identifier then Token.Immediate
  else Token.Label.

Definition is_valid_pseudo (content : string) : bool :=
  match table_find content pseudos with Some _ => true | None => false end.

Definition consume_comment (s : string) : string :=
  find_if_not (fun ch => negb (Ascii.eqb ch newline)) s.

(** The non-newline white space of the [switch] in [Parser::next_token]. *)
Definition is_blank (c : ascii) : bool :=
  Ascii.eqb c (ascii_of_nat 13) || Ascii.eqb c " " || Ascii.eqb c (ascii_of_nat 9)
  || Ascii.eqb c (ascii_of_nat 12) || Ascii.eqb c (ascii_of_nat 11).

(** One run of [Parser::next_token] from the unread text [s]: the token and
    the new value of [current_].  Every [goto Restart] has consumed at least
    one character and spends one unit of [fuel]. *)
Fixpoint next_token_from (fuel : nat) (s : string) : option (Token.Token * string) :=
  match fuel with
  | O => None
  | S fuel' =>
      match s with
      | EmptyString => Some (Token.mk Token.End EmptyString, EmptyString)
      | String c rest =>
          if Ascii.eqb c newline then
            Some (Token.mk Token.EOL (consumed s rest), rest)
          else if is_blank c then
            next_token_from fuel' (consume_spaces rest)
          else if Ascii.eqb c "," then
            Some (Token.mk Token.Comma (consumed s rest), rest)
          else if Ascii.eqb c "#" then
            let current := lex_decimal_number rest in
            Some (Token.mk Token.Immediate (consumed s current), current)
          else if Ascii.eqb c quote then
            let current := lex_string_literal rest in
            Some (Token.mk Token.String (consumed s current), current)
          else if isdigit c || Ascii.eqb c "+" || Ascii.eqb c "-" then
            let current := lex_decimal_number s in
            Some (Token.mk Token.Number (consumed s current), current)
          else if isalpha c then
            let current := lex_identifier rest in
            Some (Token.mk (identifier_kind (consumed s current)) (consumed s current),
                  current)
          else if Ascii.eqb c "." then
            let current := lex_identifier rest in
            Some (Token.mk (if is_valid_pseudo (consumed s current)
                            then Token.Pseudo else Token.Unknown)
                           (consumed s current), current)
          else if Ascii.eqb c ";" then
            next_token_from fuel' (consume_comment rest)
          else
            Some (Token.mk Token.Unknown (consumed s rest), rest)
      end
  end.

(** [Parser::next_token] on the unread text; the fuel covers one restart per
    unread character. *)
Definition next_token (current_ : string) : option (Token.Token * string) :=
  next_token_from (S (String.length current_)) current_.

(** The token dump of [main] (option [-t]): every token up to and including
    the first [End]. *)
Fixpoint tokens_from (fuel : nat) (current_ : string) : list Token.Token :=
  match fuel with
  | O => []
  | S fuel' =>
      match next_token current_ with
      | Some (token, rest) =>
          match Token.kind token with
          | Token.End => [token]
          | _ => token :: tokens_from fuel' rest
          end
      | None => []
      end
  end.

Definition tokens (source : string) : list Token.Token :=
  tokens_from (S (String.length source)) source.

(* ================================================================== *)
(** ** Faults *)
(* ================================================================== *)

(** What stops the program instead of returning: a failed [assert], an access
    the C++ standard leaves undefined (reading past the end of a vector or of
    a token, forming an iterator past [end()]), or the [std::length_error]
    thrown by [std::vector::resize] and never caught. *)
Inductive fault := AssertionFailed | UndefinedBehaviour | LengthError.

Inductive outcome (A : Type) :=
| Ok (a : A)
| Fault (f : fault).
Arguments Ok {A} a.
Arguments Fault {A} f.

Definition bind {A B : Type} (r : outcome A) (k : A -> outcome B) : outcome B :=
  match r with
  | Ok a => k a
  | Fault f => Fault f
  end.

Notation "'do' x <- r ; k" := (bind r (fun x => k))
  (at level 10, x name, r at level 100, k at level 200).

(* ================================================================== *)
(** ** Operands ([operand.hpp]) *)
(* ================================================================== *)

Module Operand.
Inductive OperandType := Register | Immediate | Number | Label | StringLiteral.

(** The tagged union: the constructor is [type_], the argument the active
    member ([reg_id_], [imm_] or the slice [string_content_]). *)
Inductive Operand :=
| of_register (reg_id : Z)
| of_immediate (imm : Z)
| of_number (imm : Z)
| of_label (text : string)
| of_string_literal (text : string).

Definition type (o : Operand) : OperandType :=
  match o with
  | of_register _ => Register
  | of_immediate _ => Immediate
  | of_number _ => Number
  | of_label _ => Label
  | of_string_literal _ => StringLiteral
  end.

Definition OperandType_eqb (a b : OperandType) : bool :=
  match a, b with
  | Register, Register | Immediate, Immediate | Number, Number
  | Label, Label | StringLiteral, StringLiteral => true
  | _, _ => false
  end.

(** The accessors; each starts with [assert(type_ == ...)]. *)
Definition register_id (o : Operand) : outcome Z :=
  match o with of_register r => Ok r | _ => Fault AssertionFailed end.

Definition immediate_value (o : Operand) : outcome Z :=
  match o with of_immediate v => Ok v | _ => Fault AssertionFailed end.

Definition regular_decimal (o : Operand) : outcome Z :=
  match o with of_number v => Ok v | _ => Fault AssertionFailed end.

Definition label (o : Operand) : outcome string :=
  match o with of_label s => Ok s | _ => Fault AssertionFailed end.

Definition string_literal (o : Operand) : outcome string :=
  match o with of_string_literal s => Ok s | _ => Fault AssertionFailed end.

Definition from_register (reg_id : Z) : Operand := of_register reg_id.

Definition from_integer (is_immediate : bool) (imm : Z) : Operand :=
  if is_immediate then of_immediate imm else of_number imm.

Definition from_label (slice : string) : Operand := of_label slice.

(** [assert(end - begin >= 2)], then the slice without its first and last
    character. *)
Definition from_string_literal (slice : string) : outcome Operand :=
  if (2 <=? String.length slice)%nat
  then Ok (of_string_literal (String.substring 1 (String.length slice - 2) slice))
  else Fault AssertionFailed.
End Operand.

(* ================================================================== *)
(** ** Number decoding ([solution.cpp]) *)
(* ================================================================== *)

(** The three ways [std::stoll] ends. *)
Inductive stoll_result :=
| Converted (value : Z)
| invalid_argument
| out_of_range.

(** The value of a character as a digit (bases up to 36), as [strtoll] reads it. *)
Definition digit_value (c : ascii) : option Z :=
  if in_range "0" "9" c then Some (char_code c - char_code "0")
  else if in_range "a" "z" c then Some (char_code c - char_code "a" + 10)
  else if in_range "A" "Z" c then Some (char_code c - char_code "A" + 10)
  else None.

Definition is_digit_of (base : Z) (c : ascii) : bool :=
  match digit_value c with
  | Some d => d <? base
  | None => false
  end.

(** Horner evaluation of a digit string, most significant digit first. *)
Fixpoint digits_value (base : Z) (acc : Z) (digits : string) : Z :=
  match digits with
  | EmptyString => acc
  | String c rest =>
      digits_value base (acc * base + match digit_value c with Some d => d | None => 0 end) rest
  end.

(** The optional sign in front of the digits. *)
Definition strip_sign (s : string) : bool * string :=
  match s with
  | String c rest =>
      if Ascii.eqb c "-" then (true, rest)
      else if Ascii.eqb c "+" then (false, rest)
      else (false, s)
  | EmptyString => (false, s)
  end.

(** For base 16, the optional [0x] or [0X] in front of a hexadecimal digit. *)
Definition strip_hex_prefix (base : Z) (s : string) : string :=
  match s with
  | String c0 (String c1 (String c2 rest)) =>
      if (base =? 16) && Ascii.eqb c0 "0" && (Ascii.eqb c1 "x" || Ascii.eqb c1 "X")
         && is_digit_of 16 c2
      then String c2 rest else s
  | _ => s
  end.

(** [std::stoll(str, nullptr, base)]: the contract of [strtoll] (leading white
    space, an optional sign, for base 16 an optional [0x]/[0X] in front of a
    hexadecimal digit, then the longest run of digits of the base), with
    [std::invalid_argument] when no digit is converted and
    [std::out_of_range] when the value does not fit a [long long]. *)
Definition stoll (str : string) (base : Z) : stoll_result :=
  let signed := strip_sign (find_if_not isspace str) in
  let digits := take_while (is_digit_of base) (strip_hex_prefix base (snd signed)) in
  match digits with
  | EmptyString => invalid_argument
  | _ =>
      let magnitude := digits_value base 0 digits in
      let value := if fst signed then - magnitude else magnitude in
      if (value <? LLONG_MIN) || (LLONG_MAX <? value) then out_of_range
      else Converted value
  end.

(** [string_to_integer(content, ok)]: the returned value and [*ok].
    [content[0]] of an empty [std::string] is the terminating NUL, which selects
    base 10 at position 0. *)
Definition string_to_integer (content : string) : Z * bool :=
  let '(pos, base) :=
    match content with
    | String c _ =>
        if Ascii.eqb c "#" then (1%nat, 10)
        else if Ascii.eqb c "x" then (1%nat, 16)
        else if Ascii.eqb c "b" then (1%nat, 2)
        else (0%nat, 10)
    | EmptyString => (0%nat, 10)
    end in
  match stoll (String.substring pos (String.length content - pos) content) base with
  | Converted value =>
      if (UINT16_MAX <? value) || (value <? INT16_MIN) then (0, false)
      else (to_i16 value, true)
  | invalid_argument | out_of_range => (0, false)
  end.

(* ================================================================== *)
(** ** Instructions ([instruction.hpp], [instruction.cpp]) *)
(* ================================================================== *)

Inductive OperandConstructionErrorType :=
| NoError | InvalidTokenKind | InvalidNumber | IntegerOverflow | MissingQuote.

(** A value-initialised [Instruction] has an empty label, no operand, the
    opcode [UnknownOp] and address 0; the address is meaningful only after
    pass 1 has set it. *)
Record Instruction := mkInstruction {
  label_ : string;
  operands_ : list Operand.Operand;
  opcode_ : Opcode;
  address_ : Z
}.

Definition unknown_instruction : Instruction :=
  {| label_ := EmptyString; operands_ := []; opcode_ := UnknownOp; address_ := 0 |}.

Definition get_operand (instr : Instruction) (index : nat) : outcome Operand.Operand :=
  match operands_ instr !! index with
  | Some o => Ok o
  | None => Fault UndefinedBehaviour
  end.

Definition operand_size (instr : Instruction) : nat := length (operands_ instr).
Definition get_label (instr : Instruction) : string := label_ instr.
Definition get_opcode (instr : Instruction) : Opcode := opcode_ instr.
Definition get_address (instr : Instruction) : Z := address_ instr.
Definition is_unknown (instr : Instruction) : bool := Opcode_eqb (opcode_ instr) UnknownOp.

Definition has_label (instr : Instruction) : bool :=
  negb (String.eqb (label_ instr) EmptyString).

Definition set_label (instr : Instruction) (label : string) : Instruction :=
  {| label_ := label; operands_ := operands_ instr;
     opcode_ := opcode_ instr; address_ := address_ instr |}.

Definition set_opcode (instr : Instruction) (opcode : Opcode) : Instruction :=
  {| label_ := label_ instr; operands_ := operands_ instr;
     opcode_ := opcode; address_ := address_ instr |}.

Definition set_address (instr : Instruction) (address : Z) : Instruction :=
  {| label_ := label_ instr; operands_ := operands_ instr;
     opcode_ := opcode_ instr; address_ := address |}.

Definition push_operand (instr : Instruction) (o : Operand.Operand) : Instruction :=
  {| label_ := label_ instr; operands_ := operands_ instr ++ [o];
     opcode_ := opcode_ instr; address_ := address_ instr |}.

(** [token_content.front()] is undefined on an empty string. *)
Definition is_valid_number (token_content : string) : outcome bool :=
  match token_content with
  | EmptyString => Fault UndefinedBehaviour
  | String c rest =>
      if Ascii.eqb c "#" || Ascii.eqb c "x" || Ascii.eqb c "b" then
        match rest with
        | EmptyString => Ok false
        | String c1 EmptyString => Ok (negb (Ascii.eqb c1 "+") && negb (Ascii.eqb c1 "-"))
        | _ => Ok true
        end
      else if Ascii.eqb c "+" || Ascii.eqb c "-" then
        Ok (1 <? String.length token_content)%nat
      else Ok true
  end.

Definition to_integer (content : string) : Z * bool := string_to_integer content.

(** [Instruction::add_operand]: the returned error code and the instruction
    after the call. *)
Definition add_operand (instr : Instruction) (token : Token.Token)
  : outcome (OperandConstructionErrorType * Instruction) :=
  match Token.kind token with
  | Token.Register =>
      match String.get 1 (Token.content token) with
      | Some c1 =>
          Ok (NoError,
              push_operand instr
                (Operand.from_register (to_u8 (char_code c1 - char_code "0"))))
      | None => Fault UndefinedBehaviour
      end
  | Token.Label =>
      Ok (NoError, push_operand instr (Operand.from_label (Token.content token)))
  | Token.Immediate | Token.Number =>
      let token_content := Token.content token in
      do valid <- is_valid_number token_content;
      if negb valid then Ok (InvalidNumber, instr)
      else
        let '(value, ok) := to_integer token_content in
        if ok then
          Ok (NoError,
              push_operand instr
                (Operand.from_integer
                   (TokenKind_eqb (Token.kind token) Token.Immediate) value))
        else Ok (IntegerOverflow, instr)
  | Token.String =>
      let size := String.length (Token.content token) in
      if (1 <? size)%nat
         && match String.get (size - 1) (Token.content token) with
            | Some c => Ascii.eqb c quote
            | None => false
            end
      then
        do o <- Operand.from_string_literal (Token.content token);
        Ok (NoError, push_operand instr o)
      else Ok (MissingQuote, instr)
  | _ => Ok (InvalidTokenKind, instr)
  end.

(* ================================================================== *)
(** ** Diagnostics *)
(* ================================================================== *)

(** One constructor per message the validator and the assembler write to
    [std::cout], with the values the message prints. *)
Inductive Diagnostic :=
| instruction_disallows_label (instr : Instruction)
| operand_count_mismatch (instr : Instruction) (expected got : nat)
| operand_type_mismatch (position : nat) (instr : Instruction)
    (expected got : Operand.OperandType)
| immediate_out_of_range (operand : Operand.Operand) (instr : Instruction) (lb ub : Z)
| orig_missing (first : Instruction)
| orig_duplicate
| label_redefined (instr : Instruction)
| label_not_found (label : string) (instr : Instruction)
| label_offset_out_of_range (offset : Z) (label : string) (instr : Instruction).

(** A computation that writes diagnostics and then returns or faults. *)
Definition emitting (A : Type) : Type := list Diagnostic * outcome A.

Definition silent {A : Type} (r : outcome A) : emitting A := ([], r).

Definition ebind {A B : Type} (m : emitting A) (k : A -> emitting B) : emitting B :=
  match m with
  | (d, Ok a) => let '(d', r) := k a in (d ++ d', r)
  | (d, Fault f) => (d, Fault f)
  end.

Notation "'emit' x <- m ; k" := (ebind m (fun x => k))
  (at level 10, x name, m at level 100, k at level 200).

(* ================================================================== *)
(** ** The validator ([instruction.cpp], [solution.cpp]) *)
(* ================================================================== *)

Definition allows_label (instr : Instruction) : bool :=
  negb (Opcode_eqb (opcode_ instr) ORIG) && negb (Opcode_eqb (opcode_ instr) END).

Definition expected_operand_types (instr : Instruction) : list (list Operand.OperandType) :=
  match opcode_ instr with
  | ADD | AND =>
      [ [Operand.Register; Operand.Register; Operand.Register];
        [Operand.Register; Operand.Register; Operand.Immediate] ]
  | BRn | BRz | BRp | BR | BRzp | BRnp | BRnz | BRnzp | JSR =>
      [ [Operand.Label]; [Operand.Immediate] ]
  | JMP | JSRR => [ [Operand.Register] ]
  | LD | LDI | LEA | ST | STI => [ [Operand.Register; Operand.Label] ]
  | LDR | STR => [ [Operand.Register; Operand.Register; Operand.Immediate] ]
  | NOT => [ [Operand.Register; Operand.Register] ]
  | TRAP | ORIG | FILL => [ [Operand.Immediate] ]
  | BLKW => [ [Operand.Number] ]
  | STRINGZ => [ [Operand.StringLiteral] ]
  | _ => [ [] ]
  end.

Definition immediate_range (instr : Instruction) : Z * Z :=
  match opcode_ instr with
  | TRAP => (0, 255)
  | ORIG | FILL | BLKW => (INT16_MIN, INT16_MAX)
  | ADD | AND => (-16, 15)
  | LD | LDI | LEA | ST | STI
  | BR | BRn | BRz | BRp | BRzp | BRnp | BRnz | BRnzp => (-256, 255)
  | LDR | STR => (-32, 31)
  | JSR => (-1024, 1023)
  | _ => (0, 0)
  end.

(** [std::mismatch(operands_.begin(), operands_.end(), expected.begin(), pred)]:
    the index of the first operand whose type differs, with the expected type
    found there, or the number of operands and nothing.  Running off the end
    of [expected] while operands remain is undefined. *)
Fixpoint mismatch (operands : list Operand.Operand) (expected : list Operand.OperandType)
    (index : nat) : outcome (nat * option Operand.OperandType) :=
  match operands with
  | [] => Ok (index, None)
  | o :: operands' =>
      match expected with
      | [] => Fault UndefinedBehaviour
      | e :: expected' =>
          if Operand.OperandType_eqb (Operand.type o) e
          then mismatch operands' expected' (S index)
          else Ok (index, Some e)
      end
  end.

(** The loop over the accepted operand type lists: it stops at the first list
    that matches and otherwise keeps what the last list tried reported. *)
Fixpoint match_operand_types (operands : list Operand.Operand)
    (expected_operands : list (list Operand.OperandType))
    (mismatched_operand_index : nat) (expected_operand_type : Operand.OperandType)
  : outcome (nat * Operand.OperandType) :=
  match expected_operands with
  | [] => Ok (mismatched_operand_index, expected_operand_type)
  | expected :: more =>
      do m <- mismatch operands expected 0;
      match m with
      | (index, None) => Ok (index, expected_operand_type)
      | (index, Some e) => match_operand_types operands more index e
      end
  end.

Definition is_integer_operand (o : Operand.Operand) : bool :=
  Operand.OperandType_eqb (Operand.type o) Operand.Immediate
  || Operand.OperandType_eqb (Operand.type o) Operand.Number.

Definition validate_and_emit_diagnostics (instr : Instruction) : emitting bool :=
  if negb (allows_label instr) && has_label instr then
    ([instruction_disallows_label instr], Ok false)
  else
    let expected_operands := expected_operand_types instr in
    match expected_operands with
    | [] => silent (Fault UndefinedBehaviour)
    | front :: _ =>
        let expected_operand_size := length front in
        if negb (length (operands_ instr) =? expected_operand_size)%nat then
          ([operand_count_mismatch instr expected_operand_size (length (operands_ instr))],
           Ok false)
        else
          emit m <- silent (match_operand_types (operands_ instr) expected_operands
                             0%nat Operand.Register);
          let '(mismatched_operand_index, expected_operand_type) := m in
          if negb (mismatched_operand_index =? length (operands_ instr))%nat then
            emit got <- silent (get_operand instr mismatched_operand_index);
            ([operand_type_mismatch (mismatched_operand_index + 1) instr
                expected_operand_type (Operand.type got)], Ok false)
          else
            match find is_integer_operand (operands_ instr) with
            | Some imm_operand =>
                let valid_range := immediate_range instr in
                emit imm_value <- silent
                  (if Operand.OperandType_eqb (Operand.type imm_operand) Operand.Immediate
                   then Operand.immediate_value imm_operand
                   else Operand.regular_decimal imm_operand);
                if (imm_value <? fst valid_range) || (snd valid_range <? imm_value) then
                  ([immediate_out_of_range imm_operand instr
                      (fst valid_range) (snd valid_range)], Ok false)
                else silent (Ok true)
            | None => silent (Ok true)
            end
    end.

(* ================================================================== *)
(** ** The assembler ([assembler.hpp], [solution.cpp], [assembler.cpp]) *)
(* ================================================================== *)

Record Assembler := mkAssembler {
  instructions_ : list Instruction;
  symbol_table_ : gmap string Z
}.

(** [explicit Assembler(std::vector<Instruction>)]: an empty symbol table. *)
Definition new_Assembler (instructions : list Instruction) : Assembler :=
  {| instructions_ := instructions; symbol_table_ := ∅ |}.

(** The advance of the address counter after [instr] in pass 1. *)
Definition next_address (address : Z) (instr : Instruction) : outcome Z :=
  match opcode_ instr with
  | FILL => Ok (to_u16 (address + 1))
  | BLKW =>
      do operand <- get_operand instr 0;
      do count <- Operand.regular_decimal operand;
      Ok (to_u16 (address + count))
  | STRINGZ =>
      do operand <- get_operand instr 0;
      do literal <- Operand.string_literal operand;
      Ok (to_u16 (address + (Z.of_nat (String.length literal) + 1)))
  | _ => Ok (to_u16 (address + 1))
  end.

(** The [for] loop of [Assembler::assign_addresses]. *)
Fixpoint assign_addresses_from (address : Z) (instructions : list Instruction)
  : outcome (list Instruction) :=
  match instructions with
  | [] => Ok []
  | instr :: rest =>
      let instr' := set_address instr address in
      do address' <- next_address address instr';
      do rest' <- assign_addresses_from address' rest;
      Ok (instr' :: rest')
  end.

(** [front()] of an empty vector is undefined. *)
Definition assign_addresses (a : Assembler) : outcome Assembler :=
  match instructions_ a with
  | [] => Fault UndefinedBehaviour
  | front :: _ =>
      do operand <- get_operand front 0;
      do origin <- Operand.immediate_value operand;
      do instructions <- assign_addresses_from (to_u16 origin) (instructions_ a);
      Ok {| instructions_ := instructions; symbol_table_ := symbol_table_ a |}
  end.

(** [symbol_table_.emplace(label, address).second] with the table after it. *)
Definition add_label (table : gmap string Z) (label : string) (address : Z)
  : gmap string Z * bool :=
  match table !! label with
  | Some _ => (table, false)
  | None => (<[label := address]> table, true)
  end.

Fixpoint scan_label_from (instructions : list Instruction) (table : gmap string Z)
  : list Diagnostic * (gmap string Z * bool) :=
  match instructions with
  | [] => ([], (table, true))
  | instr :: rest =>
      if has_label instr then
        let '(table', inserted) := add_label table (get_label instr) (get_address instr) in
        if negb inserted then ([label_redefined instr], (table', false))
        else scan_label_from rest table'
      else scan_label_from rest table
  end.

Definition scan_label (a : Assembler) : list Diagnostic * (Assembler * bool) :=
  let '(d, (table, ok)) := scan_label_from (instructions_ a) (symbol_table_ a) in
  (d, ({| instructions_ := instructions_ a; symbol_table_ := table |}, ok)).

Definition translate_opcode (opcode : Opcode) : Z :=
  match opcode with
  | ADD => 1
  | AND => 5
  | BRn | BRz | BRp | BR | BRzp | BRnp | BRnz | BRnzp => 0
  | JMP => 12
  | JSR => 4
  | JSRR => 4
  | LD => 2
  | LDI => 10
  | LDR => 6
  | LEA => 14
  | NOT => 9
  | RET => 12
  | RTI => 8
  | ST => 3
  | STI => 11
  | STR => 7
  | TRAP | GETC | OUT | PUTS | IN | PUTSP | HALT => 15
  | _ => 13
  end.

Definition translate_register (reg_operand : Operand.Operand) (position : Z) : outcome Z :=
  do reg_id <- Operand.register_id reg_operand;
  Ok (to_u16 (Z.shiftl reg_id position)).

Definition translate_immediate (imm_operand : Operand.Operand) (bits : Z) : outcome Z :=
  do value <- Operand.immediate_value imm_operand;
  let mask := to_u16 (Z.shiftl 1 bits - 1) in
  Ok (Z.land (to_u16 value) mask).

(** The sentinel [static_cast<std::uint16_t>(-1)]. *)
Definition translation_failed : Z := to_u16 (-1).

Definition translate_label (a : Assembler) (instr : Instruction) (operand_idx : nat)
    (bits : Z) : emitting Z :=
  emit label_operand <- silent (get_operand instr operand_idx);
  emit label <- silent (Operand.label label_operand);
  let instr_address := get_address instr in
  match symbol_table_ a !! label with
  | None => ([label_not_found label instr], Ok translation_failed)
  | Some label_address =>
      let offset := to_i16 (label_address - instr_address - 1) in
      let max_offset := Z.shiftl 1 (bits - 1) - 1 in
      let min_offset := - Z.shiftl 1 (bits - 1) in
      if (offset <? min_offset) || (max_offset <? offset) then
        ([label_offset_out_of_range offset label instr], Ok translation_failed)
      else silent (Ok (to_u16 (Z.land offset (Z.shiftl 1 bits - 1))))
  end.

(** [result |= translate_register(instr.get_operand(index), position)]. *)
Definition or_register (instr : Instruction) (index : nat) (position : Z) (result : Z)
  : outcome Z :=
  do operand <- get_operand instr index;
  do field <- translate_register operand position;
  Ok (Z.lor result field).

(** [result |= translate_immediate(instr.get_operand(index), bits)]. *)
Definition or_immediate (instr : Instruction) (index : nat) (bits : Z) (result : Z)
  : outcome Z :=
  do operand <- get_operand instr index;
  do field <- translate_immediate operand bits;
  Ok (Z.lor result field).

(** [result |= translate_label(instr, operand_idx, bits)]. *)
Definition or_label (a : Assembler) (instr : Instruction) (operand_idx : nat) (bits : Z)
    (result : Z) : emitting Z :=
  emit field <- translate_label a instr operand_idx bits;
  silent (Ok (Z.lor result field)).

Definition translate_regular_instruction (a : Assembler) (instr : Instruction)
  : emitting Z :=
  let result := to_u16 (Z.shiftl (translate_opcode (get_opcode instr)) 12) in
  match get_opcode instr with
  | ADD | AND =>
      silent (
        do result <- or_register instr 0 9 result;
        do result <- or_register instr 1 6 result;
        do operand2 <- get_operand instr 2;
        if Operand.OperandType_eqb (Operand.type operand2) Operand.Immediate then
          or_immediate instr 2 5 (Z.lor result (Z.shiftl 1 5))
        else or_register instr 2 0 result)
  | BR => or_label a instr 0 9 (Z.lor result (Z.shiftl 7 9))
  | BRn => or_label a instr 0 9 (Z.lor result (Z.shiftl 4 9))
  | BRz =>
      let result := Z.lor result (Z.shiftl 2 9) in
      emit operand0 <- silent (get_operand instr 0);
      if Operand.OperandType_eqb (Operand.type operand0) Operand.Label
      then or_label a instr 0 9 result
      else silent (or_immediate instr 0 9 result)
  | BRp => or_label a instr 0 9 (Z.lor result (Z.shiftl 1 9))
  | BRzp => or_label a instr 0 9 (Z.lor result (Z.shiftl 3 9))
  | BRnp => or_label a instr 0 9 (Z.lor result (Z.shiftl 5 9))
  | BRnz => or_label a instr 0 9 (Z.lor result (Z.shiftl 6 9))
  | BRnzp => or_label a instr 0 9 (Z.lor result (Z.shiftl 7 9))
  | JMP | JSRR => silent (or_register instr 0 6 result)
  | JSR => or_label a instr 0 11 (Z.lor result (Z.shiftl 1 11))
  | LD | LDI | LEA =>
      emit result <- silent (or_register instr 0 9 result);
      or_label a instr 1 9 result
  | LDR | STR =>
      silent (
        do result <- or_register instr 0 9 result;
        do result <- or_register instr 1 6 result;
        or_immediate instr 2 6 result)
  | NOT =>
      silent (
        do result <- or_register instr 0 9 result;
        do result <- or_register instr 1 6 result;
        Ok (Z.lor result 63))
  | RET => silent (Ok (Z.lor result (Z.shiftl 7 6)))
  | RTI => silent (Ok result)
  | ST | STI =>
      emit result <- silent (or_register instr 0 9 result);
      or_label a instr 1 9 result
  | TRAP => silent (or_immediate instr 0 8 result)
  | GETC => silent (Ok (Z.lor result 32))
  | OUT => silent (Ok (Z.lor result 33))
  | PUTS => silent (Ok (Z.lor result 34))
  | IN => silent (Ok (Z.lor result 35))
  | PUTSP => silent (Ok (Z.lor result 36))
  | HALT => silent (Ok (Z.lor result 37))
  | _ => silent (Ok result)
  end.

(** [max_size()] of a [std::vector<std::uint16_t>] on an LP64 target. *)
Definition vector_max_size : Z := (2 ^ 63 - 1) / 2.

(** [results.resize(new_size, 0)]: truncation, extension with zeros, or
    [std::length_error] beyond [max_size()]. *)
Definition resize (results : list Z) (new_size : Z) : outcome (list Z) :=
  let size := Z.of_nat (length results) in
  if new_size <=? size then Ok (take (Z.to_nat new_size) results)
  else if new_size <=? vector_max_size
       then Ok (results ++ replicate (Z.to_nat (new_size - size)) 0)
       else Fault LengthError.

(** The words pushed for the characters of a [.STRINGZ] literal:
    [static_cast<std::uint16_t>(c)] for each [char c]. *)
Fixpoint string_words (char_is_signed : bool) (s : string) : list Z :=
  match s with
  | EmptyString => []
  | String c rest => to_u16 (char_value char_is_signed c) :: string_words char_is_signed rest
  end.

Definition translate_pseudo (char_is_signed : bool) (instr : Instruction)
    (results : list Z) : outcome (list Z) :=
  match get_opcode instr with
  | FILL =>
      do operand <- get_operand instr 0;
      do value <- Operand.immediate_value operand;
      Ok (results ++ [to_u16 value])
  | ORIG => Ok results
  | BLKW =>
      do operand <- get_operand instr 0;
      do count <- Operand.regular_decimal operand;
      resize results (to_size_t (Z.of_nat (length results) + count))
  | STRINGZ =>
      do operand <- get_operand instr 0;
      do literal <- Operand.string_literal operand;
      Ok ((results ++ string_words char_is_signed literal) ++ [0])
  | END => Ok results
  | _ => Ok results
  end.

Definition is_pseudo (opcode : Opcode) : bool :=
  match opcode with
  | ORIG | END | FILL | BLKW | STRINGZ => true
  | _ => false
  end.

(** The loop of [Assembler::translate] from the words emitted so far: [Some]
    of the final vector when the loop runs to its end, [None] when it is left
    through [return {}]. *)
Fixpoint translate_from (char_is_signed : bool) (a : Assembler)
    (instructions : list Instruction) (results : list Z) : emitting (option (list Z)) :=
  match instructions with
  | [] => silent (Ok (Some results))
  | instr :: rest =>
      if is_pseudo (get_opcode instr) then
        emit results' <- silent (translate_pseudo char_is_signed instr results);
        translate_from char_is_signed a rest results'
      else
        emit result <- translate_regular_instruction a instr;
        if result =? translation_failed then silent (Ok None)
        else translate_from char_is_signed a rest (results ++ [result])
  end.

Definition translate (char_is_signed : bool) (a : Assembler) : emitting (list Z) :=
  emit finished <- translate_from char_is_signed a (instructions_ a) [];
  silent (Ok (match finished with Some results => results | None => [] end)).

(** [std::any_of(first, last, !validate_and_emit_diagnostics)]: stops at the
    first instruction that fails validation. *)
Fixpoint any_invalid (instructions : list Instruction) : emitting bool :=
  match instructions with
  | [] => silent (Ok false)
  | instr :: rest =>
      emit valid <- validate_and_emit_diagnostics instr;
      if negb valid then silent (Ok true) else any_invalid rest
  end.

Definition is_ORIG (instr : Instruction) : bool := Opcode_eqb (get_opcode instr) ORIG.

(** [Assembler::run]: the assembler after the call and the returned words.
    On an empty instruction vector the second [std::any_of] starts from
    [std::next(instructions_.begin())], an iterator past [end()]. *)
Definition run (char_is_signed : bool) (a : Assembler) : emitting (Assembler * list Z) :=
  emit invalid <- any_invalid (instructions_ a);
  if invalid : bool then silent (Ok (a, []))
  else
    match instructions_ a with
    | [] => silent (Fault UndefinedBehaviour)
    | front :: others =>
        if negb (is_ORIG front) then ([orig_missing front], Ok (a, []))
        else if existsb is_ORIG others then ([orig_duplicate], Ok (a, []))
        else
          emit a1 <- silent (assign_addresses a);
          let '(d, (a2, scanned)) := scan_label a1 in
          emit _ <- (d, Ok tt);
          if negb scanned then silent (Ok (a2, []))
          else
            emit binary <- translate char_is_signed a2;
            silent (Ok (a2, binary))
    end.

(* ================================================================== *)
(** ** The listing ([main.cpp]) *)
(* ================================================================== *)

Definition start_address (a : Assembler) : outcome Z :=
  match instructions_ a with
  | front :: _ => Ok (get_address front)
  | [] => Fault UndefinedBehaviour
  end.

(** The output loop of [main]: line [i] shows [start_address + i], a sum formed
    in [std::size_t], and the word [binary[i]]. *)
Definition listing (start_address : Z) (binary : list Z) : list (Z * Z) :=
  imap (fun i word => (to_size_t (start_address + Z.of_nat i), word)) binary.

(** [main] after parsing: the exit status and the lines written to the
    output.  An empty word vector ends the program with status 1 before
    [start_address()] is read. *)
Definition assemble_and_list (char_is_signed : bool) (instructions : list Instruction)
  : emitting (Z * list (Z * Z)) :=
  emit ran <- run char_is_signed (new_Assembler instructions);
  let '(assembler, binary) := ran in
  match binary with
  | [] => silent (Ok (1, []))
  | _ =>
      emit start <- silent (start_address assembler);
      silent (Ok (0, listing start binary))
  end.


(* ================================================================== *)
(** ** Text output ([token.cpp], [token.hpp], [operand.cpp], [instruction.cpp]) *)
(* ================================================================== *)

Definition backslash : ascii := ascii_of_nat 92.

(** [Token::display_content]: the content with NUL, newline and tab spelled as
    the two-character escapes [\0], [\n] and [\t]. *)
Fixpoint display_content (content : string) : string :=
  match content with
  | EmptyString => EmptyString
  | String ch rest =>
      let shown :=
        if Ascii.eqb ch (ascii_of_nat 0) then String backslash (String "0" EmptyString)
        else if Ascii.eqb ch newline then String backslash (String "n" EmptyString)
        else if Ascii.eqb ch (ascii_of_nat 9) then String backslash (String "t" EmptyString)
        else String ch EmptyString in
      String.append shown (display_content rest)
  end.

(** [operator<<(std::ostream&, Token::TokenKind)]. *)
Definition print_TokenKind (kind : Token.TokenKind) : string :=
  String.append "Token::"
    match kind with
    | Token.EOL => "EOL"
    | Token.End => "End"
    | Token.Opcode => "Opcode"
    | Token.Label => "Label"
    | Token.Register => "Register"
    | Token.Pseudo => "Pseudo"
    | Token.Immediate => "Immediate"
    | Token.Number => "Number"
    | Token.String => "String"
    | Token.Comma => "Comma"
    | Token.Unknown => "Unknown"
    end.

(** [operator<<(std::ostream&, Token const&)]. *)
Definition print_Token (token : Token.Token) : string :=
  String.append "Token { "
    (String.append (print_TokenKind (Token.kind token))
       (String.append ", '"
          (String.append (display_content (Token.content token)) "' }"))).

(** [operator<<(std::ostream&, Operand::OperandType)]. *)
Definition print_OperandType (operand_type : Operand.OperandType) : string :=
  match operand_type with
  | Operand.Register => "Register"
  | Operand.Immediate => "Immediate"
  | Operand.Number => "Number"
  | Operand.Label => "Label"
  | Operand.StringLiteral => "StringLiteral"
  end.

(** The digits of a non-negative integer in a base up to 16, most significant
    first, in front of [suffix]; one unit of [fuel] per digit. *)
Fixpoint digits_in (base : Z) (alphabet : string) (fuel : nat) (n : Z) (suffix : string)
  : string :=
  match fuel with
  | O => suffix
  | S fuel' =>
      let digit :=
        match String.get (Z.to_nat (n mod base)) alphabet with
        | Some c => c
        | None => "?"%char
        end in
      if n <? base then String digit suffix
      else digits_in base alphabet fuel' (n / base) (String digit suffix)
  end.

(** [operator<<] of a non-negative integer with the stream in its initial
    state: decimal, no padding.  A number below [2 ^ k] has at most [k]
    digits. *)
Definition print_unsigned (n : Z) : string :=
  digits_in 10 "0123456789" (S (Z.to_nat (Z.log2 n))) n EmptyString.

(** [operator<<] of a signed integer ([std::int16_t] here). *)
Definition print_integer (z : Z) : string :=
  if z <? 0 then String "-" (print_unsigned (- z)) else print_unsigned z.

(** [operator<<(std::ostream&, Operand const&)]; every accessor is called on
    the variant the [switch] has selected. *)
Definition print_Operand (operand : Operand.Operand) : string :=
  match operand with
  | Operand.of_register reg_id => String "R" (print_unsigned reg_id)
  | Operand.of_immediate imm => String "#" (print_integer imm)
  | Operand.of_number imm => print_integer imm
  | Operand.of_label text => text
  | Operand.of_string_literal text => String quote (String.append text (String quote EmptyString))
  end.

(** The key under which a table holds [opcode]. *)
Fixpoint table_key (opcode : Opcode) (table : list (string * Opcode)) : option string :=
  match table with
  | [] => None
  | (k, v) :: rest => if Opcode_eqb v opcode then Some k else table_key opcode rest
  end.

(** Modelled from the spec: [Instruction::get_opcode_spelling] is a [switch]
    generated from [opcode.def], [#name] for [OPCODE(name)] and ["." #name] for
    [PSEUDO(name)], with [UnknownOp] as the default. *)
Definition get_opcode_spelling (instr : Instruction) : string :=
  match table_key (opcode_ instr) opcode_def with
  | Some name => name
  | None =>
      match table_key (opcode_ instr) pseudos with
      | Some name => name
      | None => "UnknownOp"
      end
  end.

(** The operand list of [operator<<(std::ostream&, Instruction const&)]:
    the operands separated by [", "]. *)
Fixpoint print_operands (operands : list Operand.Operand) : string :=
  match operands with
  | [] => EmptyString
  | [operand] => print_Operand operand
  | operand :: rest =>
      String.append (print_Operand operand) (String.append ", " (print_operands rest))
  end.

(** [operator<<(std::ostream&, Instruction const&)]. *)
Definition print_Instruction (instr : Instruction) : string :=
  String.append
    (if has_label instr then String.append (get_label instr) " " else EmptyString)
    (String.append (get_opcode_spelling instr)
       (if negb (operand_size instr =? 0)%nat
        then String " " (print_operands (operands_ instr))
        else EmptyString)).

(** [operator<<(std::ostream&, OperandConstructionErrorType)]. *)
Definition print_OperandConstructionErrorType (error : OperandConstructionErrorType)
  : string :=
  String.append "OperandConstructionErrorType::"
    match error with
    | NoError => "NoError"
    | InvalidTokenKind => "InvalidTokenKind"
    | InvalidNumber => "InvalidNumber"
    | IntegerOverflow => "IntegerOverflow"
    | MissingQuote => "MissingQuote"
    end.

(** The concatenation of the pieces a chain of [<<] writes. *)
Definition written (pieces : list string) : string :=
  fold_right String.append EmptyString pieces.

Definition backquote : string := String (ascii_of_nat 96) EmptyString.
Definition end_of_line : string := String newline EmptyString.

(** The text of the messages of the validator and of the assembler, as the
    [std::cout << ...] chains of [validate_and_emit_diagnostics],
    [Assembler::run] and the [emit_label_..._diag] functions write them. *)
Definition diagnostic_text (d : Diagnostic) : string :=
  match d with
  | instruction_disallows_label instr =>
      written [ "error: instruction "; backquote; print_Instruction instr; backquote;
                " does not allow a label"; end_of_line ]
  | operand_count_mismatch instr expected got =>
      written [ "error: instruction "; backquote; print_Instruction instr; backquote;
                " expects "; print_unsigned (Z.of_nat expected);
                " operand(s), but got "; print_unsigned (Z.of_nat got);
                " operand(s)"; end_of_line ]
  | operand_type_mismatch position instr expected got =>
      written [ "error: operand "; print_unsigned (Z.of_nat position);
                " of instruction "; backquote; print_Instruction instr; backquote;
                " should be of type "; backquote; print_OperandType expected; backquote;
                ", but got "; backquote; print_OperandType got; backquote; end_of_line ]
  | immediate_out_of_range operand instr lb ub =>
      written [ "error: immediate operand "; print_Operand operand;
                " of instruction "; backquote; print_Instruction instr; backquote;
                " is out of range ["; print_integer lb; ", "; print_integer ub; "]";
                end_of_line ]
  | orig_missing first =>
      written [ "error: expected the first instruction to be "; backquote; ".ORIG";
                backquote; ", but got "; backquote; print_Instruction first; backquote;
                end_of_line ]
  | orig_duplicate =>
      written [ "error: multiple "; backquote; ".ORIG"; backquote;
                " pseudo-instructions found"; end_of_line ]
  | label_redefined instr =>
      written [ "error: label "; backquote; get_label instr; backquote;
                " redefined by instruction "; backquote; print_Instruction instr;
                backquote; end_of_line ]
  | label_not_found label instr =>
      written [ "error: label "; backquote; label; backquote; " in instruction ";
                backquote; print_Instruction instr; backquote; " not found"; end_of_line ]
  | label_offset_out_of_range offset label instr =>
      written [ "error: offset "; print_integer offset; " of label "; backquote; label;
                backquote; " in instruction "; backquote; print_Instruction instr;
                backquote; " is out of range"; end_of_line ]
  end.

(* ================================================================== *)
(** ** The parser driver ([parser.hpp], [parser.cpp], [solution.cpp]) *)
(* ================================================================== *)

(** The unread text [current_, source_end_) and the token [cur_token_]. *)
Record Parser := mkParser {
  current_ : string;
  cur_token_ : Token.Token
}.

(** [explicit Parser(std::string const&)]; [cur_token_] is a default
    [Token()]: kind [Unknown], empty content. *)
Definition new_Parser (source : string) : Parser :=
  {| current_ := source; cur_token_ := Token.mk Token.Unknown EmptyString |}.

(** The messages of the parser: the token they are reported at and what is
    wrong with it. *)
Inductive ParserDiagnostic :=
| opcode_expected (token : Token.Token)
| operand_construction_failed (token : Token.Token) (error : OperandConstructionErrorType).

(** [Parser::emit_diagnostic_at_current_token] followed by the text that
    [emit_opcode_diag_at_current_token] and
    [emit_operand_diag_at_current_token] write. *)
Definition parser_diagnostic_text (d : ParserDiagnostic) : string :=
  match d with
  | opcode_expected token =>
      written [ "error: at token "; backquote; display_content (Token.content token);
                backquote; ": "; "expected token kind "; backquote;
                print_TokenKind Token.Opcode; backquote; " or "; backquote;
                print_TokenKind Token.Pseudo; backquote; ", but got "; backquote;
                print_TokenKind (Token.kind token); backquote; end_of_line ]
  | operand_construction_failed token error =>
      written [ "error: at token "; backquote; display_content (Token.content token);
                backquote; ": "; "error when constructing an operand: ";
                match error with
                | InvalidTokenKind =>
                    written [ "cannot construct an operand from token kind "; backquote;
                              print_TokenKind (Token.kind token); backquote ]
                | InvalidNumber =>
                    written [ "invalid number "; backquote;
                              display_content (Token.content token); backquote ]
                | IntegerOverflow =>
                    written [ "integer value overflow "; backquote;
                              display_content (Token.content token); backquote;
                              " for a 16-bit integer" ]
                | MissingQuote =>
                    written [ "missing closing quote in string literal "; backquote;
                              display_content (Token.content token); backquote ]
                | NoError =>
                    written [ "ICE: unknown error type "; backquote;
                              print_OperandConstructionErrorType error; backquote ]
                end;
                end_of_line ]
  end.

(** A member function of [Parser]: from the parser's state to the messages
    written and the result with the new state, or a fault.  [None] stands for
    a loop whose fuel is used up. *)
Definition parsing (A : Type) : Type :=
  Parser -> option (list ParserDiagnostic * outcome (A * Parser)).

Definition parsed {A : Type} (a : A) : parsing A :=
  fun p => Some ([], Ok (a, p)).

Definition pbind {A B : Type} (m : parsing A) (k : A -> parsing B) : parsing B :=
  fun p =>
    match m p with
    | None => None
    | Some (d, Fault f) => Some (d, Fault f)
    | Some (d, Ok (a, p')) =>
        match k a p' with
        | None => None
        | Some (d', r) => Some (d ++ d', r)
        end
    end.

Notation "'parser_do' x <- m ; k" := (pbind m (fun x => k))
  (at level 10, x name, m at level 100, k at level 200).

(** [Parser::current_token]. *)
Definition current_token : parsing Token.Token :=
  fun p => Some ([], Ok (cur_token_ p, p)).

(** [Parser::next_token] as a member function: the token becomes [cur_token_]. *)
Definition move_to_next_token : parsing Token.Token :=
  fun p =>
    match next_token (current_ p) with
    | Some (token, rest) => Some ([], Ok (token, {| current_ := rest; cur_token_ := token |}))
    | None => None
    end.

Definition emit_opcode_diag_at_current_token : parsing unit :=
  fun p => Some ([opcode_expected (cur_token_ p)], Ok (tt, p)).

Definition emit_operand_diag_at_current_token (error : OperandConstructionErrorType)
  : parsing unit :=
  fun p => Some ([operand_construction_failed (cur_token_ p) error], Ok (tt, p)).

(** A call that neither reads nor changes the parser. *)
Definition from_outcome {A : Type} (r : outcome A) : parsing A :=
  fun p =>
    match r with
    | Ok a => Some ([], Ok (a, p))
    | Fault f => Some ([], Fault f)
    end.

(** The table [opcode_map] of [Instruction::set_opcode(Token const&)]: every
    [OPCODE(name)] under [#name] and every [PSEUDO(name)] under ["." #name]. *)
Definition opcode_map : list (string * Opcode) := opcode_def ++ pseudos.

(** [Instruction::set_opcode(Token const&)] with its two assertions. *)
Definition set_opcode_from_token (instr : Instruction) (token : Token.Token)
  : outcome Instruction :=
  if TokenKind_eqb (Token.kind token) Token.Opcode
     || TokenKind_eqb (Token.kind token) Token.Pseudo
  then
    match table_find (Token.content token) opcode_map with
    | Some opcode => Ok (set_opcode instr opcode)
    | None => Fault AssertionFailed
    end
  else Fault AssertionFailed.

(** The [while] loop of [Parser::parse_operand_list]: a comma, then a token
    that must give an operand. *)
Fixpoint parse_operands_after (fuel : nat) (instr : Instruction) : parsing Instruction :=
  match fuel with
  | O => fun _ => None
  | S fuel' =>
      parser_do separator <- move_to_next_token;
      if TokenKind_eqb (Token.kind separator) Token.Comma then
        parser_do token <- move_to_next_token;
        parser_do added <- from_outcome (add_operand instr token);
        let '(construction_result, instr') := added in
        match construction_result with
        | NoError => parse_operands_after fuel' instr'
        | _ =>
            parser_do _ <- emit_operand_diag_at_current_token construction_result;
            parsed unknown_instruction
        end
      else parsed instr
  end.

(** [Parser::parse_operand_list]. *)
Definition parse_operand_list (instr : Instruction) : parsing Instruction :=
  parser_do token <- current_token;
  parser_do added <- from_outcome (add_operand instr token);
  let '(first_operand_construction_result, instr') := added in
  match first_operand_construction_result with
  | InvalidTokenKind => parsed instr
  | NoError =>
      fun p => parse_operands_after (S (String.length (current_ p))) instr' p
  | _ =>
      parser_do _ <- emit_operand_diag_at_current_token first_operand_construction_result;
      parsed unknown_instruction
  end.

(** The loop of [parse_instruction] that skips the [EOL] tokens between a
    label and its opcode. *)
Fixpoint skip_EOL (fuel : nat) : parsing unit :=
  match fuel with
  | O => fun _ => None
  | S fuel' =>
      parser_do token <- current_token;
      if TokenKind_eqb (Token.kind token) Token.EOL then
        parser_do _ <- move_to_next_token;
        skip_EOL fuel'
      else parsed tt
  end.

(** [Instruction instr;], the local variable of [parse_instruction]: the
    members with a default initialiser are the empty label, no operand and
    [UnknownOp]; [address_] has none, so that it is left indeterminate.
    [indeterminate] stands for the 16-bit value it happens to hold. *)
Definition default_initialised (indeterminate : Z) : Instruction :=
  {| label_ := EmptyString; operands_ := []; opcode_ := UnknownOp;
     address_ := indeterminate |}.

(** [Parser::parse_instruction] ([solution.cpp]).  The instruction is built
    in a default-initialised [Instruction instr;]; the two [return {}] are
    value-initialised, which is [unknown_instruction]. *)
Definition parse_instruction (indeterminate : Z) : parsing Instruction :=
  parser_do first <- current_token;
  parser_do instr <-
    (if TokenKind_eqb (Token.kind first) Token.Label then
       parser_do _ <- move_to_next_token;
       parsed (set_label (default_initialised indeterminate) (Token.content first))
     else parsed (default_initialised indeterminate));
  parser_do _ <- (fun p => skip_EOL (S (S (String.length (current_ p)))) p);
  parser_do opcode_token <- current_token;
  if negb (TokenKind_eqb (Token.kind opcode_token) Token.Opcode)
     && negb (TokenKind_eqb (Token.kind opcode_token) Token.Pseudo)
  then
    parser_do _ <- emit_opcode_diag_at_current_token;
    parsed unknown_instruction
  else
    parser_do instr <- from_outcome (set_opcode_from_token instr opcode_token);
    parser_do _ <- move_to_next_token;
    parse_operand_list instr.

(** The loop of [Parser::parse_instructions] over the instructions parsed so
    far.  Every call of [parse_instruction] has its own local [instr]:
    [uninitialised k] is the indeterminate address in the call made when [k]
    instructions are in the vector. *)
Fixpoint parse_instructions_from (fuel : nat) (uninitialised : nat -> Z)
    (instructions : list Instruction) : parsing (list Instruction) :=
  match fuel with
  | O => fun _ => None
  | S fuel' =>
      parser_do token <- current_token;
      match Token.kind token with
      | Token.EOL =>
          parser_do _ <- move_to_next_token;
          parse_instructions_from fuel' uninitialised instructions
      | Token.End => parsed instructions
      | _ =>
          parser_do instr <- parse_instruction (uninitialised (length instructions));
          if is_unknown instr then parsed [unknown_instruction]
          else
            let instructions := instructions ++ [instr] in
            if Opcode_eqb (get_opcode instr) END then parsed instructions
            else parse_instructions_from fuel' uninitialised instructions
      end
  end.

(** [Parser::parse_instructions]. *)
Definition parse_instructions (uninitialised : nat -> Z) : parsing (list Instruction) :=
  parser_do _ <- move_to_next_token;
  fun p =>
    parse_instructions_from (S (S (String.length (current_ p)))) uninitialised [] p.

(* ================================================================== *)
(** ** The symbol table and the program ([assembler.hpp], [main.cpp]) *)
(* ================================================================== *)

(** [Assembler::get_label]: the address and [*ok]. *)
Definition assembler_get_label (a : Assembler) (label : string) : Z * bool :=
  match symbol_table_ a !! label with
  | None => (0, false)
  | Some address => (address, true)
  end.

(** [out << std::hex << std::uppercase << n]: the hexadecimal digits of [n],
    no prefix, no padding. *)
Definition print_hex_uppercase (n : Z) : string :=
  digits_in 16 "0123456789ABCDEF" (S (Z.to_nat (Z.log2 n))) n EmptyString.

(** [out << std::bitset<N>(value)]: the [N] low bits of [value], the most
    significant first. *)
Fixpoint print_bitset (N : nat) (value : Z) : string :=
  match N with
  | O => EmptyString
  | S N' =>
      String (if Z.testbit value (Z.of_nat N') then "1"%char else "0"%char)
             (print_bitset N' value)
  end.

(** One line of the listing. *)
Definition listing_line (line : Z * Z) : string :=
  written [ "("; print_hex_uppercase (fst line); ") "; print_bitset 16 (snd line);
            end_of_line ].

(** The options of the command line that select what is printed. *)
Record ProgramOptions := mkProgramOptions {
  print_tokens : bool;
  print_instructions : bool
}.

(** [main] on the text of the input file: what is written to [std::cout] by
    the parser and the assembler, the exit status and what is written to
    [out].  [uninitialised] gives the indeterminate addresses of the parser's
    local instructions; [None] stands for a loop of the parser whose fuel is
    used up. *)
Definition main (char_is_signed : bool) (uninitialised : nat -> Z)
    (options : ProgramOptions) (source : string)
  : option (list string * outcome (Z * list string)) :=
  if print_tokens options then
    Some ([], Ok (0, map (fun token => String.append (print_Token token) end_of_line)
                         (tokens source)))
  else
    match parse_instructions uninitialised (new_Parser source) with
    | None => None
    | Some (d, Fault f) => Some (map parser_diagnostic_text d, Fault f)
    | Some (d, Ok (instructions, _)) =>
        let messages := map parser_diagnostic_text d in
        if (length instructions =? 1)%nat && forallb is_unknown instructions then
          Some (messages, Ok (1, []))
        else if print_instructions options then
          Some (messages,
                Ok (0, map (fun instr => String.append (print_Instruction instr) end_of_line)
                           instructions))
        else
          match assemble_and_list char_is_signed instructions with
          | (d', Ok (status, lines)) =>
              Some (messages ++ map diagnostic_text d', Ok (status, map listing_line lines))
          | (d', Fault f) => Some (messages ++ map diagnostic_text d', Fault f)
          end
    end.

(* ================================================================== *)
(** ** Specification-side notions

    The definitions below follow the wording of the specification, not the
    code; the theorems compare the two. *)
(* ================================================================== *)

(** The position of a character in an alphabet. *)
Fixpoint index_of (c : ascii) (alphabet : string) : option nat :=
  match alphabet with
  | EmptyString => None
  | String a rest =>
      if Ascii.eqb c a then Some 0%nat
      else match index_of c rest with Some i => Some (S i) | None => None end
  end.

(** The value of a digit character: its position among [0..9a..f], in either
    case of the letters. *)
Definition numeral_digit (c : ascii) : Z :=
  match index_of c "0123456789abcdef" with
  | Some i => Z.of_nat i
  | None =>
      match index_of c "0123456789ABCDEF" with
      | Some i => Z.of_nat i
      | None => 0
      end
  end.

(** Positional notation: the digit [d] in front of [k] further digits counts
    [d * base ^ k]. *)
Fixpoint numeral_value (base : Z) (digits : string) : Z :=
  match digits with
  | EmptyString => 0
  | String c rest =>
      numeral_digit c * base ^ Z.of_nat (String.length rest) + numeral_value base rest
  end.

(** A decimal numeral with an optional sign. *)
Definition signed_decimal_value (s : string) : Z :=
  match s with
  | String c rest =>
      if Ascii.eqb c "-" then - numeral_value 10 rest
      else if Ascii.eqb c "+" then numeral_value 10 rest
      else numeral_value 10 s
  | EmptyString => 0
  end.

(** The integer a slice represents: [#] announces a signed decimal numeral,
    [x] a hexadecimal and [b] a binary one; without prefix the slice is a
    signed decimal numeral. *)
Definition represented_integer (slice : string) : Z :=
  match slice with
  | String c rest =>
      if Ascii.eqb c "#" then signed_decimal_value rest
      else if Ascii.eqb c "x" then numeral_value 16 rest
      else if Ascii.eqb c "b" then numeral_value 2 rest
      else signed_decimal_value slice
  | EmptyString => 0
  end.

(** The slices the lexer gives to [Immediate] and [Number] tokens: an optional
    sign and decimal digits after [#] or on their own, hexadecimal digits
    after [x], binary digits after [b]. *)
Definition signed_decimal_shape (s : string) : bool :=
  match s with
  | String c rest =>
      if Ascii.eqb c "+" || Ascii.eqb c "-" then all_of isdigit rest else all_of isdigit s
  | EmptyString => true
  end.

Definition lexed_integer_slice (kind : Token.TokenKind) (slice : string) : bool :=
  match kind, slice with
  | Token.Immediate, String c rest =>
      if Ascii.eqb c "#" then signed_decimal_shape rest
      else if Ascii.eqb c "x" then all_of is_hex_digit rest
      else if Ascii.eqb c "b" then all_of is_binary_digit rest
      else false
  | Token.Number, String c rest =>
      (isdigit c || Ascii.eqb c "+" || Ascii.eqb c "-") && signed_decimal_shape slice
  | _, _ => false
  end.

(** The slices rejected as [InvalidNumber]: a lone prefix, a lone sign, a
    prefix followed only by a sign. *)
Definition rejected_slices : list string :=
  [ "#"; "x"; "b"; "+"; "-"; "#+"; "#-"; "x+"; "x-"; "b+"; "b-" ]%string.

(** Folding an integer of [-32768, 65535] into the signed 16-bit domain. *)
Definition fold_to_i16 (n : Z) : Z := if n <=? 32767 then n else n - 65536.

(** The mnemonics of the real instructions. *)
Definition mnemonics : list string :=
  [ "ADD"; "AND"; "BR"; "BRn"; "BRz"; "BRp"; "BRzp"; "BRnp"; "BRnz"; "BRnzp";
    "JMP"; "JSR"; "JSRR"; "LD"; "LDI"; "LDR"; "LEA"; "NOT"; "RET"; "RTI";
    "ST"; "STI"; "STR"; "TRAP"; "GETC"; "OUT"; "PUTS"; "IN"; "PUTSP"; "HALT" ]%string.

Definition one_of (alphabet : string) (c : ascii) : bool :=
  match index_of c alphabet with Some _ => true | None => false end.

(** The classification rules of an identifier, in the order they are tried. *)
Definition classify_identifier (slice : string) : Token.TokenKind :=
  if existsb (String.eqb slice) mnemonics then Token.Opcode
  else
    match slice with
    | String c rest =>
        if (String.length slice =? 2)%nat && Ascii.eqb c "R" && all_of (one_of "01234567") rest
        then Token.Register
        else if Ascii.eqb c "x" && all_of (one_of "0123456789abcdefABCDEF") rest
        then Token.Immediate
        else if Ascii.eqb c "b" && all_of (one_of "01") rest
        then Token.Immediate
        else Token.Label
    | EmptyString => Token.Label
    end.

(** An instruction that passes [validate_and_emit_diagnostics]. *)
Definition validated (instr : Instruction) : Prop :=
  validate_and_emit_diagnostics instr = ([], Ok true).

(** Register operands hold a register number of [R0..R7]. *)
Definition register_in_range (o : Operand.Operand) : bool :=
  match o with
  | Operand.of_register r => (0 <=? r) && (r <? 8)
  | _ => true
  end.

(** The increment of the address counter the specification gives for an
    instruction in pass 1. *)
Definition address_increment (instr : Instruction) : Z :=
  match opcode_ instr, operands_ instr with
  | BLKW, Operand.of_number k :: _ => k
  | STRINGZ, Operand.of_string_literal s :: _ => Z.of_nat (String.length s) + 1
  | _, _ => 1
  end.

(** The width of the PC-relative field of the opcodes that take a label, and
    the position of the label among the operands. *)
Definition label_field (opcode : Opcode) : option (nat * Z) :=
  match opcode with
  | BR | BRn | BRz | BRp | BRzp | BRnp | BRnz | BRnzp => Some (0%nat, 9)
  | JSR => Some (0%nat, 11)
  | LD | LDI | LEA | ST | STI => Some (1%nat, 9)
  | _ => None
  end.

(** [offset] fits a signed field of [bits] bits. *)
Definition fits_signed (bits : Z) (offset : Z) : bool :=
  (- 2 ^ (bits - 1) <=? offset) && (offset <=? 2 ^ (bits - 1) - 1).

Definition is_ORIG_diagnostic (d : Diagnostic) : bool :=
  match d with
  | orig_missing _ | orig_duplicate => true
  | _ => false
  end.

(** The sequence consists of exactly one [.ORIG], in front. *)
Definition one_leading_ORIG (instructions : list Instruction) : bool :=
  match instructions with
  | front :: others => is_ORIG front && negb (existsb is_ORIG others)
  | [] => false
  end.

(** The characters of a string as a list. *)
Fixpoint chars (s : string) : list ascii :=
  match s with
  | EmptyString => []
  | String c rest => c :: chars rest
  end.

(** The opcodes whose single operand is a label or an immediate. *)
Definition is_branch (opcode : Opcode) : bool :=
  match opcode with
  | BR | BRn | BRz | BRp | BRzp | BRnp | BRnz | BRnzp | JSR => true
  | _ => false
  end.

(** The opcodes that take a register and a label. *)
Definition is_load_store (opcode : Opcode) : bool :=
  match opcode with
  | LD | LDI | LEA | ST | STI => true
  | _ => false
  end.

(** The word emitted for one character of a [.STRINGZ] literal: the byte
    itself, except that a byte of 0x80 or more held in a signed [char] is
    sign-extended. *)
Definition char_word (char_is_signed : bool) (c : ascii) : Z :=
  if char_is_signed && (128 <=? char_code c) then 65280 + char_code c else char_code c.

(** The bases [string_to_integer] passes to [std::stoll]. *)
Definition supported_base (base : Z) : Prop := base = 2 \/ base = 10 \/ base = 16.

(* ================================================================== *)
(** ** Notions of the properties of the parser, the encoder and the program

    Predicates, measures and texts in which the second part of the
    properties is stated. *)
(* ================================================================== *)

(** The integer an operand holds, for the two integer variants. *)
Definition integer_value (o : Operand.Operand) : option Z :=
  match o with
  | Operand.of_immediate v | Operand.of_number v => Some v
  | _ => None
  end.

(** An operand that is no integer, or an integer within the range
    [immediate_range] gives for the instruction. *)
Definition within_immediate_range (instr : Instruction) (o : Operand.Operand) : Prop :=
  forall v, integer_value o = Some v ->
            fst (immediate_range instr) <= v <= snd (immediate_range instr).

(** The signed value of a two's complement field of [bits] bits. *)
Definition sign_extend (bits : Z) (field : Z) : Z :=
  if field <? 2 ^ (bits - 1) then field else field - 2 ^ bits.

(** A token the lexer has produced. *)
Definition lexed (token : Token.Token) : Prop :=
  exists source rest, next_token source = Some (token, rest).

(** The invariant of the parser between two member calls: [cur_token_] comes
    from the lexer, and once it is [End] nothing is left to read. *)
Definition parser_invariant (p : Parser) : Prop :=
  lexed (cur_token_ p)
  /\ (Token.kind (cur_token_ p) = Token.End -> current_ p = EmptyString).

(** What is left for the loops of the parser: the unread characters, and the
    current token unless it is [End]. *)
Definition unparsed (p : Parser) : nat :=
  (String.length (current_ p)
   + match Token.kind (cur_token_ p) with Token.End => 0 | _ => 1 end)%nat.

(** An operand as [add_operand] builds it from a token of the lexer: a
    register of [R0..R7], an integer of the signed 16-bit range. *)
Definition operand_from_token (o : Operand.Operand) : Prop :=
  register_in_range o = true
  /\ forall v, integer_value o = Some v -> INT16_MIN <= v <= INT16_MAX.

(** An instruction as the parser returns it on success. *)
Definition parsed_instruction (instr : Instruction) : Prop :=
  is_unknown instr = false
  /\ Forall operand_from_token (operands_ instr).

(** The instruction [instr] with further operands, each built from a token. *)
Definition with_operands (instr instr' : Instruction) : Prop :=
  label_ instr' = label_ instr /\ opcode_ instr' = opcode_ instr
  /\ address_ instr' = address_ instr
  /\ exists more, operands_ instr' = operands_ instr ++ more
                  /\ Forall operand_from_token more.

(** The call [m] on the parser [p] returns, and [Q] holds of what it wrote, of
    its result and of the parser after it. *)
Definition returns {A : Type} (m : parsing A) (p : Parser)
    (Q : list ParserDiagnostic -> A -> Parser -> Prop) : Prop :=
  exists d a p', m p = Some (d, Ok (a, p')) /\ Q d a p'.

(** The two ways [parse_operand_list] and [parse_instruction] end: no message
    and an instruction, or one message and the unknown instruction. *)
Definition parsed_or_reported (d : list ParserDiagnostic) (instr : Instruction)
    (P : Instruction -> Prop) : Prop :=
  (d = [] /\ P instr)
  \/ (exists diagnostic, d = [diagnostic]) /\ instr = unknown_instruction.

(** [.END] occurs at most once, as the last instruction. *)
Definition END_only_last (instructions : list Instruction) : Prop :=
  forall i instr,
    instructions !! i = Some instr -> opcode_ instr = END -> S i = length instructions.

(** The two ways [parse_instructions] ends: no message and the instructions
    of the source, or one message and a vector that holds the unknown
    instruction alone. *)
Definition parse_result (d : list ParserDiagnostic) (instructions : list Instruction)
  : Prop :=
  (d = [] /\ Forall parsed_instruction instructions /\ END_only_last instructions)
  \/ (exists diagnostic, d = [diagnostic]) /\ instructions = [unknown_instruction].

(** The number of words the encoder appends for an instruction: none for
    [.ORIG] and [.END], the count of [.BLKW], the characters of a [.STRINGZ]
    literal and its terminator, one otherwise. *)
Definition emitted_words (instr : Instruction) : Z :=
  match opcode_ instr with
  | ORIG | END => 0
  | _ => address_increment instr
  end.

Definition total_words (instructions : list Instruction) : Z :=
  fold_right (fun instr n => emitted_words instr + n) 0 instructions.

(** A branch or [JSR] whose operand is an immediate, [BRz] apart: validation
    accepts it, the encoder reads its operand as a label. *)
Definition branch_on_immediate_operand (instr : Instruction) : Prop :=
  is_branch (opcode_ instr) = true /\ opcode_ instr <> BRz
  /\ exists v, operands_ instr = [Operand.of_immediate v].

(** A [.BLKW] with a negative count. *)
Definition negative_BLKW (instr : Instruction) : Prop :=
  opcode_ instr = BLKW /\ exists k, operands_ instr = [Operand.of_number k] /\ k < 0.

(** An instruction the encoder handles without fault. *)
Definition encodable (instr : Instruction) : Prop :=
  validated instr /\ ~ branch_on_immediate_operand instr /\ ~ negative_BLKW instr.

(** The labels of a program, in the order of the instructions that carry
    one. *)
Definition labels (instructions : list Instruction) : list string :=
  map get_label (filter (fun instr => has_label instr = true) instructions).

(** A character that may stand inside a string literal: neither the double
    quote nor the newline. *)
Definition literal_character (c : ascii) : bool :=
  negb (Ascii.eqb c quote) && negb (Ascii.eqb c newline).

(** The text is at its end or at the end of a line. *)
Definition at_end_of_line (s : string) : Prop :=
  match s with
  | EmptyString => True
  | String c _ => c = newline
  end.

(** The trap vector behind each of the six named traps. *)
Definition trap_vectors : list (Opcode * Z) :=
  [ (GETC, 32); (OUT, 33); (PUTS, 34); (IN, 35); (PUTSP, 36); (HALT, 37) ].

(** The condition codes a branch mnemonic names, as the bits [n], [z], [p];
    [BR] alone tests all three. *)
Definition condition_codes (opcode : Opcode) : option (Z * Z * Z) :=
  match opcode with
  | BRn => Some (1, 0, 0)
  | BRz => Some (0, 1, 0)
  | BRp => Some (0, 0, 1)
  | BRzp => Some (0, 1, 1)
  | BRnp => Some (1, 0, 1)
  | BRnz => Some (1, 1, 0)
  | BRnzp | BR => Some (1, 1, 1)
  | _ => None
  end.

(** The word [w] is [base] with fields set among the twelve low bits. *)
Definition fielded (base w : Z) : Prop :=
  exists fields, w = Z.lor base fields /\ 0 <= fields < 4096.

(** A translation step wrote nothing and, if it returned, returned a 16-bit
    word; or it wrote one message and returned the sentinel. *)
Definition quiet_or_failed (m : emitting Z) : Prop :=
  (fst m = [] /\ forall w, snd m = Ok w -> 0 <= w < 65536)
  \/ exists diagnostic, m = ([diagnostic], Ok translation_failed).

(** The text after a token does not continue it: it is empty or starts with a
    character that is neither a letter nor a digit. *)
Definition delimited (rest : string) : Prop :=
  match rest with
  | EmptyString => True
  | String d _ => isalnum d = false
  end.

(** The operands [add_operand] builds from the tokens of the lexer: a
    register of [R0..R7], an integer of the signed 16-bit range, an
    identifier the lexer classifies as a label, a literal without quote and
    newline. *)
Definition printable (o : Operand.Operand) : Prop :=
  match o with
  | Operand.of_register reg_id => 0 <= reg_id <= 7
  | Operand.of_immediate imm | Operand.of_number imm => INT16_MIN <= imm <= INT16_MAX
  | Operand.of_label text =>
      exists c run, text = String c run /\ isalpha c = true /\ all_of isalnum run = true
                    /\ identifier_kind text = Token.Label
  | Operand.of_string_literal text => all_of literal_character text = true
  end.

(** Text without a newline. *)
Definition on_one_line (s : string) : bool :=
  all_of (fun c => negb (Ascii.eqb c newline)) s.


(** The instructions the parser builds: a known opcode, no label or an
    identifier the lexer classifies as a label, operands [add_operand]
    builds.  The address is not printed and may be any. *)
Definition printable_instruction (instr : Instruction) : Prop :=
  is_unknown instr = false
  /\ (has_label instr = true -> printable (Operand.of_label (label_ instr)))
  /\ Forall printable (operands_ instr).

(** What [main] prints under the option [-I]: one instruction per line. *)
Definition printed_program (instructions : list Instruction) : string :=
  written (map (fun instr => String.append (print_Instruction instr) end_of_line)
               instructions).

(** The operands after the first, as [operator<<] writes them: each behind a
    comma and a blank. *)
Fixpoint more_operands (operands : list Operand.Operand) : string :=
  match operands with
  | [] => EmptyString
  | operand :: rest =>
      String "," (String " " (String.append (print_Operand operand) (more_operands rest)))
  end.

(** The operands of a printed instruction with the blank in front of them. *)
Definition operand_text (operands : list Operand.Operand) : string :=
  match operands with
  | [] => EmptyString
  | operand :: rest =>
      String " " (String.append (print_Operand operand) (more_operands rest))
  end.

(** What the lexer puts into a token of each kind. *)
Definition token_shape (token : Token.Token) : Prop :=
  let content := Token.content token in
  match Token.kind token with
  | Token.EOL => content = end_of_line
  | Token.End => content = EmptyString
  | Token.Comma => content = ","%string
  | Token.Opcode => is_valid_opcode content = true
  | Token.Register => is_valid_register content = true
  | Token.Pseudo => is_valid_pseudo content = true
  | Token.Immediate => lexed_integer_slice Token.Immediate content = true
  | Token.Number => lexed_integer_slice Token.Number content = true
  | Token.Label => printable (Operand.of_label content)
  | Token.String =>
      exists body,
        all_of literal_character body = true
        /\ (content = String quote (String.append body (String quote EmptyString))
            \/ content = String quote body)
  | Token.Unknown => content <> EmptyString
  end.

(* ================================================================== *)
(** ** Sample programs *)
(* ================================================================== *)

Definition instruction (label : string) (opcode : Opcode)
    (operands : list Operand.Operand) (address : Z) : Instruction :=
  {| label_ := label; operands_ := operands; opcode_ := opcode; address_ := address |}.

(** [.ORIG x3000 / LOOP ADD R1, R1, #-1 / BRp LOOP / .END] as parsed. *)
Definition countdown : list Instruction :=
  [ instruction "" ORIG [Operand.of_immediate 12288] 0;
    instruction "LOOP" ADD
      [Operand.of_register 1; Operand.of_register 1; Operand.of_immediate (-1)] 0;
    instruction "" BRp [Operand.of_label "LOOP"] 0;
    instruction "" END [] 0 ].

(** The same program after passes 1 and 2a. *)
Definition countdown_scanned : Assembler :=
  {| instructions_ :=
       [ instruction "" ORIG [Operand.of_immediate 12288] 12288;
         instruction "LOOP" ADD
           [Operand.of_register 1; Operand.of_register 1; Operand.of_immediate (-1)] 12289;
         instruction "" BRp [Operand.of_label "LOOP"] 12290;
         instruction "" END [] 12291 ];
     symbol_table_ := {[ "LOOP"%string := 12289 ]} |}.

(** [.ORIG x3000 / .FILL x7 / .BLKW 3 / .STRINGZ "Hi" / HALT / .END]. *)
Definition data_block : list Instruction :=
  [ instruction "" ORIG [Operand.of_immediate 12288] 0;
    instruction "" FILL [Operand.of_immediate 7] 0;
    instruction "" BLKW [Operand.of_number 3] 0;
    instruction "" STRINGZ [Operand.of_string_literal "Hi"] 0;
    instruction "" HALT [] 0;
    instruction "" END [] 0 ].

(** [ADD R1, R2, R3 / .END]: no [.ORIG]. *)
Definition missing_ORIG : list Instruction :=
  [ instruction "" ADD
      [Operand.of_register 1; Operand.of_register 2; Operand.of_register 3] 0;
    instruction "" END [] 0 ].

(** [ADD R1, R2, #16 / .END]: no [.ORIG], and an immediate out of range. *)
Definition missing_ORIG_invalid : list Instruction :=
  [ instruction "" ADD
      [Operand.of_register 1; Operand.of_register 2; Operand.of_immediate 16] 0;
    instruction "" END [] 0 ].

(** [.ORIG x3000 / BR #1 / .END]: a branch on an immediate. *)
Definition branch_on_immediate : list Instruction :=
  [ instruction "" ORIG [Operand.of_immediate 12288] 0;
    instruction "" BR [Operand.of_immediate 1] 0;
    instruction "" END [] 0 ].

(** The literal made of the single byte 0xE9. *)
Definition e_acute : string := String (ascii_of_nat 233) EmptyString.

(** [.ORIG x3000 / ADD R1, R2, R3 / .END]. *)
Definition add_registers : list Instruction :=
  [ instruction "" ORIG [Operand.of_immediate 12288] 0;
    instruction "" ADD
      [Operand.of_register 1; Operand.of_register 2; Operand.of_register 3] 0;
    instruction "" END [] 0 ].

(** [.ORIG x3000 / HELLO .STRINGZ "Hi" / .END]. *)
Definition hello : list Instruction :=
  [ instruction "" ORIG [Operand.of_immediate 12288] 0;
    instruction "HELLO" STRINGZ [Operand.of_string_literal "Hi"] 0;
    instruction "" END [] 0 ].

(** [.ORIG x3000 / FOO .FILL x1 / FOO .FILL x2 / .END]. *)
Definition label_twice : list Instruction :=
  [ instruction "" ORIG [Operand.of_immediate 12288] 0;
    instruction "FOO" FILL [Operand.of_immediate 1] 0;
    instruction "FOO" FILL [Operand.of_immediate 2] 0;
    instruction "" END [] 0 ].

(** [.ORIG x3000 / BR FAR / .BLKW 300 / FAR HALT / .END]: the label is 300
    words after the branch. *)
Definition far_branch : list Instruction :=
  [ instruction "" ORIG [Operand.of_immediate 12288] 0;
    instruction "" BR [Operand.of_label "FAR"] 0;
    instruction "" BLKW [Operand.of_number 300] 0;
    instruction "FAR" HALT [] 0;
    instruction "" END [] 0 ].

(** [.ORIG xFFFE / FOO ADD R0, R0, R0 / BR FOO / .END]: the address counter
    wraps from xFFFF to x0000 between the label and the branch. *)
Definition branch_across_wrap : list Instruction :=
  [ instruction "" ORIG [Operand.of_immediate (-2)] 0;
    instruction "FOO" ADD
      [Operand.of_register 0; Operand.of_register 0; Operand.of_register 0] 0;
    instruction "" BR [Operand.of_label "FOO"] 0;
    instruction "" END [] 0 ].

(* ================================================================== *)
(** * Properties *)
(* ================================================================== *)

(** *** Strings *)

Lemma find_if_not_length p s :
  (String.length (find_if_not p s) <= String.length s)%nat.
Proof.
  induction s as [|c s IH]; simpl; [lia|].
  destruct (p c); simpl; lia.
Qed.

Lemma append_cons c a b : String.append (String c a) b = String c (String.append a b).
Proof. reflexivity. Qed.

Lemma append_nil b : String.append EmptyString b = b.
Proof. reflexivity. Qed.

Lemma take_while_find_if_not p s :
  String.append (take_while p s) (find_if_not p s) = s.
Proof.
  induction s as [|c s IH]; simpl; [reflexivity|].
  destruct (p c); [rewrite append_cons; f_equal; exact IH | reflexivity].
Qed.

Lemma append_length pre r :
  String.length (String.append pre r) = (String.length pre + String.length r)%nat.
Proof.
  induction pre as [|c pre IH]; [reflexivity|].
  rewrite append_cons. simpl. now rewrite IH.
Qed.

Lemma substring_prefix pre r :
  String.substring 0 (String.length pre) (String.append pre r) = pre.
Proof.
  induction pre as [|c pre IH].
  - rewrite append_nil. destruct r; reflexivity.
  - rewrite append_cons. simpl. now rewrite IH.
Qed.

Lemma consumed_app pre r : consumed (String.append pre r) r = pre.
Proof.
  unfold consumed. rewrite append_length.
  replace (String.length pre + String.length r - String.length r)%nat
    with (String.length pre) by lia.
  apply substring_prefix.
Qed.

Lemma consumed_find_if_not p c s :
  consumed (String c s) (find_if_not p s) = String c (take_while p s).
Proof.
  rewrite <- (take_while_find_if_not p s) at 1.
  apply (consumed_app (String c (take_while p s))).
Qed.


Lemma all_of_ext p q s :
  (forall c, p c = q c) -> all_of p s = all_of q s.
Proof. intros H. induction s as [|c s IH]; simpl; [reflexivity | now rewrite H, IH]. Qed.

Lemma find_if_not_all p s rest :
  all_of p s = true ->
  match rest with String d _ => p d = false | EmptyString => True end ->
  find_if_not p (String.append s rest) = rest.
Proof.
  intros Hall Hrest. induction s as [|c s IH].
  - rewrite append_nil. destruct rest as [|d rest]; simpl; [reflexivity | now rewrite Hrest].
  - rewrite append_cons. simpl in *.
    apply andb_true_iff in Hall as [Hc Hs]. rewrite Hc. auto.
Qed.

Lemma take_while_all p s : all_of p s = true -> take_while p s = s.
Proof.
  induction s as [|c s IH]; simpl; [reflexivity|].
  intros H. apply andb_true_iff in H as [Hc Hs]. rewrite Hc. now rewrite IH.
Qed.

Lemma all_of_take_while p s : all_of p (take_while p s) = true.
Proof.
  induction s as [|c s IH]; simpl; [reflexivity|].
  destruct (p c) eqn:E; simpl; [now rewrite E | reflexivity].
Qed.

(** *** Character classes *)

Ltac each_char c :=
  destruct c as [[] [] [] [] [] [] [] []]; vm_compute; try reflexivity; try discriminate.

Lemma isalpha_dispatch c :
  isalpha c = true ->
  Ascii.eqb c newline = false /\ is_blank c = false /\ Ascii.eqb c "," = false
  /\ Ascii.eqb c "#" = false /\ Ascii.eqb c quote = false
  /\ (isdigit c || Ascii.eqb c "+" || Ascii.eqb c "-") = false.
Proof. each_char c; intros _; repeat split. Qed.

Lemma hex_digit_alphabet c :
  is_hex_digit c = one_of "0123456789abcdefABCDEF" c.
Proof. each_char c. Qed.

Lemma binary_digit_alphabet c : is_binary_digit c = one_of "01" c.
Proof. each_char c. Qed.

Lemma register_digit_alphabet c :
  (char_code "0" <=? char_code c) && (char_code c <? char_code "8") = one_of "01234567" c.
Proof. each_char c. Qed.

(** *** The lexer *)

Lemma parse_decimal_number_split s :
  exists pre, s = String.append pre (parse_decimal_number s)
              /\ signed_decimal_shape pre = true
              /\ (forall c rest, s = String c rest ->
                  (isdigit c || Ascii.eqb c "+" || Ascii.eqb c "-") = true ->
                  exists pre', pre = String c pre').
Proof.
  destruct s as [|c rest]; [exists EmptyString; repeat split; intros; discriminate|].
  unfold parse_decimal_number.
  destruct (Ascii.eqb c "+" || Ascii.eqb c "-") eqn:Hsign.
  - exists (String c (take_while isdigit rest)). split; [|split].
    + rewrite append_cons, take_while_find_if_not. reflexivity.
    + simpl. rewrite Hsign. apply all_of_take_while.
    + intros c' rest' [= <- <-] _. eauto.
  - exists (take_while isdigit (String c rest)). split; [|split].
    + now rewrite take_while_find_if_not.
    + simpl. destruct (isdigit c) eqn:Hd; [|reflexivity].
      simpl. rewrite Hsign. simpl. rewrite Hd. apply all_of_take_while.
    + intros c' rest' [= <- <-] H. simpl.
      apply orb_false_iff in Hsign as [H1 H2]. rewrite H1, H2, !orb_false_r in H.
      rewrite H. eauto.
Qed.

Lemma parse_decimal_number_length s :
  (String.length (parse_decimal_number s) <= String.length s)%nat.
Proof.
  destruct (parse_decimal_number_split s) as (pre & H & _).
  rewrite H at 2. rewrite append_length. lia.
Qed.

Lemma parse_string_literal_length s :
  (String.length (parse_string_literal s) <= String.length s)%nat.
Proof.
  induction s as [|c s IH]; simpl; [lia|].
  destruct (Ascii.eqb c quote); [lia|]. destruct (Ascii.eqb c newline); simpl; lia.
Qed.

Lemma next_token_from_total fuel s :
  (String.length s < fuel)%nat ->
  exists t r, next_token_from fuel s = Some (t, r)
              /\ (String.length r <= String.length s)%nat.
Proof.
  revert s. induction fuel as [|fuel IH]; intros s Hlen; [lia|].
  destruct s as [|c rest]; cbn [next_token_from]; [eauto|].
  cbn [String.length] in Hlen.
  assert (Hsp := find_if_not_length (fun ch => isspace ch && negb (Ascii.eqb ch newline)) rest).
  assert (Hco := find_if_not_length (fun ch => negb (Ascii.eqb ch newline)) rest).
  assert (Hid := find_if_not_length isalnum rest).
  assert (Hd1 := parse_decimal_number_length rest).
  assert (Hd2 := parse_decimal_number_length (String c rest)).
  assert (Hst := parse_string_literal_length rest).
  cbn [String.length] in *.
  repeat lazymatch goal with
  | |- exists t r, (if ?b then _ else _) = _ /\ _ => destruct b
  end;
  try (do 2 eexists; split; [reflexivity|];
       unfold lex_decimal_number, lex_string_literal, lex_identifier;
       cbn [String.length]; lia).
  - destruct (IH (consume_spaces rest)) as (t & r & -> & Hr);
      [unfold consume_spaces; lia|].
    exists t, r. split; [reflexivity|]. unfold consume_spaces in Hr. cbn [String.length]. lia.
  - destruct (IH (consume_comment rest)) as (t & r & -> & Hr);
      [unfold consume_comment; lia|].
    exists t, r. split; [reflexivity|]. unfold consume_comment in Hr. cbn [String.length]. lia.
Qed.

Lemma next_token_total s : exists t r, next_token s = Some (t, r).
Proof.
  destruct (next_token_from_total (S (String.length s)) s) as (t & r & H & _); [lia|].
  exists t, r. exact H.
Qed.

Lemma table_find_existsb {A} key (table : list (string * A)) :
  match table_find key table with Some _ => true | None => false end
  = existsb (String.eqb key) (map fst table).
Proof.
  induction table as [|[k v] table IH]; simpl; [reflexivity|].
  destruct (String.eqb key k); [reflexivity | exact IH].
Qed.

Lemma identifier_kind_classify slice :
  identifier_kind slice = classify_identifier slice.
Proof.
  unfold identifier_kind, classify_identifier, is_valid_opcode.
  rewrite table_find_existsb.
  change (map fst opcode_def) with mnemonics.
  destruct (existsb (String.eqb slice) mnemonics); [reflexivity|].
  destruct slice as [|c rest]; [reflexivity|].
  assert (Hreg : is_valid_register (String c rest)
                 = (String.length (String c rest) =? 2)%nat && Ascii.eqb c "R"
                   && all_of (one_of "01234567") rest).
  { destruct rest as [|c1 [|c2 rest]]; simpl.
    - reflexivity.
    - rewrite <- register_digit_alphabet, andb_true_r.
      destruct (Ascii.eqb c "R"); reflexivity.
    - reflexivity. }
  rewrite Hreg.
  destruct ((String.length (String c rest) =? 2)%nat && Ascii.eqb c "R"
            && all_of (one_of "01234567") rest); [reflexivity|].
  unfold may_be_valid_immediate_number.
  rewrite (all_of_ext _ _ rest hex_digit_alphabet).
  rewrite (all_of_ext _ _ rest binary_digit_alphabet).
  destruct (Ascii.eqb c "x") eqn:Hx.
  - simpl. destruct (all_of (one_of "0123456789abcdefABCDEF") rest) eqn:Hh; [reflexivity|].
    apply Ascii.eqb_eq in Hx. subst c. reflexivity.
  - simpl. destruct (Ascii.eqb c "b"); simpl;
      [destruct (all_of (one_of "01") rest)|]; reflexivity.
Qed.


(** Claim C8.  On an alphanumeric run that begins with an ASCII letter and is
    followed by the end of the text or by a character that is not
    alphanumeric, the lexer returns the run as one token whose kind is found by
    trying in order: exact match with a mnemonic ([Opcode]); length 2, first
    character [R], second character [0..7] ([Register]); first character [x]
    and only hexadecimal digits after it, or first character [b] and only
    [0]/[1] after it, the empty tail included ([Immediate]); otherwise [Label].
    In particular [add] and [Add] are labels, [X1234] is a label, [.orig] and
    [.End] are [Unknown] tokens, and the bare prefixes [x] and [b] are
    [Immediate] tokens. *)
Theorem identifier_classification :
  (forall c run rest,
      isalpha c = true -> all_of isalnum run = true ->
      match rest with String d _ => isalnum d | EmptyString => false end = false ->
      next_token (String.append (String c run) rest)
      = Some (Token.mk (classify_identifier (String c run)) (String c run), rest))
  /\ next_token "add" = Some (Token.mk Token.Label "add", EmptyString)
  /\ next_token "Add" = Some (Token.mk Token.Label "Add", EmptyString)
  /\ next_token "X1234" = Some (Token.mk Token.Label "X1234", EmptyString)
  /\ next_token ".orig" = Some (Token.mk Token.Unknown ".orig", EmptyString)
  /\ next_token ".End" = Some (Token.mk Token.Unknown ".End", EmptyString)
  /\ next_token "x" = Some (Token.mk Token.Immediate "x", EmptyString)
  /\ next_token "b" = Some (Token.mk Token.Immediate "b", EmptyString).
Proof.
  split.
  - intros c run rest Hc Hrun Hrest.
    destruct (isalpha_dispatch c Hc) as (H1 & H2 & H3 & H4 & H5 & H6).
    unfold next_token. rewrite append_cons. cbn [next_token_from].
    rewrite H1, H2, H3, H4, H5, H6, Hc.
    unfold lex_identifier.
    rewrite (find_if_not_all isalnum run rest Hrun) by (destruct rest; auto).
    change (String c (String.append run rest)) with (String.append (String c run) rest).
    rewrite consumed_app, identifier_kind_classify. reflexivity.
  - repeat split; vm_compute; reflexivity.
Qed.

Lemma identifier_classification_witness :
  next_token "BRnzp LOOP"
  = Some (Token.mk Token.Opcode "BRnzp", " LOOP"%string).
Proof.
  exact (proj1 identifier_classification "B"%char "Rnzp"%string " LOOP"%string
           eq_refl eq_refl eq_refl).
Defined.

Lemma next_token_from_integer_slice fuel s t r :
  next_token_from fuel s = Some (t, r) ->
  Token.kind t = Token.Immediate \/ Token.kind t = Token.Number ->
  lexed_integer_slice (Token.kind t) (Token.content t) = true.
Proof.
  revert s. induction fuel as [|fuel IH]; intros s H Hk; [discriminate|].
  destruct s as [|c rest]; cbn [next_token_from] in H.
  { injection H as <- <-. destruct Hk; discriminate. }
  destruct (Ascii.eqb c newline); [injection H as <- <-; destruct Hk; discriminate|].
  destruct (is_blank c); [eauto|].
  destruct (Ascii.eqb c ","); [injection H as <- <-; destruct Hk; discriminate|].
  destruct (Ascii.eqb c "#") eqn:Hhash.
  { injection H as <- <-. cbn [Token.kind Token.content].
    apply Ascii.eqb_eq in Hhash. subst c.
    destruct (parse_decimal_number_split rest) as (pre & Hsplit & Hshape & _).
    unfold lex_decimal_number. rewrite Hsplit at 1.
    change (String "#" (String.append pre (parse_decimal_number rest)))
      with (String.append (String "#" pre) (parse_decimal_number rest)).
    rewrite consumed_app. exact Hshape. }
  destruct (Ascii.eqb c quote); [injection H as <- <-; destruct Hk; discriminate|].
  destruct (isdigit c || Ascii.eqb c "+" || Ascii.eqb c "-") eqn:Hnum.
  { injection H as <- <-. cbn [Token.kind Token.content].
    destruct (parse_decimal_number_split (String c rest)) as (pre & Hsplit & Hshape & Hhead).
    destruct (Hhead c rest eq_refl Hnum) as (pre' & ->).
    unfold lex_decimal_number. rewrite Hsplit at 1. rewrite consumed_app.
    cbn [lexed_integer_slice]. rewrite Hnum. exact Hshape. }
  destruct (isalpha c).
  { injection H as <- <-. cbn [Token.kind Token.content] in *.
    unfold lex_identifier in *. rewrite consumed_find_if_not in *.
    set (tail := take_while isalnum rest) in *.
    unfold identifier_kind in *.
    destruct (is_valid_opcode (String c tail)); [destruct Hk; discriminate|].
    destruct (is_valid_register (String c tail)); [destruct Hk; discriminate|].
    destruct (may_be_valid_immediate_number (String c tail)) eqn:Himm;
      [|destruct Hk; discriminate].
    cbn [lexed_integer_slice]. rewrite Hhash. exact Himm. }
  destruct (Ascii.eqb c ".").
  { injection H as <- <-. cbn [Token.kind] in Hk.
    destruct (is_valid_pseudo _); destruct Hk; discriminate. }
  destruct (Ascii.eqb c ";"); [eauto|].
  injection H as <- <-. destruct Hk; discriminate.
Qed.

Lemma next_token_integer_slice s t r :
  next_token s = Some (t, r) ->
  Token.kind t = Token.Immediate \/ Token.kind t = Token.Number ->
  lexed_integer_slice (Token.kind t) (Token.content t) = true.
Proof. apply next_token_from_integer_slice. Qed.

(** *** Number decoding *)

Ltac each_char_hyp c :=
  destruct c as [[] [] [] [] [] [] [] []]; vm_compute;
  intros; try reflexivity; try discriminate; auto.

Lemma digit_value_numeral c :
  is_digit_of 16 c = true -> digit_value c = Some (numeral_digit c).
Proof. each_char_hyp c. Qed.

Lemma numeral_digit_bounds c : 0 <= numeral_digit c < 16.
Proof. destruct c as [[] [] [] [] [] [] [] []]; vm_compute; split; congruence. Qed.

Lemma isdigit_digit_of c : isdigit c = true -> is_digit_of 10 c = true.
Proof. each_char_hyp c. Qed.

Lemma hex_digit_of c : is_hex_digit c = true -> is_digit_of 16 c = true.
Proof. each_char_hyp c. Qed.

Lemma binary_digit_of c : is_binary_digit c = true -> is_digit_of 2 c = true.
Proof. each_char_hyp c. Qed.

Lemma digit_of_10_16 c : is_digit_of 10 c = true -> is_digit_of 16 c = true.
Proof. each_char_hyp c. Qed.

Lemma digit_of_2_16 c : is_digit_of 2 c = true -> is_digit_of 16 c = true.
Proof. each_char_hyp c. Qed.

Lemma digit_of_16_plain c :
  is_digit_of 16 c = true ->
  isspace c = false /\ Ascii.eqb c "-" = false /\ Ascii.eqb c "+" = false
  /\ (Ascii.eqb c "x" || Ascii.eqb c "X") = false.
Proof. each_char_hyp c. Qed.

Lemma all_of_impl (p q : ascii -> bool) s :
  (forall c, p c = true -> q c = true) -> all_of p s = true -> all_of q s = true.
Proof.
  intros H. induction s as [|c s IH]; simpl; [reflexivity|].
  intros Hs. apply andb_true_iff in Hs as [Hc Hs]. now rewrite (H c Hc), IH.
Qed.

Lemma numeral_value_nonneg base digits : 0 <= base -> 0 <= numeral_value base digits.
Proof.
  intros Hb. induction digits as [|c s IH]; simpl; [lia|].
  assert (H := numeral_digit_bounds c).
  assert (0 <= base ^ Z.of_nat (String.length s)) by (apply Z.pow_nonneg; lia).
  nia.
Qed.

Lemma digits_value_numeral base digits acc :
  all_of (is_digit_of 16) digits = true ->
  digits_value base acc digits
  = acc * base ^ Z.of_nat (String.length digits) + numeral_value base digits.
Proof.
  revert acc. induction digits as [|c s IH]; intros acc Hall;
    cbn [digits_value numeral_value String.length all_of] in *.
  - change (Z.of_nat 0) with 0. rewrite Z.pow_0_r. lia.
  - apply andb_true_iff in Hall as [Hc Hs].
    rewrite (digit_value_numeral c Hc), (IH _ Hs).
    rewrite Nat2Z.inj_succ, Z.pow_succ_r by lia. ring.
Qed.

(** [stoll] on text without leading white space whose sign is followed by a
    non-empty run of digits of the base and nothing else. *)
Lemma stoll_after_sign base str negative digits :
  supported_base base ->
  find_if_not isspace str = str ->
  strip_sign str = (negative, digits) ->
  digits <> EmptyString ->
  all_of (is_digit_of base) digits = true ->
  all_of (is_digit_of 16) digits = true ->
  stoll str base
  = let value := if negative then - numeral_value base digits
                 else numeral_value base digits in
    if (value <? LLONG_MIN) || (LLONG_MAX <? value) then out_of_range
    else Converted value.
Proof.
  intros Hbase Hsp Hsign Hne Hall H16.
  destruct digits as [|c0 tl]; [congruence|].
  assert (Hs3 : strip_hex_prefix base (String c0 tl) = String c0 tl).
  { unfold strip_hex_prefix. destruct tl as [|c1 [|c2 rest]]; try reflexivity.
    simpl in H16. apply andb_true_iff in H16 as [_ H16].
    apply andb_true_iff in H16 as [Hc1 _].
    destruct (digit_of_16_plain c1 Hc1) as (_ & _ & _ & Hx).
    rewrite Hx, andb_false_r. reflexivity. }
  unfold stoll. rewrite Hsp, Hsign. cbn [fst snd].
  rewrite Hs3, (take_while_all _ _ Hall).
  rewrite (digits_value_numeral base (String c0 tl) 0 H16).
  replace (0 * base ^ Z.of_nat (String.length (String c0 tl))
           + numeral_value base (String c0 tl))
    with (numeral_value base (String c0 tl)) by lia.
  reflexivity.
Qed.

Lemma substring_all s : String.substring 0 (String.length s) s = s.
Proof. induction s as [|c s IH]; simpl; [reflexivity | now rewrite IH]. Qed.

Lemma sign_plain c :
  (Ascii.eqb c "+" || Ascii.eqb c "-") = true -> isspace c = false.
Proof. each_char_hyp c. Qed.

(** [stoll] in base 10 on an optional sign followed by at least one digit. *)
Lemma stoll_signed_decimal s :
  signed_decimal_shape s = true ->
  s <> EmptyString -> s <> "+"%string -> s <> "-"%string ->
  stoll s 10
  = let n := signed_decimal_value s in
    if (n <? LLONG_MIN) || (LLONG_MAX <? n) then out_of_range else Converted n.
Proof.
  intros Hshape Hne Hplus Hminus.
  destruct s as [|c rest]; [congruence|].
  unfold signed_decimal_shape in Hshape.
  destruct (Ascii.eqb c "+" || Ascii.eqb c "-") eqn:Hsign.
  - assert (Hrest : rest <> EmptyString).
    { intros ->. apply orb_true_iff in Hsign as [H|H]; apply Ascii.eqb_eq in H;
        subst c; congruence. }
    assert (H10 := all_of_impl _ _ rest isdigit_digit_of Hshape).
    assert (H16 := all_of_impl _ _ rest digit_of_10_16 H10).
    assert (Hstrip : strip_sign (String c rest) = (Ascii.eqb c "-", rest)).
    { unfold strip_sign. destruct (Ascii.eqb c "-"); [reflexivity|].
      simpl in Hsign. rewrite orb_false_r in Hsign. now rewrite Hsign. }
    rewrite (stoll_after_sign 10 (String c rest) (Ascii.eqb c "-") rest); auto.
    + unfold signed_decimal_value. destruct (Ascii.eqb c "-"); [reflexivity|].
      simpl in Hsign. rewrite orb_false_r in Hsign. now rewrite Hsign.
    + right; left; reflexivity.
    + simpl. now rewrite (sign_plain c Hsign).
  - assert (H10 := all_of_impl _ _ _ isdigit_digit_of Hshape).
    assert (H16 := all_of_impl _ _ _ digit_of_10_16 H10).
    apply orb_false_iff in Hsign as [Hp Hm].
    assert (Hc : is_digit_of 16 c = true)
      by (simpl in H16; now apply andb_true_iff in H16).
    destruct (digit_of_16_plain c Hc) as (Hsp & _ & _ & _).
    rewrite (stoll_after_sign 10 (String c rest) false (String c rest)); auto.
    + unfold signed_decimal_value. now rewrite Hm, Hp.
    + right; left; reflexivity.
    + simpl. now rewrite Hsp.
    + unfold strip_sign. now rewrite Hm, Hp.
Qed.

(** [stoll] on a non-empty run of hexadecimal or binary digits. *)
Lemma stoll_digits base digits :
  supported_base base ->
  digits <> EmptyString ->
  all_of (is_digit_of base) digits = true ->
  all_of (is_digit_of 16) digits = true ->
  stoll digits base
  = let n := numeral_value base digits in
    if (n <? LLONG_MIN) || (LLONG_MAX <? n) then out_of_range else Converted n.
Proof.
  intros Hbase Hne Hall H16.
  destruct digits as [|c tl]; [congruence|].
  assert (Hc : is_digit_of 16 c = true)
    by (simpl in H16; now apply andb_true_iff in H16).
  destruct (digit_of_16_plain c Hc) as (Hsp & Hm & Hp & _).
  rewrite (stoll_after_sign base (String c tl) false (String c tl)); auto.
  - simpl. now rewrite Hsp.
  - unfold strip_sign. now rewrite Hm, Hp.
Qed.

Lemma to_i16_fold n :
  INT16_MIN <= n <= UINT16_MAX -> to_i16 n = fold_to_i16 n.
Proof.
  unfold INT16_MIN, UINT16_MAX, to_i16, fold_to_i16. intros H.
  destruct (n <=? 32767) eqn:E; [apply Z.leb_le in E | apply Z.leb_gt in E];
    Z.div_mod_to_equations; lia.
Qed.

Lemma to_i16_small z : INT16_MIN <= z <= INT16_MAX -> to_i16 z = z.
Proof.
  unfold INT16_MIN, INT16_MAX, to_i16. intros H. Z.div_mod_to_equations; lia.
Qed.

Lemma checked_narrowing n :
  match (if (n <? LLONG_MIN) || (LLONG_MAX <? n) then out_of_range else Converted n) with
  | Converted value =>
      if (UINT16_MAX <? value) || (value <? INT16_MIN) then (0, false)
      else (to_i16 value, true)
  | invalid_argument | out_of_range => (0, false)
  end
  = if (INT16_MIN <=? n) && (n <=? UINT16_MAX) then (fold_to_i16 n, true) else (0, false).
Proof.
  unfold LLONG_MIN, LLONG_MAX.
  destruct (INT16_MIN <=? n) eqn:Hlo; destruct (n <=? UINT16_MAX) eqn:Hhi;
    cbn [andb];
    [apply Z.leb_le in Hlo | apply Z.leb_le in Hlo | apply Z.leb_gt in Hlo
     | apply Z.leb_gt in Hlo];
    [apply Z.leb_le in Hhi | apply Z.leb_gt in Hhi | apply Z.leb_le in Hhi
     | apply Z.leb_gt in Hhi];
    unfold INT16_MIN, UINT16_MAX in *.
  - replace (n <? - 2 ^ 63) with false by (symmetry; apply Z.ltb_ge; lia).
    replace (2 ^ 63 - 1 <? n) with false by (symmetry; apply Z.ltb_ge; lia).
    cbn [orb].
    replace (65535 <? n) with false by (symmetry; apply Z.ltb_ge; lia).
    replace (n <? -32768) with false by (symmetry; apply Z.ltb_ge; lia).
    cbn [orb]. rewrite to_i16_fold; [reflexivity | unfold INT16_MIN, UINT16_MAX; lia].
  - destruct ((n <? - 2 ^ 63) || (2 ^ 63 - 1 <? n)); [reflexivity|].
    replace (65535 <? n) with true by (symmetry; apply Z.ltb_lt; lia). reflexivity.
  - destruct ((n <? - 2 ^ 63) || (2 ^ 63 - 1 <? n)); [reflexivity|].
    replace (n <? -32768) with true by (symmetry; apply Z.ltb_lt; lia).
    now rewrite orb_true_r.
  - lia.
Qed.


(** The decoder on the slices the lexer produces, the rejected ones apart. *)
Lemma string_to_integer_lexed kind slice :
  kind = Token.Immediate \/ kind = Token.Number ->
  lexed_integer_slice kind slice = true ->
  ~ In slice rejected_slices ->
  string_to_integer slice
  = let n := represented_integer slice in
    if (INT16_MIN <=? n) && (n <=? UINT16_MAX) then (fold_to_i16 n, true) else (0, false).
Proof.
  intros Hkind Hlex Hrej.
  destruct slice as [|c rest]; [destruct Hkind as [-> | ->]; discriminate|].
  unfold rejected_slices in Hrej. cbn [In] in Hrej.
  destruct Hkind as [-> | ->]; cbn [lexed_integer_slice] in Hlex.
  - (* Immediate *)
    unfold string_to_integer, represented_integer.
    destruct (Ascii.eqb c "#") eqn:Hhash.
    { apply Ascii.eqb_eq in Hhash. subst c.
      cbn [String.length]. replace (S (String.length rest) - 1)%nat
        with (String.length rest) by lia.
      cbn [String.substring]. rewrite substring_all.
      rewrite stoll_signed_decimal; [apply checked_narrowing | assumption | | | ];
        intros ->; tauto. }
    destruct (Ascii.eqb c "x") eqn:Hx.
    { apply Ascii.eqb_eq in Hx. subst c.
      cbn [String.length]. replace (S (String.length rest) - 1)%nat
        with (String.length rest) by lia.
      cbn [String.substring]. rewrite substring_all.
      assert (H16 := all_of_impl _ _ rest hex_digit_of Hlex).
      rewrite stoll_digits; [apply checked_narrowing | right; right; reflexivity
                            | intros ->; tauto | assumption | assumption]. }
    destruct (Ascii.eqb c "b") eqn:Hb; [|discriminate].
    apply Ascii.eqb_eq in Hb. subst c.
    cbn [String.length]. replace (S (String.length rest) - 1)%nat
      with (String.length rest) by lia.
    cbn [String.substring]. rewrite substring_all.
    assert (H2 := all_of_impl _ _ rest binary_digit_of Hlex).
    assert (H16 := all_of_impl _ _ rest digit_of_2_16 H2).
    rewrite stoll_digits; [apply checked_narrowing | left; reflexivity
                          | intros ->; tauto | assumption | assumption].
  - (* Number *)
    apply andb_true_iff in Hlex as [Hhead Hshape].
    assert (Hpre : Ascii.eqb c "#" = false /\ Ascii.eqb c "x" = false
                   /\ Ascii.eqb c "b" = false).
    { clear -Hhead. revert Hhead. each_char_hyp c. }
    destruct Hpre as (H1 & H2 & H3).
    unfold string_to_integer, represented_integer. rewrite H1, H2, H3.
    rewrite Nat.sub_0_r, substring_all.
    rewrite stoll_signed_decimal; [apply checked_narrowing | assumption | | | ];
      try congruence; intros E; rewrite E in Hrej; tauto.
Qed.

Lemma is_valid_number_rejected slice :
  slice <> EmptyString ->
  is_valid_number slice = Ok (negb (existsb (String.eqb slice) rejected_slices)).
Proof.
  intros Hne. destruct slice as [|c rest]; [congruence|].
  unfold is_valid_number.
  destruct rest as [|c1 [|c2 rest]].
  - revert Hne. each_char_hyp c.
  - destruct (Ascii.eqb c "#" || Ascii.eqb c "x" || Ascii.eqb c "b") eqn:Hpre.
    + assert (Hc : c = "#"%char \/ c = "x"%char \/ c = "b"%char).
      { apply orb_true_iff in Hpre as [Hpre|Hpre];
          [apply orb_true_iff in Hpre as [Hpre|Hpre]|]; apply Ascii.eqb_eq in Hpre; auto. }
      f_equal. unfold rejected_slices.
      destruct Hc as [-> | [-> | ->]]; cbn [existsb String.eqb Ascii.eqb Bool.eqb andb orb];
        destruct (Ascii.eqb c1 "+") eqn:E1; destruct (Ascii.eqb c1 "-") eqn:E2;
        cbn; rewrite ?E1, ?E2; try reflexivity;
        apply Ascii.eqb_eq in E1; apply Ascii.eqb_eq in E2; congruence.
    + assert (Hex : existsb (String.eqb (String c (String c1 EmptyString))) rejected_slices
                    = false).
      { unfold rejected_slices. cbn [existsb String.eqb].
        apply orb_false_iff in Hpre as [Hpre Hb].
        apply orb_false_iff in Hpre as [Hh Hx].
        rewrite Hh, Hx, Hb. cbn [andb orb].
        destruct (Ascii.eqb c "+"); destruct (Ascii.eqb c "-"); reflexivity. }
      rewrite Hex. destruct (Ascii.eqb c "+" || Ascii.eqb c "-"); reflexivity.
  - assert (Hex : existsb (String.eqb (String c (String c1 (String c2 rest)))) rejected_slices
                  = false).
    { unfold rejected_slices. cbn [existsb String.eqb].
      repeat match goal with
      | |- context [if ?b then _ else _] => destruct b
      end; reflexivity. }
    rewrite Hex.
    destruct (Ascii.eqb c "#" || Ascii.eqb c "x" || Ascii.eqb c "b"); [reflexivity|].
    destruct (Ascii.eqb c "+" || Ascii.eqb c "-"); reflexivity.
Qed.

Lemma existsb_eqb_In slice (l : list string) :
  existsb (String.eqb slice) l = true <-> In slice l.
Proof.
  rewrite existsb_exists. split.
  - intros (x & Hin & Heq). apply String.eqb_eq in Heq. now subst.
  - intros H. exists slice. split; [assumption | apply String.eqb_refl].
Qed.

(** *** Operand construction *)

(** Claim C1.  For an [Immediate] or [Number] token whose slice has the shape
    the lexer produces and is not one of the slices rejected as
    [InvalidNumber], operand construction succeeds exactly when the integer
    [n] the slice represents lies in [-32768, 65535]; the instruction then has
    one more operand, at the end of its operand list, an immediate for an
    [Immediate] token and a number for a [Number] token, which holds [n] when
    [n <= 32767] and [n - 65536] otherwise; label, opcode and address are as
    before.  Any other [n] gives [IntegerOverflow] and leaves the instruction
    as it was. *)
Theorem add_operand_integer_range instr kind slice :
  kind = Token.Immediate \/ kind = Token.Number ->
  lexed_integer_slice kind slice = true ->
  ~ In slice rejected_slices ->
  let n := represented_integer slice in
  let stored := if n <=? 32767 then n else n - 65536 in
  add_operand instr (Token.mk kind slice)
  = if (-32768 <=? n) && (n <=? 65535)
    then Ok (NoError,
             {| label_ := label_ instr;
                operands_ :=
                  operands_ instr
                  ++ [match kind with
                      | Token.Immediate => Operand.of_immediate stored
                      | _ => Operand.of_number stored
                      end];
                opcode_ := opcode_ instr;
                address_ := address_ instr |})
    else Ok (IntegerOverflow, instr).
Proof.
  intros Hkind Hlex Hrej n stored. subst stored.
  change ((-32768 <=? n) && (n <=? 65535)) with ((INT16_MIN <=? n) && (n <=? UINT16_MAX)).
  assert (Hne : slice <> EmptyString)
    by (intros ->; destruct Hkind as [-> | ->]; discriminate).
  assert (Hvalid : is_valid_number slice = Ok true).
  { rewrite (is_valid_number_rejected slice Hne).
    destruct (existsb (String.eqb slice) rejected_slices) eqn:E; [|reflexivity].
    apply existsb_eqb_In in E. contradiction. }
  assert (Hdec := string_to_integer_lexed kind slice Hkind Hlex Hrej).
  cbv zeta in Hdec. fold n in Hdec.
  unfold add_operand. cbn [Token.kind Token.content].
  destruct Hkind as [-> | ->]; rewrite Hvalid; cbn [bind negb];
    unfold to_integer; rewrite Hdec;
    destruct ((INT16_MIN <=? n) && (n <=? UINT16_MAX)); reflexivity.
Qed.

Lemma add_operand_integer_range_witness :
  add_operand (instruction "X" FILL [] 7) (Token.mk Token.Immediate "xFFFF")
  = Ok (NoError, instruction "X" FILL [Operand.of_immediate (-1)] 7)
  /\ add_operand (instruction "" ADD [Operand.of_register 1; Operand.of_register 2] 0)
                 (Token.mk Token.Immediate "#65535")
     = Ok (NoError,
           instruction "" ADD
             [Operand.of_register 1; Operand.of_register 2; Operand.of_immediate (-1)] 0)
  /\ add_operand (instruction "" BLKW [] 0) (Token.mk Token.Number "32767")
     = Ok (NoError, instruction "" BLKW [Operand.of_number 32767] 0)
  /\ add_operand unknown_instruction (Token.mk Token.Number "65536")
     = Ok (IntegerOverflow, unknown_instruction).
Proof.
  assert (Hrej : forall s, existsb (String.eqb s) rejected_slices = false ->
                           ~ In s rejected_slices).
  { intros s E Hin. apply existsb_eqb_In in Hin. congruence. }
  split; [|split; [|split]].
  - exact (add_operand_integer_range (instruction "X" FILL [] 7) Token.Immediate "xFFFF"
             (or_introl eq_refl) eq_refl (Hrej "xFFFF"%string eq_refl)).
  - exact (add_operand_integer_range
             (instruction "" ADD [Operand.of_register 1; Operand.of_register 2] 0)
             Token.Immediate "#65535"
             (or_introl eq_refl) eq_refl (Hrej "#65535"%string eq_refl)).
  - exact (add_operand_integer_range (instruction "" BLKW [] 0) Token.Number "32767"
             (or_intror eq_refl) eq_refl (Hrej "32767"%string eq_refl)).
  - exact (add_operand_integer_range unknown_instruction Token.Number "65536"
             (or_intror eq_refl) eq_refl (Hrej "65536"%string eq_refl)).
Defined.

Lemma add_operand_rejected instr kind slice :
  kind = Token.Immediate \/ kind = Token.Number ->
  In slice rejected_slices ->
  add_operand instr (Token.mk kind slice) = Ok (InvalidNumber, instr).
Proof.
  intros Hkind Hin.
  assert (Hv : is_valid_number slice = Ok false).
  { unfold rejected_slices in Hin. cbn [In] in Hin.
    repeat (destruct Hin as [<- | Hin]; [reflexivity|]). contradiction. }
  unfold add_operand. cbn [Token.kind Token.content].
  destruct Hkind as [-> | ->]; rewrite Hv; reflexivity.
Qed.

(** Claim C10.  Whenever [add_operand] returns an error, the instruction after
    the call is the instruction before it: same operands (and operand count),
    label, opcode and address. *)
Theorem add_operand_failure_atomic instr token error instr' :
  add_operand instr token = Ok (error, instr') ->
  error <> NoError ->
  instr' = instr
  /\ operands_ instr' = operands_ instr /\ operand_size instr' = operand_size instr
  /\ label_ instr' = label_ instr /\ opcode_ instr' = opcode_ instr
  /\ address_ instr' = address_ instr.
Proof.
  intros H Herr.
  assert (E : instr' = instr); [|subst; repeat split].
  unfold add_operand in H.
  destruct (Token.kind token);
    try (injection H as <- <-; first [reflexivity | congruence]).
  - (* Register *)
    destruct (String.get 1 (Token.content token)); [|discriminate].
    injection H as <- <-. congruence.
  - (* Immediate *)
    destruct (is_valid_number (Token.content token)) as [[]|]; cbn [bind negb] in H;
      [|injection H as <- <-; reflexivity|discriminate].
    destruct (to_integer (Token.content token)) as [value []];
      injection H as <- <-; [congruence | reflexivity].
  - (* Number *)
    destruct (is_valid_number (Token.content token)) as [[]|]; cbn [bind negb] in H;
      [|injection H as <- <-; reflexivity|discriminate].
    destruct (to_integer (Token.content token)) as [value []];
      injection H as <- <-; [congruence | reflexivity].
  - (* String *)
    match type of H with (if ?b then _ else _) = _ => destruct b end;
      [|injection H as <- <-; reflexivity].
    destruct (Operand.from_string_literal (Token.content token)); [|discriminate].
    cbn [bind] in H. injection H as <- <-. congruence.
Qed.

Lemma add_operand_failure_atomic_witness :
  let instr := push_operand unknown_instruction (Operand.of_register 3) in
  let instr' := instr in
  add_operand instr (Token.mk Token.Immediate "#65536") = Ok (IntegerOverflow, instr')
  /\ instr' = instr
  /\ operands_ instr' = operands_ instr /\ operand_size instr' = operand_size instr
  /\ label_ instr' = label_ instr /\ opcode_ instr' = opcode_ instr
  /\ address_ instr' = address_ instr.
Proof.
  intros instr instr'.
  assert (H : add_operand instr (Token.mk Token.Immediate "#65536")
              = Ok (IntegerOverflow, instr')) by (vm_compute; reflexivity).
  split; [exact H|].
  apply (add_operand_failure_atomic instr (Token.mk Token.Immediate "#65536")
           IntegerOverflow instr' H).
  discriminate.
Defined.

(** The calls of [add_operand] that return: every token except a [Register]
    token shorter than two characters and an empty integer token. *)
Lemma add_operand_returns instr token :
  (Token.kind token = Token.Register -> (2 <= String.length (Token.content token))%nat) ->
  (Token.kind token = Token.Immediate \/ Token.kind token = Token.Number ->
   Token.content token <> EmptyString) ->
  exists error instr', add_operand instr token = Ok (error, instr').
Proof.
  intros Hreg Hint. unfold add_operand.
  destruct (Token.kind token) eqn:Hk; try (eauto; fail).
  - specialize (Hreg eq_refl).
    destruct (Token.content token) as [|c0 [|c1 rest]]; cbn in Hreg; try lia.
    cbn. eauto.
  - destruct (Token.content token) as [|c rest] eqn:Hc; [exfalso; apply Hint; auto|].
    rewrite (is_valid_number_rejected (String c rest)) by discriminate.
    cbn [bind]. destruct (negb (negb _)); [eauto|].
    destruct (to_integer (String c rest)) as [value []]; eauto.
  - destruct (Token.content token) as [|c rest] eqn:Hc; [exfalso; apply Hint; auto|].
    rewrite (is_valid_number_rejected (String c rest)) by discriminate.
    cbn [bind]. destruct (negb (negb _)); [eauto|].
    destruct (to_integer (String c rest)) as [value []]; eauto.
  - match goal with |- context [if ?b then _ else _] => destruct b eqn:Hb end; [|eauto].
    apply andb_true_iff in Hb as [Hsize _]. apply Nat.ltb_lt in Hsize.
    unfold Operand.from_string_literal.
    replace (2 <=? String.length (Token.content token))%nat with true
      by (symmetry; apply Nat.leb_le; lia).
    cbn [bind]. eauto.
Qed.

Lemma next_token_from_register fuel s t r :
  next_token_from fuel s = Some (t, r) ->
  Token.kind t = Token.Register ->
  is_valid_register (Token.content t) = true.
Proof.
  revert s. induction fuel as [|fuel IH]; intros s H Hk; [discriminate|].
  destruct s as [|c rest]; cbn [next_token_from] in H.
  { injection H as <- <-. discriminate. }
  repeat match type of H with
  | (if ?b then _ else _) = _ =>
      destruct b; [first [ now eauto | injection H as <- <-; try discriminate Hk ]|]
  end.
  - cbn [Token.kind Token.content] in *. unfold identifier_kind in Hk.
    destruct (is_valid_opcode _); [discriminate|].
    destruct (is_valid_register _) eqn:E; [reflexivity|].
    destruct (may_be_valid_immediate_number _); discriminate.
  - cbn [Token.kind] in Hk. destruct (is_valid_pseudo _); discriminate.
  - injection H as <- <-. discriminate.
Qed.

(** A [Register] token of the lexer becomes a register operand [R0..R7]. *)
Lemma next_token_register_operand s t r instr :
  next_token s = Some (t, r) ->
  Token.kind t = Token.Register ->
  exists n, add_operand instr t = Ok (NoError, push_operand instr (Operand.of_register n))
            /\ register_in_range (Operand.of_register n) = true.
Proof.
  intros H Hk. assert (Hreg := next_token_from_register _ _ _ _ H Hk).
  unfold add_operand. rewrite Hk.
  unfold is_valid_register in Hreg.
  destruct (Token.content t) as [|c0 [|c1 [|c2 rest]]]; try discriminate.
  cbn [String.get Nat.eqb]. eexists. split; [reflexivity|].
  apply andb_true_iff in Hreg as [Hreg Hhi]. apply andb_true_iff in Hreg as [_ Hlo].
  unfold Operand.from_register, register_in_range, to_u8.
  revert Hlo Hhi. destruct c1 as [[] [] [] [] [] [] [] []]; vm_compute;
    intros; try reflexivity; discriminate.
Qed.

(** An [Immediate] or [Number] token of the lexer carries a slice of the
    shape the decoder expects. *)
Lemma integer_operand_in_range instr kind slice error instr' :
  kind = Token.Immediate \/ kind = Token.Number ->
  add_operand instr (Token.mk kind slice) = Ok (error, instr') ->
  error = NoError ->
  exists v, instr' = push_operand instr
                       (Operand.from_integer (TokenKind_eqb kind Token.Immediate) v)
            /\ INT16_MIN <= v <= INT16_MAX.
Proof.
  intros Hkind H ->. unfold add_operand in H. cbn [Token.kind Token.content] in H.
  assert (Hv : forall value ok, to_integer slice = (value, ok) -> ok = true ->
                                INT16_MIN <= value <= INT16_MAX).
  { unfold to_integer, string_to_integer. intros value ok Hto ->.
    destruct (match slice with
              | EmptyString => (0%nat, 10) | String c _ => _ end) as [pos base].
    destruct (stoll _ _) as [converted| |]; try discriminate.
    destruct ((UINT16_MAX <? converted) || (converted <? INT16_MIN)); [discriminate|].
    injection Hto as <-. unfold to_i16, INT16_MIN, INT16_MAX.
    Z.div_mod_to_equations; lia. }
  destruct Hkind as [-> | ->];
    (destruct (is_valid_number slice) as [[]|]; cbn [bind negb] in H; try discriminate;
     destruct (to_integer slice) as [value ok] eqn:Hto; destruct ok; try discriminate;
     injection H as <-; exists value; split; [reflexivity | now apply (Hv value true)]).
Qed.

(** *** The validator *)

Ltac range_checked H :=
  match type of H with
  | context [(?v <? ?lo) || (?hi <? ?v)] =>
      let E := fresh "E" in
      destruct ((v <? lo) || (hi <? v)) eqn:E; [discriminate|];
      apply orb_false_iff in E; destruct E as [?E ?E];
      rewrite Z.ltb_ge in *
  end.

Lemma validated_BLKW instr :
  validated instr -> opcode_ instr = BLKW ->
  exists k, operands_ instr = [Operand.of_number k] /\ INT16_MIN <= k <= INT16_MAX.
Proof.
  destruct instr as [lbl ops op addr]. cbn [opcode_ operands_]. intros H ->.
  unfold validated, validate_and_emit_diagnostics in H. cbn in H.
  destruct ops as [|o1 [|o2 ops]]; try discriminate.
  destruct o1; cbn in H; try discriminate.
  range_checked H. eexists; split; [reflexivity | lia].
Qed.

Lemma validated_STRINGZ instr :
  validated instr -> opcode_ instr = STRINGZ ->
  exists s, operands_ instr = [Operand.of_string_literal s].
Proof.
  destruct instr as [lbl ops op addr]. cbn [opcode_ operands_]. intros H ->.
  unfold validated, validate_and_emit_diagnostics in H. cbn in H.
  destruct ops as [|o1 [|o2 ops]]; try discriminate.
  destruct o1; cbn in H; try discriminate. eauto.
Qed.

Lemma validated_ORIG instr :
  validated instr -> opcode_ instr = ORIG ->
  exists v, operands_ instr = [Operand.of_immediate v] /\ INT16_MIN <= v <= INT16_MAX.
Proof.
  destruct instr as [lbl ops op addr]. cbn [opcode_ operands_]. intros H ->.
  unfold validated, validate_and_emit_diagnostics in H. cbn in H.
  destruct (has_label _); [discriminate|].
  destruct ops as [|o1 [|o2 ops]]; try discriminate.
  destruct o1; cbn in H; try discriminate.
  range_checked H. eexists; split; [reflexivity | lia].
Qed.

(** *** Pass 1 *)

Lemma next_address_validated address instr :
  validated instr ->
  next_address address instr = Ok (to_u16 (address + address_increment instr)).
Proof.
  intros Hv. unfold next_address, address_increment.
  destruct (opcode_ instr) eqn:Hop; try reflexivity.
  - destruct (validated_BLKW instr Hv Hop) as (k & Hops & _).
    unfold get_operand. rewrite Hops. reflexivity.
  - destruct (validated_STRINGZ instr Hv Hop) as (s & Hops).
    unfold get_operand. rewrite Hops. reflexivity.
Qed.

Lemma next_address_set_address address instr x :
  next_address address (set_address instr x) = next_address address instr.
Proof. destruct instr. reflexivity. Qed.

Lemma address_increment_set_address instr x :
  address_increment (set_address instr x) = address_increment instr.
Proof. destruct instr. reflexivity. Qed.

Lemma assign_addresses_from_spec instructions :
  Forall validated instructions ->
  forall address,
  exists assigned,
    assign_addresses_from address instructions = Ok assigned
    /\ length assigned = length instructions
    /\ (forall i instr, instructions !! i = Some instr ->
          exists x, assigned !! i = Some (set_address instr x))
    /\ (forall first, assigned !! 0%nat = Some first -> address_ first = address)
    /\ (forall i prev next,
          assigned !! i = Some prev -> assigned !! S i = Some next ->
          address_ next = to_u16 (address_ prev + address_increment prev)).
Proof.
  induction 1 as [|instr rest Hv Hrest IH]; intros address.
  - exists []. repeat split; intros; discriminate.
  - cbn [assign_addresses_from].
    rewrite next_address_set_address, (next_address_validated _ _ Hv). cbn [bind].
    destruct (IH (to_u16 (address + address_increment instr)))
      as (assigned & -> & Hlen & Hpoint & Hfirst & Hchain).
    cbn [bind]. eexists. split; [reflexivity|].
    split; [cbn [length]; now rewrite Hlen|].
    split; [|split].
    + intros [|i] instr0 Hi; cbn in Hi |- *.
      * injection Hi as <-. eauto.
      * apply Hpoint; assumption.
    + intros first Hf. cbn in Hf. injection Hf as <-. reflexivity.
    + intros [|i] prev next Hp Hn; cbn in Hp, Hn.
      * injection Hp as <-. rewrite (Hfirst next Hn).
        now rewrite address_increment_set_address.
      * eapply Hchain; eassumption.
Qed.

Lemma to_u16_add_l a b : to_u16 (to_u16 a + b) = to_u16 (a + b).
Proof. unfold to_u16. apply Zplus_mod_idemp_l. Qed.

(** Claim C2.  Pass 1 on a validated sequence headed by [.ORIG v] returns, keeps
    every instruction but for its address, gives the [.ORIG] the address
    [v mod 65536] ([v] itself when [0 <= v < 65536]), and gives every later
    instruction the address of its predecessor plus the predecessor's
    increment, modulo 65536: [k] after [.BLKW k], the length of the literal
    plus one after [.STRINGZ], 1 after anything else, [.ORIG] included.  The
    instruction that follows the [.ORIG] is therefore at [(v + 1) mod 65536]:
    after [.ORIG xFFFE] the addresses run 65534, 65535, 0, 1. *)
Theorem assign_addresses_spec a orig rest v :
  instructions_ a = orig :: rest ->
  opcode_ orig = ORIG ->
  operands_ orig = [Operand.of_immediate v] ->
  Forall validated (instructions_ a) ->
  exists assigned,
    assign_addresses a
    = Ok {| instructions_ := assigned; symbol_table_ := symbol_table_ a |}
    /\ length assigned = length (instructions_ a)
    /\ (forall i instr, instructions_ a !! i = Some instr ->
          exists x, assigned !! i = Some (set_address instr x))
    /\ (forall first, assigned !! 0%nat = Some first ->
          address_ first = v mod 65536 /\ (0 <= v < 65536 -> address_ first = v))
    /\ (forall i prev next,
          assigned !! i = Some prev -> assigned !! S i = Some next ->
          address_ next = (address_ prev + address_increment prev) mod 65536)
    /\ (forall second, assigned !! 1%nat = Some second ->
          address_ second = (v + 1) mod 65536).
Proof.
  intros Hinstrs Hop Hops Hall.
  destruct (assign_addresses_from_spec _ Hall (to_u16 v))
    as (assigned & Hrun & Hlen & Hpoint & Hfirst & Hchain).
  exists assigned. unfold assign_addresses. rewrite Hinstrs in *.
  unfold get_operand. rewrite Hops. cbn [lookup list_lookup bind Operand.immediate_value].
  rewrite Hrun. cbn [bind].
  split; [reflexivity|]. split; [assumption|]. split; [assumption|].
  split.
  { intros first Hf. rewrite (Hfirst first Hf). split; [reflexivity|].
    intros Hv. unfold to_u16. now apply Z.mod_small. }
  split; [exact Hchain|].
  intros second Hsecond.
  destruct (Hpoint 0%nat orig eq_refl) as (x & Hzero).
  rewrite (Hchain 0%nat _ second Hzero Hsecond).
  rewrite (Hfirst _ Hzero), address_increment_set_address.
  unfold address_increment. rewrite Hop. apply to_u16_add_l.
Qed.

Lemma assign_addresses_spec_witness :
  (exists assigned,
     assign_addresses (new_Assembler data_block)
     = Ok {| instructions_ := assigned; symbol_table_ := ∅ |}
     /\ map address_ assigned = [12288; 12289; 12290; 12293; 12296; 12297])
  /\ (exists assigned,
        assign_addresses (new_Assembler branch_across_wrap)
        = Ok {| instructions_ := assigned; symbol_table_ := ∅ |}
        /\ map address_ assigned = [65534; 65535; 0; 1]
        /\ forall second, assigned !! 1%nat = Some second ->
                          address_ second = (-2 + 1) mod 65536).
Proof.
  split.
  - destruct (assign_addresses_spec (new_Assembler data_block) _ _ 12288
                eq_refl eq_refl eq_refl ltac:(repeat constructor))
      as (assigned & Hrun & _).
    exists assigned. split; [exact Hrun|].
    vm_compute in Hrun. injection Hrun as <-. reflexivity.
  - destruct (assign_addresses_spec (new_Assembler branch_across_wrap) _ _ (-2)
                eq_refl eq_refl eq_refl ltac:(repeat constructor))
      as (assigned & Hrun & _ & _ & _ & _ & Hsecond).
    exists assigned. split; [exact Hrun|]. split; [|exact Hsecond].
    vm_compute in Hrun. injection Hrun as <-. reflexivity.
Defined.

(** *** Bit fields *)

Lemma lor_low_bits base field n :
  0 <= n -> base mod 2 ^ n = 0 -> 0 <= field < 2 ^ n ->
  (Z.lor base field) mod 2 ^ n = field.
Proof.
  intros Hn Hbase Hfield.
  rewrite <- !Z.land_ones in * by assumption.
  rewrite Z.land_lor_distr_l, Hbase, Z.lor_0_l.
  rewrite Z.land_ones by assumption. now apply Z.mod_small.
Qed.

Lemma lor_high_bits base field :
  0 <= field < 4096 -> Z.shiftr (Z.lor base field) 12 = Z.shiftr base 12.
Proof.
  intros Hfield. rewrite Z.shiftr_lor.
  rewrite (Z.shiftr_div_pow2 field) by lia.
  rewrite (Z.div_small field) by (change (2 ^ 12) with 4096; lia).
  apply Z.lor_0_r.
Qed.

Lemma fits_signed_9 offset :
  (offset <? - Z.shiftl 1 (9 - 1)) || (Z.shiftl 1 (9 - 1) - 1 <? offset)
  = negb (fits_signed 9 offset).
Proof.
  unfold fits_signed. change (Z.shiftl 1 (9 - 1)) with 256. change (2 ^ (9 - 1)) with 256.
  rewrite negb_andb, <- !Z.ltb_antisym. reflexivity.
Qed.

Lemma fits_signed_11 offset :
  (offset <? - Z.shiftl 1 (11 - 1)) || (Z.shiftl 1 (11 - 1) - 1 <? offset)
  = negb (fits_signed 11 offset).
Proof.
  unfold fits_signed. change (Z.shiftl 1 (11 - 1)) with 1024.
  change (2 ^ (11 - 1)) with 1024.
  rewrite negb_andb, <- !Z.ltb_antisym. reflexivity.
Qed.

Lemma low_bits_field offset bits :
  bits = 9 \/ bits = 11 ->
  to_u16 (Z.land offset (Z.shiftl 1 bits - 1)) = offset mod 2 ^ bits
  /\ 0 <= offset mod 2 ^ bits < 2 ^ bits.
Proof.
  intros [-> | ->].
  - change (Z.shiftl 1 9 - 1) with (Z.ones 9). rewrite Z.land_ones by lia.
    assert (H : 0 <= offset mod 2 ^ 9 < 2 ^ 9) by (apply Z.mod_pos_bound; lia).
    split; [|exact H]. unfold to_u16. apply Z.mod_small.
    change (2 ^ 9) with 512 in *. lia.
  - change (Z.shiftl 1 11 - 1) with (Z.ones 11). rewrite Z.land_ones by lia.
    assert (H : 0 <= offset mod 2 ^ 11 < 2 ^ 11) by (apply Z.mod_pos_bound; lia).
    split; [|exact H]. unfold to_u16. apply Z.mod_small.
    change (2 ^ 11) with 2048 in *. lia.
Qed.

(** *** Label operands *)

Lemma translate_label_resolved a instr idx bits l L :
  bits = 9 \/ bits = 11 ->
  operands_ instr !! idx = Some (Operand.of_label l) ->
  symbol_table_ a !! l = Some L ->
  let offset := to_i16 (L - address_ instr - 1) in
  translate_label a instr idx bits
  = if fits_signed bits offset then ([], Ok (offset mod 2 ^ bits))
    else ([label_offset_out_of_range offset l instr], Ok translation_failed).
Proof.
  intros Hbits Hop Hsym offset.
  unfold translate_label, get_operand. rewrite Hop.
  cbn [silent ebind Operand.label app]. rewrite Hsym.
  unfold get_address. fold offset.
  destruct (low_bits_field offset bits Hbits) as [Hfield _].
  destruct Hbits as [-> | ->].
  - rewrite fits_signed_9. destruct (fits_signed 9 offset); cbn [negb];
      [unfold silent; now rewrite Hfield | reflexivity].
  - rewrite fits_signed_11. destruct (fits_signed 11 offset); cbn [negb];
      [unfold silent; now rewrite Hfield | reflexivity].
Qed.

Lemma or_label_resolved a instr idx bits l L base :
  bits = 9 \/ bits = 11 ->
  operands_ instr !! idx = Some (Operand.of_label l) ->
  symbol_table_ a !! l = Some L ->
  let offset := to_i16 (L - address_ instr - 1) in
  or_label a instr idx bits base
  = if fits_signed bits offset then ([], Ok (Z.lor base (offset mod 2 ^ bits)))
    else ([label_offset_out_of_range offset l instr],
          Ok (Z.lor base translation_failed)).
Proof.
  intros Hbits Hop Hsym offset. unfold or_label.
  rewrite (translate_label_resolved a instr idx bits l L Hbits Hop Hsym).
  fold offset. destruct (fits_signed bits offset); reflexivity.
Qed.

Lemma validated_branch instr :
  validated instr -> is_branch (opcode_ instr) = true ->
  (exists l, operands_ instr = [Operand.of_label l])
  \/ (exists v, operands_ instr = [Operand.of_immediate v]).
Proof.
  destruct instr as [lbl ops op addr]. cbn [opcode_ operands_]. intros H Hop.
  unfold validated, validate_and_emit_diagnostics in H.
  destruct op; try discriminate Hop; cbn in H;
    (destruct ops as [|o1 [|o2 ops]]; try discriminate;
     destruct o1; cbn in H; try discriminate; eauto).
Qed.

Lemma validated_load_store instr :
  validated instr -> is_load_store (opcode_ instr) = true ->
  exists r l, operands_ instr = [Operand.of_register r; Operand.of_label l].
Proof.
  destruct instr as [lbl ops op addr]. cbn [opcode_ operands_]. intros H Hop.
  unfold validated, validate_and_emit_diagnostics in H.
  destruct op; try discriminate Hop; cbn in H;
    (destruct ops as [|o1 [|o2 [|o3 ops]]]; try discriminate;
     destruct o1; cbn in H; try discriminate;
     destruct o2; cbn in H; try discriminate; eauto).
Qed.

Ltac small_register r H :=
  let E := fresh "E" in
  assert (E : r = 0 \/ r = 1 \/ r = 2 \/ r = 3 \/ r = 4 \/ r = 5 \/ r = 6 \/ r = 7)
    by (cbn in H; lia);
  destruct E as [-> | [-> | [-> | [-> | [-> | [-> | [-> | ->]]]]]]].

Ltac field_bounds :=
  match goal with
  | |- 0 <= _ mod 2 ^ 9 < _ =>
      let H := fresh in
      pose proof (Z.mod_pos_bound (to_i16 0) (2 ^ 9)) as H; clear H;
      match goal with |- 0 <= ?x mod _ < _ =>
        pose proof (Z.mod_pos_bound x (2 ^ 9) eq_refl) end;
      change (2 ^ 9) with 512 in *; lia
  | |- 0 <= _ mod 2 ^ 11 < _ =>
      match goal with |- 0 <= ?x mod _ < _ =>
        pose proof (Z.mod_pos_bound x (2 ^ 11) eq_refl) end;
      change (2 ^ 11) with 2048 in *; lia
  end.

Ltac encoded_with_label :=
  match goal with
  | |- if ?b then _ else _ =>
      destruct b;
      [ eexists; split; [reflexivity|]; split;
        [ apply lor_low_bits; [lia | vm_compute; reflexivity | field_bounds]
        | rewrite lor_high_bits; [vm_compute; reflexivity | field_bounds] ]
      | reflexivity ]
  end.

Lemma translate_labelled_instruction a instr idx bits l L :
  validated instr ->
  forallb register_in_range (operands_ instr) = true ->
  label_field (opcode_ instr) = Some (idx, bits) ->
  operands_ instr !! idx = Some (Operand.of_label l) ->
  symbol_table_ a !! l = Some L ->
  let offset := to_i16 (L - address_ instr - 1) in
  if fits_signed bits offset
  then exists word,
         translate_regular_instruction a instr = ([], Ok word)
         /\ word mod 2 ^ bits = offset mod 2 ^ bits
         /\ Z.shiftr word 12 = translate_opcode (opcode_ instr)
  else translate_regular_instruction a instr
       = ([label_offset_out_of_range offset l instr], Ok translation_failed).
Proof.
  intros Hv Hregs Hfield Hop Hsym offset.
  assert (Hbits : bits = 9 \/ bits = 11).
  { unfold label_field in Hfield. destruct (opcode_ instr); try discriminate;
      injection Hfield as <- <-; auto. }
  assert (Hor := fun base => or_label_resolved a instr idx bits l L base Hbits Hop Hsym).
  cbv zeta in Hor. fold offset in Hor.
  unfold translate_regular_instruction, get_opcode.
  destruct (opcode_ instr) eqn:Hopc; try discriminate Hfield;
    injection Hfield as <- <-; cbv beta iota zeta.
  all: try (rewrite Hor; encoded_with_label; fail).
  { (* BRz *)
    unfold get_operand. rewrite Hop. cbn [silent ebind Operand.type Operand.OperandType_eqb].
    rewrite Hor. destruct (fits_signed 9 offset).
    + eexists; split; [reflexivity|]; split;
        [ apply lor_low_bits; [lia | vm_compute; reflexivity | field_bounds]
        | rewrite lor_high_bits; [vm_compute; reflexivity | field_bounds] ].
    + reflexivity. }
  all: destruct (validated_load_store instr Hv) as (r & l' & Hops);
         [rewrite Hopc; reflexivity|];
       rewrite Hops in Hregs; small_register r Hregs;
       unfold or_register, get_operand; rewrite Hops;
       cbn [lookup list_lookup bind translate_register Operand.register_id
            silent ebind app];
       rewrite Hor; encoded_with_label.
Qed.

Lemma translate_from_app cs a pre l :
  forall res d0 res0,
    translate_from cs a pre res = (d0, Ok (Some res0)) ->
    translate_from cs a (pre ++ l) res
    = let '(d, r) := translate_from cs a l res0 in (d0 ++ d, r).
Proof.
  induction pre as [|instr pre IH]; intros res d0 res0 H.
  - cbn in H. injection H as <- <-. cbn [app].
    destruct (translate_from cs a l res). reflexivity.
  - cbn [translate_from app] in *. destruct (is_pseudo (get_opcode instr)).
    + destruct (translate_pseudo cs instr res) as [res'|f];
        cbn [silent ebind] in *; [|discriminate].
      destruct (translate_from cs a pre res') as [d' r'] eqn:E.
      cbn [app] in H. injection H as <- ->.
      rewrite (IH _ _ _ E). destruct (translate_from cs a l res0). reflexivity.
    + destruct (translate_regular_instruction a instr) as [d1 [w|f]];
        cbn [ebind] in *; [|discriminate].
      destruct (w =? translation_failed); [discriminate|].
      destruct (translate_from cs a pre (res ++ [w])) as [d' r'] eqn:E.
      injection H as <- ->.
      rewrite (IH _ _ _ E). destruct (translate_from cs a l res0).
      now rewrite app_assoc.
Qed.

Lemma label_field_regular opcode field :
  label_field opcode = Some field -> is_pseudo opcode = false.
Proof. destruct opcode; intros H; try discriminate H; reflexivity. Qed.

Lemma label_field_opcode opcode field :
  label_field opcode = Some field -> translate_opcode opcode <> 15.
Proof. destruct opcode; intros H; try discriminate H; cbn; lia. Qed.

(** Claim C3, amended.  Let a validated instruction, reached by the encoding
    loop, have a label operand that the symbol table resolves to [L].  The
    encoder narrows the difference [L - address - 1] to a signed 16-bit value,
    [offset = (L - address - 1 + 32768) mod 65536 - 32768] (the difference
    itself whenever that lies in [-32768, 32767]).  If [offset] does not fit the
    signed field of the opcode (9 bits for the branches and for
    LD/LDI/LEA/ST/STI, 11 bits for JSR), the out-of-range diagnostic is written
    and [Assembler::translate] returns the empty vector.  Otherwise the word of
    the instruction carries the low bits of [offset] in that field, below the
    four opcode bits, and is appended to the stream. *)
Theorem translate_label_offset cs a pre instr post d0 res0 idx bits l L :
  instructions_ a = pre ++ instr :: post ->
  translate_from cs a pre [] = (d0, Ok (Some res0)) ->
  validated instr ->
  forallb register_in_range (operands_ instr) = true ->
  label_field (opcode_ instr) = Some (idx, bits) ->
  operands_ instr !! idx = Some (Operand.of_label l) ->
  symbol_table_ a !! l = Some L ->
  let offset := (L - address_ instr - 1 + 32768) mod 65536 - 32768 in
  (-32768 <= L - address_ instr - 1 <= 32767 -> offset = L - address_ instr - 1)
  /\
  if fits_signed bits offset
  then exists word,
         translate_regular_instruction a instr = ([], Ok word)
         /\ word mod 2 ^ bits = offset mod 2 ^ bits
         /\ Z.shiftr word 12 = translate_opcode (opcode_ instr)
         /\ translate_from cs a (instructions_ a) []
            = let '(d, r) := translate_from cs a post (res0 ++ [word]) in (d0 ++ d, r)
  else translate_regular_instruction a instr
       = ([label_offset_out_of_range offset l instr], Ok translation_failed)
       /\ translate cs a = (d0 ++ [label_offset_out_of_range offset l instr], Ok []).
Proof.
  intros Hinstrs Hpre Hv Hregs Hfield Hop Hsym offset.
  change ((L - address_ instr - 1 + 32768) mod 65536 - 32768)
    with (to_i16 (L - address_ instr - 1)) in offset.
  split; [intros Hsmall; subst offset; now apply to_i16_small|].
  assert (Hone := translate_labelled_instruction a instr idx bits l L
                    Hv Hregs Hfield Hop Hsym).
  cbv zeta in Hone. fold offset in Hone.
  assert (Hreg := label_field_regular _ _ Hfield).
  assert (Hopc := label_field_opcode _ _ Hfield).
  destruct (fits_signed bits offset).
  - destruct Hone as (word & Hword & Hlow & Hhigh).
    exists word. repeat (split; [assumption|]).
    rewrite Hinstrs, (translate_from_app cs a pre (instr :: post) [] d0 res0 Hpre).
    cbn [translate_from]. unfold get_opcode. rewrite Hreg, Hword. cbn [ebind].
    replace (word =? translation_failed) with false.
    + destruct (translate_from cs a post (res0 ++ [word])). reflexivity.
    + symmetry. apply Z.eqb_neq. intros ->. apply Hopc. rewrite <- Hhigh. reflexivity.
  - split; [exact Hone|].
    unfold translate.
    rewrite Hinstrs, (translate_from_app cs a pre (instr :: post) [] d0 res0 Hpre).
    cbn [translate_from]. unfold get_opcode. rewrite Hreg, Hone.
    cbn [ebind]. change (translation_failed =? translation_failed) with true.
    cbn [silent ebind]. now rewrite !app_nil_r.
Qed.

Lemma translate_label_offset_witness :
  (-32768 <= 12289 - 12290 - 1 <= 32767 ->
   (12289 - 12290 - 1 + 32768) mod 65536 - 32768 = 12289 - 12290 - 1)
  /\
  exists word,
    translate_regular_instruction countdown_scanned
      (instruction "" BRp [Operand.of_label "LOOP"] 12290) = ([], Ok word)
    /\ word mod 2 ^ 9 = ((12289 - 12290 - 1 + 32768) mod 65536 - 32768) mod 2 ^ 9
    /\ Z.shiftr word 12 = 0
    /\ translate_from true countdown_scanned (instructions_ countdown_scanned) []
       = let '(d, r) := translate_from true countdown_scanned
                          [instruction "" END [] 12291] ([4735] ++ [word]) in
         ([] ++ d, r).
Proof.
  exact (translate_label_offset true countdown_scanned
           [ instruction "" ORIG [Operand.of_immediate 12288] 12288;
             instruction "LOOP" ADD
               [Operand.of_register 1; Operand.of_register 1; Operand.of_immediate (-1)]
               12289 ]
           (instruction "" BRp [Operand.of_label "LOOP"] 12290)
           [instruction "" END [] 12291]
           [] [4735] 0%nat 9 "LOOP" 12289
           eq_refl eq_refl eq_refl eq_refl eq_refl eq_refl eq_refl).
Defined.

(** The claim as worded, with the offset [L - address - 1] itself tested
    against the field, does not describe the encoder.  After [.ORIG xFFFE] the
    label [FOO] is at 65535 and the branch [BR FOO] at 0: the difference
    65534 does not fit nine bits, yet the encoder narrows it to -2, writes no
    message and emits the word [0000 111 111111110]. *)
Lemma translate_label_offset_wraps :
  fits_signed 9 (65535 - 0 - 1) = false
  /\ translate_regular_instruction
       {| instructions_ :=
            [ instruction "" ORIG [Operand.of_immediate (-2)] 65534;
              instruction "FOO" ADD
                [Operand.of_register 0; Operand.of_register 0; Operand.of_register 0]
                65535;
              instruction "" BR [Operand.of_label "FOO"] 0;
              instruction "" END [] 1 ];
          symbol_table_ := {[ "FOO"%string := 65535 ]} |}
       (instruction "" BR [Operand.of_label "FOO"] 0)
     = ([], Ok 4094)
  /\ 4094 mod 2 ^ 9 = (-2) mod 2 ^ 9
  /\ assemble_and_list true branch_across_wrap
     = ([], Ok (0, [(65534, 4096); (65535, 4094)])).
Proof. repeat split; vm_compute; reflexivity. Qed.

(** *** Directives *)

Lemma vector_max_size_value : vector_max_size = 4611686018427387903.
Proof. reflexivity. Qed.

(** Claim C6, amended.  For a validated [.BLKW k] with [k >= 0], encoding
    appends exactly [k] zero words at the end of the word stream and leaves the
    words emitted before unchanged (the stream staying within the capacity of
    a vector). *)
Theorem translate_BLKW_nonnegative cs instr results k :
  validated instr ->
  opcode_ instr = BLKW ->
  operands_ instr = [Operand.of_number k] ->
  0 <= k ->
  Z.of_nat (length results) + k <= vector_max_size ->
  translate_pseudo cs instr results = Ok (results ++ replicate (Z.to_nat k) 0)
  /\ take (length results) (results ++ replicate (Z.to_nat k) 0) = results
  /\ Z.of_nat (length (results ++ replicate (Z.to_nat k) 0))
     = Z.of_nat (length results) + k.
Proof.
  intros _ Hop Hops Hk Hmax.
  split; [|split].
  - unfold translate_pseudo, get_opcode, get_operand. rewrite Hop, Hops.
    cbn [lookup list_lookup bind Operand.regular_decimal].
    unfold resize, to_size_t.
    rewrite vector_max_size_value in *.
    rewrite Z.mod_small by lia.
    destruct (Z.of_nat (length results) + k <=? Z.of_nat (length results)) eqn:E.
    + apply Z.leb_le in E. assert (k = 0) by lia. subst k.
      rewrite Z.add_0_r, Nat2Z.id, firstn_all. cbn [Z.to_nat replicate].
      now rewrite app_nil_r.
    + replace (Z.of_nat (length results) + k <=? 4611686018427387903) with true
        by (symmetry; apply Z.leb_le; lia).
      do 3 f_equal. lia.
  - now rewrite take_app_length.
  - rewrite length_app, length_replicate. lia.
Qed.

Lemma translate_BLKW_nonnegative_witness :
  translate_pseudo true (instruction "" BLKW [Operand.of_number 3] 0) [7]
  = Ok ([7] ++ replicate (Z.to_nat 3) 0)
  /\ take (length [7]) ([7] ++ replicate (Z.to_nat 3) 0) = [7]
  /\ Z.of_nat (length ([7] ++ replicate (Z.to_nat 3) 0)) = Z.of_nat (length [7]) + 3.
Proof.
  apply (translate_BLKW_nonnegative true (instruction "" BLKW [Operand.of_number 3] 0)
           [7] 3); try reflexivity.
  - discriminate.
  - vm_compute. discriminate.
Defined.

(** Claim C6 as stated fails: the validated [.BLKW -1] removes the word emitted
    before it, and throws when there is none. *)
Lemma translate_BLKW_negative_truncates :
  validated (instruction "" BLKW [Operand.of_number (-1)] 0)
  /\ translate_pseudo true (instruction "" BLKW [Operand.of_number (-1)] 0) [7] = Ok []
  /\ translate_pseudo true (instruction "" BLKW [Operand.of_number (-1)] 0) []
     = Fault LengthError
  /\ ~ (exists zeros,
          translate_pseudo true (instruction "" BLKW [Operand.of_number (-1)] 0) [7]
          = Ok ([7] ++ zeros)).
Proof.
  split; [reflexivity|]. split; [vm_compute; reflexivity|].
  split; [vm_compute; reflexivity|].
  intros (zeros & H).
  assert (E : translate_pseudo true (instruction "" BLKW [Operand.of_number (-1)] 0) [7]
              = Ok []) by (vm_compute; reflexivity).
  rewrite E in H. discriminate H.
Qed.

Lemma char_code_bounds c : 0 <= char_code c < 256.
Proof. destruct c as [[] [] [] [] [] [] [] []]; vm_compute; split; congruence. Qed.

Lemma string_words_char_word cs s : string_words cs s = map (char_word cs) (chars s).
Proof.
  induction s as [|c s IH]; [reflexivity|].
  cbn [string_words chars map]. rewrite IH. f_equal.
  unfold char_word, char_value, to_u16.
  assert (H := char_code_bounds c).
  destruct (cs && (128 <=? char_code c)) eqn:E.
  - apply andb_true_iff in E as [_ E]. apply Z.leb_le in E.
    Z.div_mod_to_equations; lia.
  - apply Z.mod_small. lia.
Qed.

Lemma char_word_zero_extended cs s :
  cs = false \/ Forall (fun c => char_code c < 128) (chars s) ->
  map (char_word cs) (chars s) = map char_code (chars s).
Proof.
  intros H. induction s as [|c s IH]; [reflexivity|].
  cbn [chars map]. rewrite IH.
  - f_equal. unfold char_word. destruct H as [-> | H]; [reflexivity|].
    inversion H; subst.
    replace (128 <=? char_code c) with false by (symmetry; apply Z.leb_gt; lia).
    now rewrite andb_false_r.
  - destruct H as [H | H]; [auto|]. right. now inversion H.
Qed.

(** Claim C7, amended.  For a validated [.STRINGZ s], encoding emits one word
    per byte of [s] followed by exactly one zero word; the word of a byte is
    the conversion of the [char] to 16 bits: the byte itself when it is below
    0x80 or when [char] is unsigned, and 0xFF00 plus the byte when it is 0x80
    or more and [char] is signed. *)
Theorem translate_STRINGZ_words cs instr results :
  validated instr ->
  opcode_ instr = STRINGZ ->
  exists s,
    operands_ instr = [Operand.of_string_literal s]
    /\ translate_pseudo cs instr results
       = Ok (results ++ map (char_word cs) (chars s) ++ [0])
    /\ (cs = false \/ Forall (fun c => char_code c < 128) (chars s) ->
        translate_pseudo cs instr results
        = Ok (results ++ map char_code (chars s) ++ [0])).
Proof.
  intros Hv Hop. destruct (validated_STRINGZ instr Hv Hop) as (s & Hops).
  exists s. split; [exact Hops|].
  assert (H : translate_pseudo cs instr results
              = Ok (results ++ map (char_word cs) (chars s) ++ [0])).
  { unfold translate_pseudo, get_opcode, get_operand. rewrite Hop, Hops.
    cbn [lookup list_lookup bind Operand.string_literal].
    now rewrite string_words_char_word, <- app_assoc. }
  split; [exact H|].
  intros Hascii. now rewrite H, (char_word_zero_extended cs s Hascii).
Qed.

Lemma translate_STRINGZ_words_witness :
  exists s,
    operands_ (instruction "" STRINGZ [Operand.of_string_literal "Hi"] 0)
    = [Operand.of_string_literal s]
    /\ translate_pseudo true (instruction "" STRINGZ [Operand.of_string_literal "Hi"] 0) []
       = Ok ([] ++ map (char_word true) (chars s) ++ [0])
    /\ (true = false \/ Forall (fun c => char_code c < 128) (chars s) ->
        translate_pseudo true (instruction "" STRINGZ [Operand.of_string_literal "Hi"] 0) []
        = Ok ([] ++ map char_code (chars s) ++ [0])).
Proof.
  apply (translate_STRINGZ_words true
           (instruction "" STRINGZ [Operand.of_string_literal "Hi"] 0) []);
    reflexivity.
Defined.

(** Claim C7 as stated fails where [char] is signed: the byte 0xE9 is emitted
    as 0xFFE9. *)
Lemma translate_STRINGZ_sign_extends :
  validated (instruction "" STRINGZ [Operand.of_string_literal e_acute] 0)
  /\ translate_pseudo true (instruction "" STRINGZ [Operand.of_string_literal e_acute] 0) []
     = Ok [65513; 0]
  /\ map char_code (chars e_acute) ++ [0] = [233; 0]
  /\ translate_pseudo true (instruction "" STRINGZ [Operand.of_string_literal e_acute] 0) []
     <> Ok ([] ++ map char_code (chars e_acute) ++ [0]).
Proof.
  split; [reflexivity|]. split; [vm_compute; reflexivity|].
  split; [vm_compute; reflexivity|].
  vm_compute. discriminate.
Qed.

(** *** Branches on an immediate *)

Lemma translate_branch_immediate_asserts a instr v :
  is_branch (opcode_ instr) = true ->
  opcode_ instr <> BRz ->
  operands_ instr = [Operand.of_immediate v] ->
  translate_regular_instruction a instr = ([], Fault AssertionFailed).
Proof.
  intros Hb Hz Hops.
  unfold translate_regular_instruction, get_opcode.
  destruct (opcode_ instr); try discriminate Hb; try congruence;
    unfold or_label, translate_label, get_operand; rewrite Hops; reflexivity.
Qed.

(** Claim C9, at the failing input [.ORIG x3000 / BR #1 / .END]: every
    instruction passes validation and the sequence has its single leading
    [.ORIG], yet encoding the branch calls [Operand::label] on an [Immediate]
    operand and the assertion of that accessor fails. *)
Theorem run_branch_immediate_assertion :
  Forall validated branch_on_immediate
  /\ one_leading_ORIG branch_on_immediate = true
  /\ run true (new_Assembler branch_on_immediate) = ([], Fault AssertionFailed)
  /\ run false (new_Assembler branch_on_immediate) = ([], Fault AssertionFailed).
Proof.
  split; [repeat constructor|].
  split; [reflexivity|].
  split; vm_compute; reflexivity.
Qed.

(** *** Validation returns *)

Lemma mismatch_returns operands : forall expected index,
  length expected = length operands ->
  (exists i e, mismatch operands expected index = Ok (i, Some e)
               /\ (index <= i < index + length operands)%nat)
  \/ mismatch operands expected index = Ok ((index + length operands)%nat, None).
Proof.
  induction operands as [|o operands IH]; intros expected index Hlen.
  - right. cbn. now rewrite Nat.add_0_r.
  - destruct expected as [|e expected]; [discriminate|].
    cbn [mismatch length] in *.
    destruct (Operand.OperandType_eqb (Operand.type o) e).
    + destruct (IH expected (S index)) as [(i & e' & H & Hi) | H]; [lia | left | right].
      * exists i, e'. split; [exact H | lia].
      * rewrite H. f_equal. f_equal. lia.
    + left. exists index, e. split; [reflexivity | lia].
Qed.

Lemma match_operand_types_returns operands : forall expected_operands index0 type0,
  Forall (fun expected => length expected = length operands) expected_operands ->
  (index0 <= length operands)%nat ->
  exists index type,
    match_operand_types operands expected_operands index0 type0 = Ok (index, type)
    /\ (index <= length operands)%nat.
Proof.
  intros expected_operands. induction expected_operands as [|expected more IH];
    intros index0 type0 Hall Hidx.
  - cbn. eauto.
  - inversion Hall as [|? ? Hlen Hmore]; subst. cbn [match_operand_types].
    destruct (mismatch_returns operands expected 0%nat Hlen) as [(i & e & -> & Hi) | ->];
      cbn [bind].
    + apply IH; [assumption | lia].
    + eauto.
Qed.

Lemma expected_operand_types_uniform instr :
  exists front more,
    expected_operand_types instr = front :: more
    /\ Forall (fun expected => length expected = length front) (front :: more).
Proof.
  unfold expected_operand_types.
  destruct (opcode_ instr); do 2 eexists; (split; [reflexivity|]);
    repeat constructor.
Qed.

Lemma validate_returns instr :
  exists d ok, validate_and_emit_diagnostics instr = (d, Ok ok)
               /\ (ok = true -> d = []).
Proof.
  unfold validate_and_emit_diagnostics.
  destruct (negb (allows_label instr) && has_label instr);
    [do 2 eexists; split; [reflexivity | discriminate]|].
  destruct (expected_operand_types_uniform instr) as (front & more & -> & Hall).
  destruct (length (operands_ instr) =? length front)%nat eqn:Hlen; cbn [negb];
    [|do 2 eexists; split; [reflexivity | discriminate]].
  apply Nat.eqb_eq in Hlen. rewrite <- Hlen in Hall.
  destruct (match_operand_types_returns (operands_ instr) (front :: more) 0%nat
              Operand.Register Hall ltac:(lia)) as (index & type & -> & Hindex).
  cbn [silent ebind app].
  destruct (index =? length (operands_ instr))%nat eqn:Hi; cbn [negb].
  - destruct (find is_integer_operand (operands_ instr)) as [imm|] eqn:Hfind;
      [|do 2 eexists; split; reflexivity].
    apply find_some in Hfind as [_ Himm]. unfold is_integer_operand in Himm.
    destruct imm; try discriminate Himm; cbn [Operand.type Operand.OperandType_eqb
      Operand.immediate_value Operand.regular_decimal silent ebind app];
      match goal with |- context [if ?b then _ else _] => destruct b end;
      do 2 eexists; split; try reflexivity; discriminate.
  - apply Nat.eqb_neq in Hi.
    unfold get_operand.
    destruct (operands_ instr !! index) as [o|] eqn:Ho.
    + cbn [silent ebind app]. do 2 eexists; split; [reflexivity | discriminate].
    + apply lookup_ge_None in Ho. lia.
Qed.


Lemma any_invalid_returns instructions :
  exists d invalid,
    any_invalid instructions = (d, Ok invalid)
    /\ (invalid = false -> d = [] /\ Forall validated instructions).
Proof.
  induction instructions as [|instr rest IH].
  - exists [], false. split; [reflexivity | auto].
  - cbn [any_invalid].
    destruct (validate_returns instr) as (d & ok & Hv & Hd). rewrite Hv.
    cbn [ebind]. destruct ok; cbn [negb].
    + destruct IH as (d' & invalid & -> & Hrest).
      exists (d ++ d'), invalid. split; [reflexivity|].
      intros ->. destruct (Hrest eq_refl) as [-> Hall].
      rewrite (Hd eq_refl). split; [reflexivity|].
      constructor; [|assumption]. unfold validated. now rewrite Hv, (Hd eq_refl).
    + exists (d ++ []), true. split; [reflexivity | discriminate].
Qed.

Lemma any_invalid_validated instructions :
  Forall validated instructions -> any_invalid instructions = ([], Ok false).
Proof.
  induction 1 as [|instr rest Hv Hrest IH]; [reflexivity|].
  cbn [any_invalid]. rewrite Hv. cbn [ebind negb]. now rewrite IH.
Qed.

(** *** The [.ORIG] checks of [Assembler::run] *)

(** Claim C5, amended.  On a non-empty instruction sequence that does not
    consist of exactly one leading [.ORIG], [Assembler::run] returns an empty
    word stream; when moreover every instruction passes validation, the only
    diagnostic is the [.ORIG]-missing one if the first instruction is not
    [.ORIG], and the [.ORIG]-duplicate one otherwise. *)
Theorem run_without_leading_ORIG cs a :
  instructions_ a <> [] ->
  one_leading_ORIG (instructions_ a) = false ->
  (exists d, run cs a = (d, Ok (a, [])))
  /\ (Forall validated (instructions_ a) ->
      exists diagnostic,
        run cs a = ([diagnostic], Ok (a, []))
        /\ is_ORIG_diagnostic diagnostic = true
        /\ forall front others,
             instructions_ a = front :: others ->
             diagnostic = if is_ORIG front then orig_duplicate else orig_missing front).
Proof.
  intros Hne Hone.
  destruct (instructions_ a) as [|front others] eqn:Hinstrs; [congruence|].
  cbn [one_leading_ORIG] in Hone.
  split.
  - unfold run. rewrite Hinstrs.
    destruct (any_invalid_returns (front :: others)) as (d & invalid & -> & Hd).
    cbn [ebind]. destruct invalid; [eexists; reflexivity|].
    destruct (is_ORIG front); cbn [negb andb] in *; [|eexists; reflexivity].
    apply negb_false_iff in Hone. rewrite Hone. eexists; reflexivity.
  - intros Hall. unfold run. rewrite Hinstrs, (any_invalid_validated _ Hall).
    cbn [ebind app].
    destruct (is_ORIG front) eqn:Hfront; cbn [negb andb] in *.
    + apply negb_false_iff in Hone. rewrite Hone.
      eexists; (split; [reflexivity|]); (split; [reflexivity|]).
      intros ? ? [= <- <-]. now rewrite Hfront.
    + eexists; (split; [reflexivity|]); (split; [reflexivity|]).
      intros ? ? [= <- <-]. now rewrite Hfront.
Qed.

Lemma run_without_leading_ORIG_witness :
  exists diagnostic,
    run true (new_Assembler missing_ORIG)
    = ([diagnostic], Ok (new_Assembler missing_ORIG, []))
    /\ is_ORIG_diagnostic diagnostic = true
    /\ forall front others,
         instructions_ (new_Assembler missing_ORIG) = front :: others ->
         diagnostic = if is_ORIG front then orig_duplicate else orig_missing front.
Proof.
  apply (run_without_leading_ORIG true (new_Assembler missing_ORIG)).
  - discriminate.
  - reflexivity.
  - repeat constructor.
Defined.

(** Claim C5 as stated fails: on [ADD R1, R2, #16 / .END], which has no [.ORIG],
    the only diagnostic comes from validation. *)
Lemma run_reports_validation_before_ORIG :
  one_leading_ORIG missing_ORIG_invalid = false
  /\ (exists d, run true (new_Assembler missing_ORIG_invalid)
                = (d, Ok (new_Assembler missing_ORIG_invalid, []))
                /\ existsb is_ORIG_diagnostic d = false)
  /\ ~ (exists d a', run true (new_Assembler missing_ORIG_invalid) = (d, Ok (a', []))
                     /\ existsb is_ORIG_diagnostic d = true).
Proof.
  split; [reflexivity|]. split.
  - eexists. split; [vm_compute; reflexivity | reflexivity].
  - intros (d & a' & H & Hd).
    assert (E : fst (run true (new_Assembler missing_ORIG_invalid)) = d) by now rewrite H.
    vm_compute in E. subst d. discriminate Hd.
Qed.


(** *** The listing *)

Lemma scan_label_instructions a d a' ok :
  scan_label a = (d, (a', ok)) -> instructions_ a' = instructions_ a.
Proof.
  unfold scan_label.
  destruct (scan_label_from (instructions_ a) (symbol_table_ a)) as [d0 [table ok0]].
  intros [= <- <- <-]. reflexivity.
Qed.


Lemma run_success cs a d a' binary :
  run cs a = (d, Ok (a', binary)) ->
  binary <> [] ->
  exists orig rest v first others,
    instructions_ a = orig :: rest
    /\ opcode_ orig = ORIG
    /\ operands_ orig = [Operand.of_immediate v]
    /\ Forall validated (instructions_ a)
    /\ one_leading_ORIG (instructions_ a) = true
    /\ instructions_ a' = first :: others
    /\ address_ first = to_u16 v.
Proof.
  intros Hrun Hbin. unfold run in Hrun.
  destruct (any_invalid_returns (instructions_ a)) as (d0 & invalid & Hany & Hd).
  rewrite Hany in Hrun. cbn [ebind] in Hrun.
  destruct invalid; [cbn in Hrun; injection Hrun as _ _ <-; congruence|].
  destruct (Hd eq_refl) as [-> Hall].
  destruct (instructions_ a) as [|orig rest] eqn:Hinstrs; [discriminate|].
  destruct (is_ORIG orig) eqn:Horig; cbn [negb] in Hrun;
    [|cbn in Hrun; injection Hrun as _ _ <-; congruence].
  destruct (existsb is_ORIG rest) eqn:Hdup;
    [cbn in Hrun; injection Hrun as _ _ <-; congruence|].
  assert (Hop : opcode_ orig = ORIG).
  { unfold is_ORIG, Opcode_eqb, get_opcode in Horig.
    destruct (Opcode_eq_dec (opcode_ orig) ORIG); [assumption | discriminate]. }
  assert (Hvorig : validated orig) by now inversion Hall.
  destruct (validated_ORIG orig Hvorig Hop) as (v & Hops & _).
  assert (Hall' : Forall validated (instructions_ a)) by now rewrite Hinstrs.
  destruct (assign_addresses_from_spec _ Hall' (to_u16 v))
    as (assigned & Hassign & Hlen & _ & Hfirst & _).
  unfold assign_addresses, get_operand in Hrun. rewrite Hinstrs in Hassign, Hlen.
  rewrite Hinstrs, Hops in Hrun.
  cbn [lookup list_lookup bind Operand.immediate_value silent] in Hrun.
  rewrite Hassign in Hrun. cbn [bind ebind silent] in Hrun.
  destruct (scan_label _) as [d1 [a2 scanned]] eqn:Hscan.
  apply scan_label_instructions in Hscan. cbn [instructions_] in Hscan.
  cbn [ebind] in Hrun.
  destruct scanned; cbn [negb] in Hrun;
    [|cbn in Hrun; injection Hrun as _ _ <-; congruence].
  destruct (translate cs a2) as [d2 [binary'|f]]; cbn in Hrun; [|discriminate].
  injection Hrun as _ <- <-.
  destruct assigned as [|first others]; [discriminate|].
  exists orig, rest, v, first, others.
  repeat (split; [first [assumption | reflexivity]|]).
  split; [cbn [one_leading_ORIG]; now rewrite Horig, Hdup|].
  split; [assumption|]. now apply Hfirst.
Qed.




(** *** The token dump is complete *)

(** A numeral that starts at [c] leaves at most the text after [c] unread. *)
Lemma parse_decimal_number_progress c rest :
  isdigit c || Ascii.eqb c "+" || Ascii.eqb c "-" = true ->
  (String.length (parse_decimal_number (String c rest)) <= String.length rest)%nat.
Proof.
  intros Hnum. unfold parse_decimal_number.
  assert (H := find_if_not_length isdigit rest).
  destruct (Ascii.eqb c "+"); [exact H|].
  destruct (Ascii.eqb c "-"); [exact H|].
  rewrite !orb_false_r in Hnum.
  cbn [orb find_if_not]. rewrite Hnum. exact H.
Qed.

(** Every token but [End] consumes at least one character. *)
Lemma next_token_from_progress fuel s t r :
  next_token_from fuel s = Some (t, r) ->
  Token.kind t = Token.End \/ (String.length r < String.length s)%nat.
Proof.
  revert s. induction fuel as [|fuel IH]; intros s H; [discriminate|].
  destruct s as [|c rest]; cbn [next_token_from] in H.
  { injection H as <- <-. left. reflexivity. }
  assert (Hsp := find_if_not_length (fun ch => isspace ch && negb (Ascii.eqb ch newline)) rest).
  assert (Hco := find_if_not_length (fun ch => negb (Ascii.eqb ch newline)) rest).
  assert (Hid := find_if_not_length isalnum rest).
  assert (Hd1 := parse_decimal_number_length rest).
  assert (Hst := parse_string_literal_length rest).
  assert (Hd2 := parse_decimal_number_progress c rest).
  cbn [String.length].
  repeat match type of H with
  | (if ?b then _ else _) = _ => destruct b eqn:?
  end;
  try (injection H as <- <-; right; try specialize (Hd2 eq_refl);
       unfold lex_decimal_number, lex_string_literal, lex_identifier in *; auto; lia).
  - destruct (IH _ H) as [Hk | Hr]; [left; exact Hk | right].
    unfold consume_spaces in Hr. lia.
  - injection H as <- <-. right. specialize (Hd2 eq_refl).
    apply Nat.lt_succ_r. exact Hd2.
  - destruct (IH _ H) as [Hk | Hr]; [left; exact Hk | right].
    unfold consume_comment in Hr. lia.
Qed.

(** The token dump is complete: it ends with the [End] token and holds no
    other [End]. *)
Lemma tokens_from_complete fuel s :
  (String.length s < fuel)%nat ->
  exists init last,
    tokens_from fuel s = init ++ [last]
    /\ Token.kind last = Token.End
    /\ Forall (fun t => Token.kind t <> Token.End) init.
Proof.
  revert s. induction fuel as [|fuel IH]; intros s Hlen; [lia|].
  cbn [tokens_from].
  destruct (next_token_total s) as (t & r & Hnext). rewrite Hnext.
  destruct (Token.kind t) eqn:Hk;
    try (destruct (next_token_from_progress _ _ _ _ Hnext) as [Hend | Hr];
         [congruence|];
         destruct (IH r ltac:(lia)) as (init & last & -> & Hlast & Hinit);
         exists (t :: init), last; split; [reflexivity|]; split; [exact Hlast|];
         constructor; [congruence | exact Hinit]).
  exists [], t. repeat split; [assumption | constructor].
Qed.

(** Property X1.  The token dump of [main] under [-t] is never empty: it ends
    with an [End] token, which is its only one, whatever the source text. *)
Lemma tokens_complete source :
  exists init last,
    tokens source = init ++ [last]
    /\ Token.kind last = Token.End
    /\ Forall (fun t => Token.kind t <> Token.End) init.
Proof. apply tokens_from_complete. lia. Qed.

(** *** The lexer on the inputs of its tests *)

Example tokens_of_pseudo_lookalikes :
  map Token.kind (tokens ".orig .ORIG .OrIg .oRiG .APPLE .ABCD ORIG FILL")
  = [ Token.Unknown; Token.Pseudo; Token.Unknown; Token.Unknown; Token.Unknown;
      Token.Unknown; Token.Label; Token.Label; Token.End ].
Proof. vm_compute. reflexivity. Qed.

Example tokens_of_opcode_cases :
  tokens "add ADD Add aDd"
  = [ Token.mk Token.Label "add"; Token.mk Token.Opcode "ADD";
      Token.mk Token.Label "Add"; Token.mk Token.Label "aDd";
      Token.mk Token.End "" ].
Proof. vm_compute. reflexivity. Qed.

Example tokens_of_register_lookalikes :
  map Token.kind (tokens "R8 R9 R10 RA RN R0R1 R7")
  = [ Token.Label; Token.Label; Token.Label; Token.Label; Token.Label; Token.Label;
      Token.Register; Token.End ].
Proof. vm_compute. reflexivity. Qed.

Example tokens_of_instruction_line :
  tokens "LOOP AND R3, R3, #0,  ; Clear R3"
  = [ Token.mk Token.Label "LOOP"; Token.mk Token.Opcode "AND";
      Token.mk Token.Register "R3"; Token.mk Token.Comma ",";
      Token.mk Token.Register "R3"; Token.mk Token.Comma ",";
      Token.mk Token.Immediate "#0"; Token.mk Token.Comma ",";
      Token.mk Token.End "" ].
Proof. vm_compute. reflexivity. Qed.

(** *** Worked examples

    The end-to-end scenarios of the specification, from the parsed
    instructions on, and two programs around the range check of a label. *)

Example add_registers_listing :
  assemble_and_list true add_registers = ([], Ok (0, [(12288, 4739)])).
Proof. vm_compute. reflexivity. Qed.

Example countdown_listing :
  assemble_and_list true countdown = ([], Ok (0, [(12288, 4735); (12289, 1022)])).
Proof. vm_compute. reflexivity. Qed.

(** [countdown_scanned] is [countdown] after passes 1 and 2a. *)
Example countdown_scanned_reached :
  (do a1 <- assign_addresses (new_Assembler countdown); Ok (scan_label a1))
  = Ok ([], (countdown_scanned, true)).
Proof. vm_compute. reflexivity. Qed.

Example hello_listing :
  assemble_and_list true hello = ([], Ok (0, [(12288, 72); (12289, 105); (12290, 0)])).
Proof. vm_compute. reflexivity. Qed.

Example immediate_too_large_rejected :
  exists d, assemble_and_list true missing_ORIG_invalid = ([d], Ok (1, []))
            /\ d = immediate_out_of_range (Operand.of_immediate 16)
                     (instruction "" ADD
                        [Operand.of_register 1; Operand.of_register 2;
                         Operand.of_immediate 16] 0) (-16) 15.
Proof. eexists. split; vm_compute; reflexivity. Qed.

Example label_twice_rejected :
  assemble_and_list true label_twice
  = ([label_redefined (instruction "FOO" FILL [Operand.of_immediate 2] 12290)],
     Ok (1, [])).
Proof. vm_compute. reflexivity. Qed.

Example missing_ORIG_rejected :
  assemble_and_list true missing_ORIG
  = ([orig_missing (instruction "" ADD
                      [Operand.of_register 1; Operand.of_register 2;
                       Operand.of_register 3] 0)],
     Ok (1, [])).
Proof. vm_compute. reflexivity. Qed.

Example far_branch_rejected :
  assemble_and_list true far_branch
  = ([label_offset_out_of_range 300 "FAR"
        (instruction "" BR [Operand.of_label "FAR"] 12289)],
     Ok (1, [])).
Proof. vm_compute. reflexivity. Qed.

(** The label is at xFFFF and the branch at x0000: the difference 65534 is
    narrowed to the signed 16-bit offset -2, which fits the field. *)
Example branch_across_wrap_listing :
  assemble_and_list true branch_across_wrap
  = ([], Ok (0, [(65534, 4096); (65535, 4094)])).
Proof. vm_compute. reflexivity. Qed.

(* ================================================================== *)
(** * Properties of the validator, the encoder, the parser and the program *)
(* ================================================================== *)

(** *** What the validator accepts *)

Ltac operand_shapes ops :=
  let o := fresh "o" in
  destruct ops as [|o ops];
  [ | destruct o;
      [ try operand_shapes ops | try operand_shapes ops | try operand_shapes ops
      | try operand_shapes ops | try operand_shapes ops ] ].

Lemma validated_accepts instr :
  validated instr ->
  (has_label instr = true -> allows_label instr = true)
  /\ In (map Operand.type (operands_ instr)) (expected_operand_types instr)
  /\ Forall (within_immediate_range instr) (operands_ instr).
Proof.
  destruct instr as [lbl ops op addr].
  unfold validated, validate_and_emit_diagnostics, within_immediate_range.
  cbn [operands_ opcode_].
  destruct (negb (allows_label _) && has_label _) eqn:Hl; [discriminate|].
  intros H. split.
  { intros Hh. rewrite Hh, andb_true_r in Hl. now apply negb_false_iff in Hl. }
  clear Hl. revert H.
  destruct op; cbn [expected_operand_types immediate_range opcode_ length fst snd];
    (destruct ops as [|o1 [|o2 [|o3 [|o4 ops]]]]; cbn [length Nat.eqb negb];
     try discriminate);
    repeat match goal with o : Operand.Operand |- _ => destruct o end;
    cbn; try discriminate; intros H; try range_checked H;
    (split; [tauto|]);
    repeat (apply Forall_cons_2; [intros v Hv; cbn in Hv; try discriminate;
                                injection Hv as <-; unfold INT16_MIN, INT16_MAX in *; lia|]);
    apply Forall_nil_2.
Qed.

Lemma accepts_validated instr :
  (has_label instr = true -> allows_label instr = true) ->
  In (map Operand.type (operands_ instr)) (expected_operand_types instr) ->
  Forall (within_immediate_range instr) (operands_ instr) ->
  validated instr.
Proof.
  destruct instr as [lbl ops op addr].
  unfold validated, validate_and_emit_diagnostics, within_immediate_range.
  cbn [operands_ opcode_]. intros Hl Hin Hrange.
  replace (negb (allows_label _) && has_label _) with false
    by (destruct (has_label _);
        [rewrite Hl by reflexivity; reflexivity | now rewrite andb_false_r]).
  clear Hl. revert Hin Hrange.
  destruct op; cbn [expected_operand_types immediate_range opcode_ length fst snd In];
    intros Hin Hrange;
    repeat match goal with H : _ \/ _ |- _ => destruct H as [H | H] end;
    try contradiction;
    (destruct ops as [|o1 [|o2 [|o3 [|o4 ops]]]]; try discriminate Hin);
    repeat match goal with o : Operand.Operand |- _ => destruct o end;
    try discriminate Hin; clear Hin;
    repeat match goal with
           | H : Forall _ (_ :: _) |- _ =>
               apply Forall_cons in H; destruct H as [? H]
           end;
    repeat match goal with
           | H : forall v, integer_value (_ ?x) = Some v -> _ |- _ =>
               specialize (H x eq_refl)
           | H : forall v, integer_value _ = Some v -> _ |- _ => clear H
           end;
    cbn;
    repeat match goal with
           | |- context [(?v <? ?lo) || (?hi <? ?v)] =>
               replace ((v <? lo) || (hi <? v)) with false
                 by (symmetry; apply orb_false_iff; rewrite !Z.ltb_ge;
                     unfold INT16_MIN, INT16_MAX in *; lia)
           end;
    reflexivity.
Qed.

(** Property X2.  The validator accepts an instruction exactly when its label,
    if any, is allowed, its operand types are one of the expected lists, and
    its integer operands lie in the range of the instruction. *)
Theorem validated_iff_accepts instr :
  validate_and_emit_diagnostics instr = ([], Ok true)
  <-> (has_label instr = true -> allows_label instr = true)
      /\ In (map Operand.type (operands_ instr)) (expected_operand_types instr)
      /\ Forall (within_immediate_range instr) (operands_ instr).
Proof.
  split.
  - apply validated_accepts.
  - intros (Hl & Ht & Hr). now apply accepts_validated.
Qed.

(** *** Sixteen-bit words *)

Lemma to_u16_bounds z : 0 <= to_u16 z < 65536.
Proof. unfold to_u16. apply Z.mod_pos_bound. lia. Qed.

Lemma u16_land_ones a : 0 <= a < 65536 -> Z.land a (Z.ones 16) = a.
Proof. intros H. rewrite Z.land_ones by lia. apply Z.mod_small. exact H. Qed.

Lemma lor_u16 a b :
  0 <= a < 65536 -> 0 <= b < 65536 -> 0 <= Z.lor a b < 65536.
Proof.
  intros Ha Hb.
  rewrite <- (u16_land_ones a Ha), <- (u16_land_ones b Hb), <- Z.land_lor_distr_l.
  rewrite Z.land_ones by lia. apply Z.mod_pos_bound. lia.
Qed.

Lemma land_u16 a b : 0 <= b < 65536 -> 0 <= Z.land a b < 65536.
Proof.
  intros Hb. rewrite <- (u16_land_ones b Hb), Z.land_assoc.
  rewrite Z.land_ones by lia. apply Z.mod_pos_bound. lia.
Qed.

Lemma lor_sentinel a : 0 <= a < 65536 -> Z.lor a translation_failed = translation_failed.
Proof.
  intros Ha. change translation_failed with (Z.ones 16).
  rewrite <- (u16_land_ones a Ha). apply Z.bits_inj'. intros n Hn.
  rewrite Z.lor_spec, Z.land_spec. destruct (Z.testbit (Z.ones 16) n).
  - apply orb_true_r.
  - now rewrite andb_false_r.
Qed.

(** *** One word, or one message and the sentinel *)

Lemma ebind_silent_Ok {A B} (x : A) (k : A -> emitting B) :
  ebind (silent (Ok x)) k = k x.
Proof. unfold ebind, silent. destruct (k x). reflexivity. Qed.

Lemma ebind_quiet_Ok {A B} (x : A) (k : A -> emitting B) :
  ebind ([], Ok x) k = k x.
Proof. apply ebind_silent_Ok. Qed.

Lemma ebind_silent_Fault {A B} f (k : A -> emitting B) :
  ebind (silent (Fault f)) k = ([], Fault f).
Proof. reflexivity. Qed.

Lemma or_register_bounds instr index position base w :
  or_register instr index position base = Ok w ->
  0 <= base < 65536 -> 0 <= w < 65536.
Proof.
  unfold or_register, translate_register. intros H Hb.
  destruct (get_operand instr index) as [o|]; [|discriminate].
  cbn [bind] in H. destruct (Operand.register_id o); [|discriminate].
  cbn [bind] in H. injection H as <-. apply lor_u16; [exact Hb | apply to_u16_bounds].
Qed.

Lemma or_immediate_bounds instr index bits base w :
  or_immediate instr index bits base = Ok w ->
  0 <= base < 65536 -> 0 <= w < 65536.
Proof.
  unfold or_immediate, translate_immediate. intros H Hb.
  destruct (get_operand instr index) as [o|]; [|discriminate].
  cbn [bind] in H. destruct (Operand.immediate_value o); [|discriminate].
  cbn [bind] in H. injection H as <-.
  apply lor_u16; [exact Hb | apply land_u16, to_u16_bounds].
Qed.

Lemma quiet_silent r :
  (forall w, r = Ok w -> 0 <= w < 65536) -> quiet_or_failed (silent r).
Proof. intros H. left. split; [reflexivity | exact H]. Qed.

Lemma or_label_quiet_or_failed a instr index bits base :
  0 <= base < 65536 -> quiet_or_failed (or_label a instr index bits base).
Proof.
  intros Hb. unfold or_label, translate_label.
  destruct (get_operand instr index) as [o|f]; cbn [silent ebind];
    [|left; split; [reflexivity | discriminate]].
  destruct (Operand.label o) as [l|f]; cbn [silent ebind];
    [|left; split; [reflexivity | discriminate]].
  destruct (symbol_table_ a !! l) as [L|].
  - destruct (_ || _); cbn [silent ebind app].
    + right. eexists. now rewrite (lor_sentinel base Hb).
    + left. split; [reflexivity|]. intros w [= <-].
      apply lor_u16; [exact Hb | apply to_u16_bounds].
  - cbn [silent ebind app]. right. eexists. now rewrite (lor_sentinel base Hb).
Qed.

Lemma translate_regular_instruction_quiet_or_failed a instr :
  quiet_or_failed (translate_regular_instruction a instr).
Proof.
  unfold translate_regular_instruction.
  set (result := to_u16 (Z.shiftl (translate_opcode (get_opcode instr)) 12)).
  assert (Hr : 0 <= result < 65536) by apply to_u16_bounds.
  assert (Hc : forall c, 0 <= c < 65536 -> 0 <= Z.lor result c < 65536)
    by (intros c Hc; now apply lor_u16).
  clearbody result.
  destruct (get_opcode instr);
    try (apply or_label_quiet_or_failed; apply Hc; vm_compute; split; congruence);
    try (apply quiet_silent; intros w [= <-];
         first [exact Hr | apply Hc; vm_compute; split; congruence]);
    try (apply quiet_silent; intros w H; eapply or_register_bounds; eassumption);
    try (apply quiet_silent; intros w H; eapply or_immediate_bounds; eassumption);
    try (destruct (or_register instr 0 9 result) as [r1|] eqn:E1;
         [ rewrite ebind_silent_Ok;
           exact (or_label_quiet_or_failed a instr 1 9 r1
                    (or_register_bounds _ _ _ _ _ E1 Hr))
         | left; split; [reflexivity | discriminate] ]);
    try (apply quiet_silent; intros w H;
         destruct (or_register instr 0 9 result) as [r1|] eqn:E1; [|discriminate];
         cbn [bind] in H;
         destruct (or_register instr 1 6 r1) as [r2|] eqn:E2; [|discriminate];
         cbn [bind] in H;
         pose proof (or_register_bounds _ _ _ _ _ E1 Hr) as H1;
         pose proof (or_register_bounds _ _ _ _ _ E2 H1) as H2;
         first
           [ eapply or_immediate_bounds; eassumption
           | injection H as <-; apply lor_u16; [exact H2 | vm_compute; split; congruence]
           | destruct (get_operand instr 2) as [o|]; [|discriminate]; cbn [bind] in H;
             destruct (Operand.OperandType_eqb _ _);
             [ eapply or_immediate_bounds; [exact H|]; apply lor_u16; [exact H2|];
               vm_compute; split; congruence
             | eapply or_register_bounds; eassumption ] ]).
  (* BRz *)
  destruct (get_operand instr 0) as [o|];
    [rewrite ebind_silent_Ok | left; split; [reflexivity | discriminate]].
  destruct (Operand.OperandType_eqb _ _).
  - apply or_label_quiet_or_failed. apply Hc. vm_compute; split; congruence.
  - apply quiet_silent. intros w H. eapply or_immediate_bounds; [exact H|].
    apply Hc. vm_compute; split; congruence.
Qed.

(** *** Every pass stops at its first message *)

Lemma validate_reports instr :
  validate_and_emit_diagnostics instr = ([], Ok true)
  \/ exists diagnostic, validate_and_emit_diagnostics instr = ([diagnostic], Ok false).
Proof.
  unfold validate_and_emit_diagnostics.
  destruct (negb (allows_label instr) && has_label instr); [right; eauto|].
  destruct (expected_operand_types_uniform instr) as (front & more & -> & Hall).
  destruct (length (operands_ instr) =? length front)%nat eqn:Hlen; cbn [negb];
    [|right; eauto].
  apply Nat.eqb_eq in Hlen. rewrite <- Hlen in Hall.
  destruct (match_operand_types_returns (operands_ instr) (front :: more) 0%nat
              Operand.Register Hall ltac:(lia)) as (index & type & -> & Hindex).
  cbn [silent ebind app].
  destruct (index =? length (operands_ instr))%nat eqn:Hi; cbn [negb].
  - destruct (find is_integer_operand (operands_ instr)) as [imm|] eqn:Hfind;
      [|left; reflexivity].
    apply find_some in Hfind as [_ Himm]. unfold is_integer_operand in Himm.
    destruct imm; try discriminate Himm; cbn [Operand.type Operand.OperandType_eqb
      Operand.immediate_value Operand.regular_decimal silent ebind app];
      match goal with |- context [if ?b then _ else _] => destruct b end;
      first [left; reflexivity | right; eauto].
  - apply Nat.eqb_neq in Hi.
    unfold get_operand.
    destruct (operands_ instr !! index) as [o|] eqn:Ho.
    + cbn [silent ebind app]. right; eauto.
    + apply lookup_ge_None in Ho. lia.
Qed.

Lemma any_invalid_reports instructions :
  any_invalid instructions = ([], Ok false)
  \/ exists diagnostic, any_invalid instructions = ([diagnostic], Ok true).
Proof.
  induction instructions as [|instr rest IH]; [left; reflexivity|].
  cbn [any_invalid].
  destruct (validate_reports instr) as [-> | (diagnostic & ->)]; cbn [ebind negb].
  - destruct IH as [-> | (diagnostic & ->)]; [left | right; eexists]; reflexivity.
  - right. eexists. reflexivity.
Qed.

Lemma scan_label_from_reports instructions : forall table,
  (exists table', scan_label_from instructions table = ([], (table', true)))
  \/ exists diagnostic table',
       scan_label_from instructions table = ([diagnostic], (table', false)).
Proof.
  induction instructions as [|instr rest IH]; intros table; [left; eexists; reflexivity|].
  cbn [scan_label_from]. destruct (has_label instr); [|apply IH].
  unfold add_label. destruct (table !! get_label instr); cbn [negb].
  - right. do 2 eexists. reflexivity.
  - apply IH.
Qed.

Lemma translate_from_reports cs a instructions : forall results,
  fst (translate_from cs a instructions results) = []
  \/ exists diagnostic,
       translate_from cs a instructions results = ([diagnostic], Ok None).
Proof.
  induction instructions as [|instr rest IH]; intros results; [left; reflexivity|].
  cbn [translate_from]. destruct (is_pseudo (get_opcode instr)).
  - destruct (translate_pseudo cs instr results) as [results'|f];
      [rewrite ebind_silent_Ok; apply IH | left; reflexivity].
  - destruct (translate_regular_instruction_quiet_or_failed a instr)
      as [[Hd Hw] | (diagnostic & ->)].
    + destruct (translate_regular_instruction a instr) as [d [w|f]];
        cbn [fst] in Hd; subst d; [|left; reflexivity].
      rewrite ebind_quiet_Ok. destruct (w =? translation_failed); [left; reflexivity|].
      apply IH.
    + right. exists diagnostic. reflexivity.
Qed.

Lemma run_reports cs a :
  fst (run cs a) = []
  \/ exists diagnostic a', run cs a = ([diagnostic], Ok (a', [])).
Proof.
  unfold run.
  destruct (any_invalid_reports (instructions_ a)) as [-> | (diagnostic & ->)];
    [|right; exists diagnostic, a; reflexivity].
  rewrite ebind_quiet_Ok.
  destruct (instructions_ a) as [|front others] eqn:Hinstrs; [left; reflexivity|].
  destruct (is_ORIG front); cbn [negb]; [|right; eauto].
  destruct (existsb is_ORIG others); [right; eauto|].
  destruct (assign_addresses a) as [a1|f]; [rewrite ebind_silent_Ok | left; reflexivity].
  unfold scan_label.
  destruct (scan_label_from_reports (instructions_ a1) (symbol_table_ a1))
    as [(table & ->) | (diagnostic & table & ->)]; cbn [ebind app negb].
  - unfold translate.
    destruct (translate_from_reports cs
                {| instructions_ := instructions_ a1; symbol_table_ := table |}
                (instructions_ a1) []) as [Hd | (diagnostic & Hd)].
    + left. cbn [instructions_].
      destruct (translate_from _ _ _ _) as [d [finished|f]]; cbn [fst] in Hd; subst d;
        reflexivity.
    + right. cbn [instructions_]. rewrite Hd. do 2 eexists. reflexivity.
  - right. do 2 eexists. reflexivity.
Qed.

(** Property X3.  [validate_and_emit_diagnostics] returns on every
    instruction, whatever its operands; it writes at most one message, and its
    verdict is [true] exactly when it writes none. *)
Theorem validate_one_message instr :
  exists d ok,
    validate_and_emit_diagnostics instr = (d, Ok ok)
    /\ (length d <= 1)%nat
    /\ (ok = true <-> d = []).
Proof.
  destruct (validate_reports instr) as [-> | (diagnostic & ->)].
  - exists [], true. split; [reflexivity|]. split; [cbn; lia | tauto].
  - exists [diagnostic], false. split; [reflexivity|]. split; [cbn; lia|].
    split; discriminate.
Qed.

(** Property X4.  [Assembler::run] writes at most one message, and when it
    writes one it returns the empty vector: every error path of the
    validation, of the [.ORIG] checks, of the label scan and of the encoder
    leaves at once. *)
Theorem run_reports_once cs a :
  exists d r,
    run cs a = (d, r)
    /\ (length d <= 1)%nat
    /\ (d <> [] -> exists a', r = Ok (a', [])).
Proof.
  destruct (run_reports cs a) as [Hd | (diagnostic & a' & ->)].
  - destruct (run cs a) as [d r]. cbn [fst] in Hd. subst d.
    exists [], r. split; [reflexivity|]. split; [cbn; lia | congruence].
  - exists [diagnostic], (Ok (a', [])). split; [reflexivity|]. split; [cbn; lia | eauto].
Qed.

(** *** The opcode bits of a word *)

Lemma register_operand_in_range operands index r :
  forallb register_in_range operands = true ->
  operands !! index = Some (Operand.of_register r) ->
  0 <= r < 8.
Proof.
  intros Hall Hi. rewrite forallb_forall in Hall.
  apply list_elem_of_lookup_2, list_elem_of_In, Hall in Hi. cbn in Hi. lia.
Qed.

Lemma register_field_bounds r position :
  0 <= r < 8 -> position = 0 \/ position = 6 \/ position = 9 ->
  to_u16 (Z.shiftl r position) = r * 2 ^ position
  /\ 0 <= r * 2 ^ position < 4096.
Proof.
  intros Hr Hp. rewrite Z.shiftl_mul_pow2 by lia. unfold to_u16.
  destruct Hp as [-> | [-> | ->]]; (split; [apply Z.mod_small|]); lia.
Qed.

Lemma or_register_field instr index position base w :
  or_register instr index position base = Ok w ->
  forallb register_in_range (operands_ instr) = true ->
  position = 0 \/ position = 6 \/ position = 9 ->
  exists r, operands_ instr !! index = Some (Operand.of_register r)
            /\ 0 <= r < 8
            /\ w = Z.lor base (r * 2 ^ position).
Proof.
  unfold or_register, get_operand, translate_register. intros H Hall Hp.
  destruct (operands_ instr !! index) as [o|] eqn:Ho; [|discriminate].
  cbn [bind] in H. destruct o as [r| | | |]; try discriminate. cbn [bind Operand.register_id] in H.
  injection H as <-.
  pose proof (register_operand_in_range _ _ _ Hall Ho) as Hr.
  exists r. destruct (register_field_bounds r position Hr Hp) as [-> _]. auto.
Qed.

Lemma immediate_field_bounds v bits :
  bits = 5 \/ bits = 6 \/ bits = 8 \/ bits = 9 ->
  Z.land (to_u16 v) (to_u16 (Z.shiftl 1 bits - 1)) = v mod 2 ^ bits
  /\ 0 <= v mod 2 ^ bits < 2 ^ bits.
Proof.
  intros Hb. split; [|apply Z.mod_pos_bound; destruct Hb as [-> | [-> | [-> | ->]]]; lia].
  replace (to_u16 (Z.shiftl 1 bits - 1)) with (Z.ones bits)
    by (destruct Hb as [-> | [-> | [-> | ->]]]; reflexivity).
  rewrite Z.land_ones by lia. unfold to_u16.
  destruct Hb as [-> | [-> | [-> | ->]]]; apply Z.mod_mod_divide.
  - exists (2 ^ 11). reflexivity.
  - exists (2 ^ 10). reflexivity.
  - exists (2 ^ 8). reflexivity.
  - exists (2 ^ 7). reflexivity.
Qed.

Lemma or_immediate_field instr index bits base w :
  or_immediate instr index bits base = Ok w ->
  bits = 5 \/ bits = 6 \/ bits = 8 \/ bits = 9 ->
  exists v, operands_ instr !! index = Some (Operand.of_immediate v)
            /\ w = Z.lor base (v mod 2 ^ bits).
Proof.
  unfold or_immediate, get_operand, translate_immediate. intros H Hb.
  destruct (operands_ instr !! index) as [o|] eqn:Ho; [|discriminate].
  cbn [bind] in H. destruct o as [|v| | |]; try discriminate.
  cbn [bind Operand.immediate_value] in H. injection H as <-.
  exists v. destruct (immediate_field_bounds v bits Hb) as [-> _]. auto.
Qed.

Lemma lor_add_low base field n :
  0 <= n -> base mod 2 ^ n = 0 -> 0 <= field < 2 ^ n ->
  Z.lor base field = base + field.
Proof.
  intros Hn Hbase Hfield.
  assert (Hdisjoint : Z.land base field = 0).
  { apply Z.bits_inj'. intros i Hi. rewrite Z.land_spec, Z.bits_0.
    destruct (Z.lt_ge_cases i n) as [Hlt | Hge].
    - rewrite <- (Z.mod_pow2_bits_low base n i) by lia. rewrite Hbase, Z.bits_0.
      reflexivity.
    - rewrite <- (Z.mod_small field (2 ^ n)) by lia.
      rewrite Z.mod_pow2_bits_high by lia. apply andb_false_r. }
  rewrite <- Z.lxor_lor by exact Hdisjoint.
  symmetry. apply Z.add_nocarry_lxor. exact Hdisjoint.
Qed.

Lemma sign_extend_mod bits v :
  0 < bits -> - 2 ^ (bits - 1) <= v < 2 ^ (bits - 1) ->
  sign_extend bits (v mod 2 ^ bits) = v.
Proof.
  intros Hb Hv. unfold sign_extend.
  assert (Hp : 2 ^ bits = 2 * 2 ^ (bits - 1)).
  { rewrite <- Z.pow_succ_r by lia. f_equal. lia. }
  assert (0 < 2 ^ (bits - 1)) by (apply Z.pow_pos_nonneg; lia).
  destruct (Z.neg_nonneg_cases v) as [Hneg | Hpos].
  - replace (v mod 2 ^ bits) with (v + 2 ^ bits)
      by (apply Z.mod_unique with (-1); lia).
    destruct (Z.ltb_spec (v + 2 ^ bits) (2 ^ (bits - 1))); lia.
  - rewrite Z.mod_small by lia.
    destruct (Z.ltb_spec v (2 ^ (bits - 1))); lia.
Qed.

(** *** The layout of the instruction words *)

Ltac opcode_bits :=
  unfold to_u16; rewrite Z.shiftl_mul_pow2 by lia; cbn [translate_opcode get_opcode].

Lemma lor_field base field n :
  base mod n = 0 -> 0 <= field < n ->
  n = 32 \/ n = 64 \/ n = 256 \/ n = 512 \/ n = 2048 \/ n = 4096 ->
  Z.lor base field = base + field.
Proof.
  intros Hbase Hfield Hn.
  destruct Hn as [-> | [-> | [-> | [-> | [-> | ->]]]]].
  - apply (lor_add_low base field 5); [lia | exact Hbase | exact Hfield].
  - apply (lor_add_low base field 6); [lia | exact Hbase | exact Hfield].
  - apply (lor_add_low base field 8); [lia | exact Hbase | exact Hfield].
  - apply (lor_add_low base field 9); [lia | exact Hbase | exact Hfield].
  - apply (lor_add_low base field 11); [lia | exact Hbase | exact Hfield].
  - apply (lor_add_low base field 12); [lia | exact Hbase | exact Hfield].
Qed.

Ltac multiple_of := Z.div_mod_to_equations; lia.

Ltac field_side := first [assumption | reflexivity | lia | multiple_of].

Lemma translate_operate_word a instr dr sr1 o3 :
  opcode_ instr = ADD \/ opcode_ instr = AND ->
  operands_ instr = [Operand.of_register dr; Operand.of_register sr1; o3] ->
  0 <= dr < 8 -> 0 <= sr1 < 8 ->
  register_in_range o3 = true ->
  translate_regular_instruction a instr
  = match o3 with
    | Operand.of_register sr2 =>
        ([], Ok (4096 * translate_opcode (opcode_ instr) + 512 * dr + 64 * sr1 + sr2))
    | Operand.of_immediate imm5 =>
        ([], Ok (4096 * translate_opcode (opcode_ instr) + 512 * dr + 64 * sr1 + 32
                 + imm5 mod 32))
    | _ => ([], Fault AssertionFailed)
    end.
Proof.
  intros Hop Hops Hdr Hsr1 Ho3.
  destruct (register_field_bounds dr 9 Hdr ltac:(auto)) as [Edr Bdr].
  destruct (register_field_bounds sr1 6 Hsr1 ltac:(auto)) as [Esr1 Bsr1].
  change (2 ^ 9) with 512 in *. change (2 ^ 6) with 64 in *.
  unfold translate_regular_instruction, get_opcode, or_register, or_immediate,
    get_operand, translate_register, translate_immediate.
  rewrite Hops.
  destruct Hop as [-> | ->];
    cbn [lookup list_lookup bind Operand.register_id silent translate_opcode];
    rewrite Edr, Esr1;
    change (to_u16 (Z.shiftl 1 12)) with 4096; change (to_u16 (Z.shiftl 5 12)) with 20480;
    rewrite (lor_field _ (dr * 512) 4096) by (auto; lia);
    rewrite (lor_field _ (sr1 * 64) 512) by (auto; try lia; multiple_of);
    (destruct o3 as [sr2|imm5| | |];
     cbn [Operand.type Operand.OperandType_eqb bind Operand.register_id
          Operand.immediate_value]; try reflexivity).
  all: try (assert (Hsr2 : 0 <= sr2 < 8) by (cbn in Ho3; lia);
            destruct (register_field_bounds sr2 0 Hsr2 ltac:(auto)) as [-> _];
            rewrite (lor_field _ (sr2 * 2 ^ 0) 64) by (auto; try lia; multiple_of);
            do 2 f_equal; lia).
  all: destruct (immediate_field_bounds imm5 5 ltac:(auto)) as [-> Himm];
    change (2 ^ 5) with 32 in *; change (Z.shiftl 1 5) with 32;
    rewrite (lor_field _ 32 64) by (auto; try lia; multiple_of);
    rewrite (lor_field _ (imm5 mod 32) 32) by (auto; try lia; multiple_of);
    do 2 f_equal; lia.
Qed.

(** Property X5.  For a validated [ADD] or [AND] with registers of [R0..R7]
    the encoder writes no message and returns a word with the opcode in bits
    15..12, the destination in bits 11..9 and the first source in bits 8..6;
    in the register form bits 5..0 hold the second source, in the immediate
    form bit 5 is set and bits 4..0 hold the immediate in two's complement. *)
Theorem translate_operate_layout a instr dr sr1 o3 :
  opcode_ instr = ADD \/ opcode_ instr = AND ->
  operands_ instr = [Operand.of_register dr; Operand.of_register sr1; o3] ->
  validated instr ->
  forallb register_in_range (operands_ instr) = true ->
  exists word,
    translate_regular_instruction a instr = ([], Ok word)
    /\ word / 4096 = translate_opcode (opcode_ instr)
    /\ (word / 512) mod 8 = dr
    /\ (word / 64) mod 8 = sr1
    /\ match o3 with
       | Operand.of_register sr2 => word mod 64 = sr2
       | Operand.of_immediate imm5 =>
           (word / 32) mod 2 = 1 /\ sign_extend 5 (word mod 32) = imm5
       | _ => False
       end.
Proof.
  intros Hop Hops Hv Hregs.
  assert (Hdr : 0 <= dr < 8).
  { apply (register_operand_in_range _ 0%nat _ Hregs). now rewrite Hops. }
  assert (Hsr1 : 0 <= sr1 < 8).
  { apply (register_operand_in_range _ 1%nat _ Hregs). now rewrite Hops. }
  assert (Ho3 : register_in_range o3 = true).
  { rewrite Hops in Hregs. cbn [forallb] in Hregs.
    apply andb_true_iff in Hregs as [_ Hregs]. apply andb_true_iff in Hregs as [_ Hregs].
    now apply andb_true_iff in Hregs as [Hregs _]. }
  rewrite (translate_operate_word a instr dr sr1 o3 Hop Hops Hdr Hsr1 Ho3).
  destruct (validated_accepts instr Hv) as (_ & Hin & Hrange).
  rewrite Hops in Hin, Hrange.
  assert (Hcode : translate_opcode (opcode_ instr) = 1 \/ translate_opcode (opcode_ instr) = 5)
    by (destruct Hop as [-> | ->]; auto).
  assert (Hbound : fst (immediate_range instr) = -16 /\ snd (immediate_range instr) = 15)
    by (unfold immediate_range; destruct Hop as [-> | ->]; auto).
  unfold expected_operand_types in Hin.
  destruct o3 as [sr2|imm5|k|l|t].
  - eexists. split; [reflexivity|]. cbn in Ho3.
    repeat split; destruct Hcode as [-> | ->]; Z.div_mod_to_equations; lia.
  - apply Forall_cons in Hrange as [_ Hrange]. apply Forall_cons in Hrange as [_ Hrange].
    apply Forall_cons in Hrange as [Himm _]. specialize (Himm imm5 eq_refl).
    destruct Hbound as [Hlo Hhi]. rewrite Hlo, Hhi in Himm.
    eexists. split; [reflexivity|].
    pose proof (Z.mod_pos_bound imm5 32 eq_refl) as Hfield.
    split; [destruct Hcode as [-> | ->]; Z.div_mod_to_equations; lia|].
    split; [destruct Hcode as [-> | ->]; Z.div_mod_to_equations; lia|].
    split; [destruct Hcode as [-> | ->]; Z.div_mod_to_equations; lia|].
    split; [destruct Hcode as [-> | ->]; Z.div_mod_to_equations; lia|].
    replace ((4096 * translate_opcode (opcode_ instr) + 512 * dr + 64 * sr1 + 32
              + imm5 mod 32) mod 32) with (imm5 mod 32)
      by (destruct Hcode as [-> | ->]; Z.div_mod_to_equations; lia).
    apply (sign_extend_mod 5); lia.
  - exfalso. destruct Hop as [Hop | Hop]; rewrite Hop in Hin; cbn in Hin;
      destruct Hin as [Hin | [Hin | []]]; discriminate.
  - exfalso. destruct Hop as [Hop | Hop]; rewrite Hop in Hin; cbn in Hin;
      destruct Hin as [Hin | [Hin | []]]; discriminate.
  - exfalso. destruct Hop as [Hop | Hop]; rewrite Hop in Hin; cbn in Hin;
      destruct Hin as [Hin | [Hin | []]]; discriminate.
Qed.

Lemma translate_operate_layout_witness :
  exists word,
    translate_regular_instruction countdown_scanned
      (instruction "LOOP" ADD
         [Operand.of_register 1; Operand.of_register 1; Operand.of_immediate (-1)] 12289)
    = ([], Ok word)
    /\ word / 4096 = 1
    /\ (word / 512) mod 8 = 1
    /\ (word / 64) mod 8 = 1
    /\ (word / 32) mod 2 = 1 /\ sign_extend 5 (word mod 32) = -1.
Proof.
  exact (translate_operate_layout countdown_scanned
           (instruction "LOOP" ADD
              [Operand.of_register 1; Operand.of_register 1; Operand.of_immediate (-1)]
              12289)
           1 1 (Operand.of_immediate (-1)) (or_introl eq_refl) eq_refl eq_refl eq_refl).
Defined.

Lemma or_label_field a instr index bits base w :
  or_label a instr index bits base = ([], Ok w) ->
  bits = 9 \/ bits = 11 ->
  exists field, w = Z.lor base field /\ 0 <= field < 2 ^ bits.
Proof.
  unfold or_label, translate_label. intros H Hb.
  destruct (get_operand instr index) as [o|]; cbn [silent ebind] in H; [|discriminate].
  destruct (Operand.label o) as [l|]; cbn [silent ebind] in H; [|discriminate].
  destruct (symbol_table_ a !! l) as [L|]; [|discriminate].
  destruct (_ || _); [discriminate|]. cbn [silent ebind app] in H.
  injection H as <-.
  destruct (low_bits_field (to_i16 (L - get_address instr - 1)) bits Hb) as [-> Hbound].
  eauto.
Qed.

Lemma high_bits base field :
  base mod 4096 = 0 -> 0 <= field < 4096 ->
  Z.lor base field / 4096 = base / 4096 /\ Z.lor base field mod 4096 = field.
Proof.
  intros Hbase Hfield. rewrite (lor_field base field 4096) by field_side.
  split; Z.div_mod_to_equations; lia.
Qed.

Lemma lor_below_4096 a b :
  0 <= a < 4096 -> 0 <= b < 4096 -> 0 <= Z.lor a b < 4096.
Proof.
  intros Ha Hb.
  rewrite <- (Z.mod_small a (2 ^ 12)), <- (Z.mod_small b (2 ^ 12)) by lia.
  rewrite <- !Z.land_ones by lia. rewrite <- Z.land_lor_distr_l.
  rewrite Z.land_ones by lia. apply Z.mod_pos_bound. lia.
Qed.

Lemma fielded_refl base : fielded base base.
Proof. exists 0. split; [now rewrite Z.lor_0_r | lia]. Qed.

Lemma fielded_lor base w c : fielded base w -> 0 <= c < 4096 -> fielded base (Z.lor w c).
Proof.
  intros (fields & -> & Hf) Hc. exists (Z.lor fields c).
  split; [now rewrite Z.lor_assoc | now apply lor_below_4096].
Qed.

Lemma fielded_register instr base b index position w :
  forallb register_in_range (operands_ instr) = true ->
  fielded base b ->
  or_register instr index position b = Ok w ->
  position = 0 \/ position = 6 \/ position = 9 ->
  fielded base w.
Proof.
  intros Hregs Hb Hw Hp.
  destruct (or_register_field _ _ _ _ _ Hw Hregs Hp) as (r & _ & Hr & ->).
  apply fielded_lor; [exact Hb|]. destruct Hp as [-> | [-> | ->]]; lia.
Qed.

Lemma fielded_immediate instr base b index bits w :
  fielded base b ->
  or_immediate instr index bits b = Ok w ->
  bits = 5 \/ bits = 6 \/ bits = 8 \/ bits = 9 ->
  fielded base w.
Proof.
  intros Hb Hw Hbits.
  destruct (or_immediate_field _ _ _ _ _ Hw Hbits) as (v & _ & ->).
  apply fielded_lor; [exact Hb|].
  destruct (immediate_field_bounds v bits Hbits) as [_ Hbound].
  destruct Hbits as [-> | [-> | [-> | ->]]]; lia.
Qed.

Lemma fielded_label a instr base b index bits w :
  fielded base b ->
  or_label a instr index bits b = ([], Ok w) ->
  bits = 9 \/ bits = 11 ->
  fielded base w.
Proof.
  intros Hb Hw Hbits.
  destruct (or_label_field _ _ _ _ _ _ Hw Hbits) as (field & -> & Hbound).
  apply fielded_lor; [exact Hb|]. destruct Hbits as [-> | ->]; lia.
Qed.

Lemma fielded_opcode base w opcode :
  base = 4096 * opcode -> fielded base w -> w / 4096 = opcode.
Proof.
  intros -> (fields & -> & Hf).
  rewrite (lor_field _ fields 4096) by field_side. Z.div_mod_to_equations; lia.
Qed.

(** The four high bits of a word written without a message are the opcode
    bits; the twelve low bits of a trap stay below 256. *)
Lemma translated_word_fields a instr word :
  translate_regular_instruction a instr = ([], Ok word) ->
  forallb register_in_range (operands_ instr) = true ->
  word / 4096 = translate_opcode (opcode_ instr)
  /\ (translate_opcode (opcode_ instr) = 15 -> word mod 4096 < 256).
Proof.
  intros H Hregs.
  revert H. unfold translate_regular_instruction, get_opcode.
  set (base := to_u16 (Z.shiftl (translate_opcode (opcode_ instr)) 12)).
  assert (Hbase : base = 4096 * translate_opcode (opcode_ instr)).
  { subst base. destruct (opcode_ instr); reflexivity. }
  assert (Hstart : fielded base base) by apply fielded_refl.
  assert (Hconst : forall c, 0 <= c < 4096 -> fielded base (Z.lor base c))
    by (intros c Hc; now apply fielded_lor).
  clearbody base.
  assert (Hdone : forall w, fielded base w -> translate_opcode (opcode_ instr) <> 15 ->
            w / 4096 = translate_opcode (opcode_ instr)
            /\ (translate_opcode (opcode_ instr) = 15 -> w mod 4096 < 256)).
  { intros w Hw Hne. split; [now apply (fielded_opcode base) | contradiction]. }
  assert (Htrap : forall c, 0 <= c < 256 -> translate_opcode (opcode_ instr) = 15 ->
            Z.lor base c / 4096 = translate_opcode (opcode_ instr)
            /\ (translate_opcode (opcode_ instr) = 15 -> Z.lor base c mod 4096 < 256)).
  { intros c Hc H15. rewrite (lor_field base c 4096) by (subst base; field_side).
    subst base. split; [|intros _]; Z.div_mod_to_equations; lia. }
  destruct (opcode_ instr) eqn:Hop; cbn [translate_opcode] in *; intros H;
    try (injection H as <-; apply Hdone; [assumption | lia]);
    try (injection H as <-; apply Hdone;
         [apply Hconst; vm_compute; split; congruence | lia]);
    try (injection H as <-; apply Htrap; [lia | reflexivity]);
    try (apply Hdone; [|lia];
         eapply fielded_label; [|exact H|auto]; apply Hconst; vm_compute; split; congruence);
    try (apply Hdone; [|lia]; injection H as H;
         eapply fielded_register; [exact Hregs | exact Hstart | exact H | auto]).
  all: try (apply Hdone; [|lia];
            destruct (or_register instr 0 9 base) as [r1|] eqn:E1;
              [rewrite ebind_silent_Ok in H | discriminate H];
            eapply fielded_label; [|exact H|auto];
            eapply fielded_register; [exact Hregs | exact Hstart | exact E1 | auto]).
  all: try (apply Hdone; [|lia]; injection H as H;
            destruct (or_register instr 0 9 base) as [r1|] eqn:E1; [|discriminate H];
            cbn [bind] in H;
            destruct (or_register instr 1 6 r1) as [r2|] eqn:E2; [|discriminate H];
            cbn [bind] in H;
            assert (H2 : fielded base r2)
              by (eapply fielded_register; [exact Hregs | | exact E2 | auto];
                  eapply fielded_register; [exact Hregs | exact Hstart | exact E1 | auto]);
            first
              [ injection H as <-; apply fielded_lor; [exact H2 | lia]
              | eapply fielded_immediate; [exact H2 | exact H | auto]
              | destruct (get_operand instr 2) as [o|]; [|discriminate H];
                cbn [bind] in H;
                destruct (Operand.OperandType_eqb _ _);
                [ eapply fielded_immediate; [|exact H|auto];
                  apply fielded_lor; [exact H2 | vm_compute; split; congruence]
                | eapply fielded_register; [exact Hregs | exact H2 | exact H | auto] ] ]).
  - (* BRz *)
    apply Hdone; [|lia].
    destruct (get_operand instr 0) as [o|]; [rewrite ebind_silent_Ok in H | discriminate H].
    destruct (Operand.OperandType_eqb _ _).
    + eapply fielded_label; [|exact H|auto]. apply Hconst. vm_compute; split; congruence.
    + injection H as H. eapply fielded_immediate; [|exact H|auto].
      apply Hconst. vm_compute; split; congruence.
  - (* TRAP *)
    injection H as H.
    destruct (or_immediate_field _ _ _ _ _ H ltac:(auto)) as (v & _ & ->).
    apply Htrap; [|reflexivity]. apply (Z.mod_pos_bound v 256). lia.
Qed.

Lemma translated_word_not_failed a instr word :
  translate_regular_instruction a instr = ([], Ok word) ->
  forallb register_in_range (operands_ instr) = true ->
  word <> translation_failed.
Proof.
  intros H Hregs. destruct (translated_word_fields a instr word H Hregs) as [Hhigh Hlow].
  intros ->. change translation_failed with 65535 in *.
  change (65535 / 4096) with 15 in Hhigh. symmetry in Hhigh.
  specialize (Hlow Hhigh). change (65535 mod 4096) with 4095 in Hlow. lia.
Qed.

(** Property X6.  A word the encoder returns without a message, for an
    instruction whose register numbers are those of [R0..R7], is a 16-bit word
    that carries the opcode bits of the instruction in its four high bits and
    is never the failure sentinel [0xFFFF]. *)
Theorem translated_word_opcode a instr word :
  translate_regular_instruction a instr = ([], Ok word) ->
  forallb register_in_range (operands_ instr) = true ->
  0 <= word < 65536
  /\ word / 4096 = translate_opcode (opcode_ instr)
  /\ word <> translation_failed.
Proof.
  intros H Hregs. split; [|split].
  - destruct (translate_regular_instruction_quiet_or_failed a instr)
      as [[_ Hrange] | (diagnostic & Hfailed)].
    + apply Hrange. now rewrite H.
    + rewrite H in Hfailed. discriminate Hfailed.
  - exact (proj1 (translated_word_fields a instr word H Hregs)).
  - exact (translated_word_not_failed a instr word H Hregs).
Qed.

Lemma translated_word_opcode_witness :
  0 <= 4735 < 65536 /\ 4735 / 4096 = translate_opcode ADD /\ 4735 <> translation_failed.
Proof.
  exact (translated_word_opcode countdown_scanned
           (instruction "LOOP" ADD
              [Operand.of_register 1; Operand.of_register 1; Operand.of_immediate (-1)]
              12289)
           4735 eq_refl eq_refl).
Defined.

(** The encoder gives up only after a message. *)
Lemma translate_from_quiet_runs_to_end cs a instructions : forall results finished,
  Forall (fun instr => forallb register_in_range (operands_ instr) = true) instructions ->
  translate_from cs a instructions results = ([], Ok finished) ->
  exists out, finished = Some out.
Proof.
  induction instructions as [|instr rest IH]; intros results finished Hall H.
  - cbn in H. injection H as <-. eauto.
  - apply Forall_cons in Hall as [Hregs Hrest]. cbn [translate_from] in H.
    destruct (is_pseudo (get_opcode instr)).
    + destruct (translate_pseudo cs instr results) as [results'|f] eqn:Hp;
        [rewrite ebind_silent_Ok in H | discriminate H].
      exact (IH _ _ Hrest H).
    + destruct (translate_regular_instruction a instr) as [d1 [word|f]] eqn:Hw;
        cbn [ebind] in H; [|discriminate H].
      destruct (word =? translation_failed) eqn:Hfailed.
      * exfalso. cbn [silent] in H. injection H as Hd _.
        apply app_eq_nil in Hd as [-> _].
        apply Z.eqb_eq in Hfailed.
        exact (translated_word_not_failed a instr word Hw Hregs Hfailed).
      * destruct (translate_from cs a rest (results ++ [word])) as [d2 r2] eqn:Hrest'.
        injection H as Hd ->. apply app_eq_nil in Hd as [-> ->].
        exact (IH _ _ Hrest Hrest').
Qed.

Lemma validated_immediate_range instr v :
  validated instr ->
  Operand.of_immediate v ∈ operands_ instr ->
  fst (immediate_range instr) <= v <= snd (immediate_range instr).
Proof.
  intros Hv Hin. destruct (validated_accepts instr Hv) as (_ & _ & Hrange).
  rewrite Forall_forall in Hrange. exact (Hrange _ Hin v eq_refl).
Qed.

(** Property X7.  For a validated [LDR] or [STR] with registers of [R0..R7]
    the encoder writes no message and returns a word with the opcode in bits
    15..12, the first register in bits 11..9, the base register in bits 8..6
    and the offset in bits 5..0 in two's complement. *)
Theorem translate_base_offset_layout a instr r base offset6 :
  opcode_ instr = LDR \/ opcode_ instr = STR ->
  operands_ instr
  = [Operand.of_register r; Operand.of_register base; Operand.of_immediate offset6] ->
  validated instr ->
  forallb register_in_range (operands_ instr) = true ->
  exists word,
    translate_regular_instruction a instr = ([], Ok word)
    /\ word / 4096 = translate_opcode (opcode_ instr)
    /\ (word / 512) mod 8 = r
    /\ (word / 64) mod 8 = base
    /\ sign_extend 6 (word mod 64) = offset6.
Proof.
  intros Hop Hops Hv Hregs.
  assert (Hr : 0 <= r < 8).
  { apply (register_operand_in_range _ 0%nat _ Hregs). now rewrite Hops. }
  assert (Hbase : 0 <= base < 8).
  { apply (register_operand_in_range _ 1%nat _ Hregs). now rewrite Hops. }
  assert (Himm : -32 <= offset6 <= 31).
  { pose proof (validated_immediate_range instr offset6 Hv) as H.
    rewrite Hops in H. unfold immediate_range in H.
    destruct Hop as [Hop | Hop]; rewrite Hop in H; apply H;
      do 2 apply list_elem_of_further; apply list_elem_of_here. }
  destruct (register_field_bounds r 9 Hr ltac:(auto)) as [Er Br].
  destruct (register_field_bounds base 6 Hbase ltac:(auto)) as [Eb Bb].
  destruct (immediate_field_bounds offset6 6 ltac:(auto)) as [Ei Bi].
  change (2 ^ 9) with 512 in *. change (2 ^ 6) with 64 in *.
  unfold translate_regular_instruction, get_opcode, or_register, or_immediate,
    get_operand, translate_register, translate_immediate.
  rewrite Hops.
  assert (Hcode : translate_opcode (opcode_ instr) = 6 \/ translate_opcode (opcode_ instr) = 7)
    by (destruct Hop as [-> | ->]; auto).
  destruct Hop as [-> | ->];
    cbn [lookup list_lookup bind Operand.register_id Operand.immediate_value silent
         translate_opcode];
    rewrite Er, Eb, Ei;
    change (to_u16 (Z.shiftl 6 12)) with 24576; change (to_u16 (Z.shiftl 7 12)) with 28672;
    rewrite (lor_field _ (r * 512) 4096) by (auto; lia);
    rewrite (lor_field _ (base * 64) 512) by (auto; try lia; multiple_of);
    rewrite (lor_field _ (offset6 mod 64) 64) by (auto; try lia; multiple_of);
    (eexists; split; [reflexivity|]);
    (split; [Z.div_mod_to_equations; lia|]);
    (split; [Z.div_mod_to_equations; lia|]);
    (split; [Z.div_mod_to_equations; lia|]).
  - replace ((24576 + r * 512 + base * 64 + offset6 mod 64) mod 64) with (offset6 mod 64)
      by (Z.div_mod_to_equations; lia).
    apply (sign_extend_mod 6); lia.
  - replace ((28672 + r * 512 + base * 64 + offset6 mod 64) mod 64) with (offset6 mod 64)
      by (Z.div_mod_to_equations; lia).
    apply (sign_extend_mod 6); lia.
Qed.

Lemma translate_base_offset_layout_witness :
  exists word,
    translate_regular_instruction countdown_scanned
      (instruction "" LDR
         [Operand.of_register 3; Operand.of_register 6; Operand.of_immediate (-2)] 12289)
    = ([], Ok word)
    /\ word / 4096 = 6
    /\ (word / 512) mod 8 = 3
    /\ (word / 64) mod 8 = 6
    /\ sign_extend 6 (word mod 64) = -2.
Proof.
  exact (translate_base_offset_layout countdown_scanned
           (instruction "" LDR
              [Operand.of_register 3; Operand.of_register 6; Operand.of_immediate (-2)]
              12289)
           3 6 (-2) (or_introl eq_refl) eq_refl eq_refl eq_refl).
Defined.

(** Property X8.  With registers of [R0..R7]: [NOT] is encoded as [1001 dr sr
    111111], [JMP] and [JSRR] hold the base register in bits 8..6 under their
    opcode, [RET] is [1100 000 111 000000] and [RTI] is [1000 000000000000],
    whatever their operands. *)
Theorem translate_register_only_layout a instr :
  forallb register_in_range (operands_ instr) = true ->
  (forall dr sr,
      opcode_ instr = NOT ->
      operands_ instr = [Operand.of_register dr; Operand.of_register sr] ->
      translate_regular_instruction a instr
      = ([], Ok (4096 * 9 + 512 * dr + 64 * sr + 63)))
  /\ (forall base,
        opcode_ instr = JMP \/ opcode_ instr = JSRR ->
        operands_ instr = [Operand.of_register base] ->
        translate_regular_instruction a instr
        = ([], Ok (4096 * translate_opcode (opcode_ instr) + 64 * base)))
  /\ (opcode_ instr = RET ->
      translate_regular_instruction a instr = ([], Ok (4096 * 12 + 64 * 7)))
  /\ (opcode_ instr = RTI ->
      translate_regular_instruction a instr = ([], Ok (4096 * 8))).
Proof.
  intros Hregs. split; [|split; [|split]].
  - intros dr sr Hop Hops.
    assert (Hdr : 0 <= dr < 8).
    { apply (register_operand_in_range _ 0%nat _ Hregs). now rewrite Hops. }
    assert (Hsr : 0 <= sr < 8).
    { apply (register_operand_in_range _ 1%nat _ Hregs). now rewrite Hops. }
    destruct (register_field_bounds dr 9 Hdr ltac:(auto)) as [Ed Bd].
    destruct (register_field_bounds sr 6 Hsr ltac:(auto)) as [Es Bs].
    change (2 ^ 9) with 512 in *. change (2 ^ 6) with 64 in *.
    unfold translate_regular_instruction, get_opcode, or_register, get_operand,
      translate_register.
    rewrite Hop, Hops.
    cbn [lookup list_lookup bind Operand.register_id silent translate_opcode].
    rewrite Ed, Es. change (to_u16 (Z.shiftl 9 12)) with 36864.
    rewrite (lor_field _ (dr * 512) 4096) by (auto; lia).
    rewrite (lor_field _ (sr * 64) 512) by (auto; try lia; multiple_of).
    rewrite (lor_field _ 63 64) by (auto; try lia; multiple_of).
    do 2 f_equal. lia.
  - intros base Hop Hops.
    assert (Hbase : 0 <= base < 8).
    { apply (register_operand_in_range _ 0%nat _ Hregs). now rewrite Hops. }
    destruct (register_field_bounds base 6 Hbase ltac:(auto)) as [Eb Bb].
    change (2 ^ 6) with 64 in *.
    unfold translate_regular_instruction, get_opcode, or_register, get_operand,
      translate_register.
    rewrite Hops.
    destruct Hop as [-> | ->];
      cbn [lookup list_lookup bind Operand.register_id silent translate_opcode];
      rewrite Eb;
      change (to_u16 (Z.shiftl 12 12)) with 49152; change (to_u16 (Z.shiftl 4 12)) with 16384;
      rewrite (lor_field _ (base * 64) 4096) by (auto; lia);
      do 2 f_equal; lia.
  - intros Hop. unfold translate_regular_instruction, get_opcode. rewrite Hop. reflexivity.
  - intros Hop. unfold translate_regular_instruction, get_opcode. rewrite Hop. reflexivity.
Qed.

Lemma translate_register_only_layout_witness :
  translate_regular_instruction countdown_scanned
    (instruction "" NOT [Operand.of_register 4; Operand.of_register 5] 12289)
  = ([], Ok (4096 * 9 + 512 * 4 + 64 * 5 + 63)).
Proof.
  exact (proj1 (translate_register_only_layout countdown_scanned
                  (instruction "" NOT [Operand.of_register 4; Operand.of_register 5] 12289)
                  eq_refl)
               4 5 eq_refl eq_refl).
Defined.

Lemma translate_TRAP_word a instr v :
  opcode_ instr = TRAP ->
  operands_ instr = [Operand.of_immediate v] ->
  translate_regular_instruction a instr = ([], Ok (61440 + v mod 256)).
Proof.
  intros Hop Hops.
  destruct (immediate_field_bounds v 8 ltac:(auto)) as [Ei Bi].
  change (2 ^ 8) with 256 in *.
  unfold translate_regular_instruction, get_opcode, or_immediate, get_operand,
    translate_immediate.
  rewrite Hop, Hops.
  cbn [lookup list_lookup bind Operand.immediate_value silent translate_opcode].
  rewrite Ei. change (to_u16 (Z.shiftl 15 12)) with 61440.
  rewrite (lor_field _ (v mod 256) 256) by (auto; try lia; multiple_of).
  reflexivity.
Qed.

(** Property X9.  A validated [TRAP] has a vector in [0, 255] and is encoded
    as [0xF000 + vector]; each named trap ([GETC], [OUT], [PUTS], [IN],
    [PUTSP], [HALT]) is encoded as the [TRAP] with its vector ([x20..x25]);
    [RET] is encoded as [JMP R7]; a [BR] and the [BRnzp] with the same operand
    and address are encoded, when no message is written, as the same word. *)
Theorem translate_TRAP_and_aliases a :
  (forall trap v,
      opcode_ trap = TRAP -> operands_ trap = [Operand.of_immediate v] ->
      validated trap ->
      0 <= v <= 255
      /\ translate_regular_instruction a trap = ([], Ok (61440 + v)))
  /\ (forall alias trap vector,
        In (opcode_ alias, vector) trap_vectors ->
        opcode_ trap = TRAP -> operands_ trap = [Operand.of_immediate vector] ->
        translate_regular_instruction a alias = translate_regular_instruction a trap)
  /\ (forall ret jmp,
        opcode_ ret = RET ->
        opcode_ jmp = JMP -> operands_ jmp = [Operand.of_register 7] ->
        translate_regular_instruction a ret = translate_regular_instruction a jmp)
  /\ (forall br brnzp word,
        opcode_ br = BR -> opcode_ brnzp = BRnzp ->
        operands_ br = operands_ brnzp -> address_ br = address_ brnzp ->
        translate_regular_instruction a br = ([], Ok word)
        <-> translate_regular_instruction a brnzp = ([], Ok word)).
Proof.
  split; [|split; [|split]].
  - intros trap v Hop Hops Hv.
    assert (Hrange : 0 <= v <= 255).
    { pose proof (validated_immediate_range trap v Hv) as H.
      rewrite Hops in H. unfold immediate_range in H. rewrite Hop in H.
      apply H. apply list_elem_of_here. }
    split; [exact Hrange|].
    rewrite (translate_TRAP_word a trap v Hop Hops).
    now rewrite Z.mod_small by lia.
  - intros alias trap vector Hin Hop Hops.
    rewrite (translate_TRAP_word a trap vector Hop Hops).
    unfold translate_regular_instruction, get_opcode.
    cbn [trap_vectors In] in Hin.
    repeat destruct Hin as [[= <- <-] | Hin]; try contradiction; reflexivity.
  - intros ret jmp Hret Hjmp Hops.
    unfold translate_regular_instruction, get_opcode, or_register, get_operand,
      translate_register.
    rewrite Hret, Hjmp, Hops. reflexivity.
  - intros br brnzp word Hbr Hbrnzp Hops Haddr.
    unfold translate_regular_instruction, get_opcode, or_label, translate_label,
      get_operand, get_address.
    rewrite Hbr, Hbrnzp, Hops, Haddr. cbn [translate_opcode].
    destruct (operands_ brnzp !! 0%nat) as [o|]; cbn [silent ebind]; [|tauto].
    destruct (Operand.label o) as [l|]; cbn [silent ebind]; [|tauto].
    destruct (symbol_table_ a !! l); [|split; discriminate].
    destruct (_ || _); [split; discriminate | tauto].
Qed.

Lemma offset_field_bounds offset bits :
  bits = 9 \/ bits = 11 -> 0 <= offset mod 2 ^ bits < 2 ^ bits.
Proof. intros [-> | ->]; apply Z.mod_pos_bound; lia. Qed.

(** Property X10.  For an instruction whose label is in the symbol table at
    address [L], with an offset [L - address - 1] that fits the field: a
    branch is encoded as its condition bits [n], [z], [p] in bits 11..9 and
    the offset in bits 8..0; [JSR] as [0100 1] and the offset in bits 10..0;
    [LD], [LDI], [LEA], [ST] and [STI] as the opcode, the register in bits
    11..9 and the offset in bits 8..0; the field read back in two's complement
    is the offset. *)
Theorem translate_pc_relative_layout a instr idx bits l L :
  label_field (opcode_ instr) = Some (idx, bits) ->
  operands_ instr !! idx = Some (Operand.of_label l) ->
  symbol_table_ a !! l = Some L ->
  forallb register_in_range (operands_ instr) = true ->
  let offset := to_i16 (L - address_ instr - 1) in
  fits_signed bits offset = true ->
  (forall n z p,
      condition_codes (opcode_ instr) = Some (n, z, p) ->
      translate_regular_instruction a instr
      = ([], Ok (2048 * n + 1024 * z + 512 * p + offset mod 512)))
  /\ (opcode_ instr = JSR ->
      translate_regular_instruction a instr
      = ([], Ok (4096 * 4 + 2048 + offset mod 2048)))
  /\ (forall r,
        is_load_store (opcode_ instr) = true ->
        operands_ instr !! 0%nat = Some (Operand.of_register r) ->
        translate_regular_instruction a instr
        = ([], Ok (4096 * translate_opcode (opcode_ instr) + 512 * r + offset mod 512)))
  /\ sign_extend bits (offset mod 2 ^ bits) = offset.
Proof.
  intros Hfield Hop Hsym Hregs offset Hfits.
  assert (Hbits : bits = 9 \/ bits = 11).
  { unfold label_field in Hfield. destruct (opcode_ instr); try discriminate;
      injection Hfield as <- <-; auto. }
  assert (Hor := fun base => or_label_resolved a instr idx bits l L base Hbits Hop Hsym).
  cbv zeta in Hor. fold offset in Hor. rewrite Hfits in Hor.
  pose proof (offset_field_bounds offset bits Hbits) as Hb.
  split; [|split; [|split]].
  - intros n z p Hcc.
    unfold translate_regular_instruction, get_opcode.
    destruct (opcode_ instr) eqn:Hopc; try discriminate Hcc;
      injection Hcc as <- <- <-; injection Hfield as <- <-;
      change (2 ^ 9) with 512 in *;
      try (rewrite Hor; do 2 f_equal;
           match goal with |- Z.lor ?b _ = _ =>
             let v := eval vm_compute in b in change b with v end;
           rewrite (lor_field _ (offset mod 512) 512) by field_side; lia).
    (* BRz *)
    unfold get_operand. rewrite Hop, ebind_silent_Ok.
    cbn [Operand.type Operand.OperandType_eqb]. rewrite Hor. do 2 f_equal.
    match goal with |- Z.lor ?b _ = _ =>
      let v := eval vm_compute in b in change b with v end.
    rewrite (lor_field _ (offset mod 512) 512) by field_side. lia.
  - intros HJSR. rewrite HJSR in Hfield. injection Hfield as <- <-.
    unfold translate_regular_instruction, get_opcode. rewrite HJSR, Hor.
    do 2 f_equal. change (2 ^ 11) with 2048 in *.
    match goal with |- Z.lor ?b _ = _ =>
      let v := eval vm_compute in b in change b with v end.
    rewrite (lor_field _ (offset mod 2048) 2048) by field_side. lia.
  - intros r Hls Hr.
    assert (Hrange : 0 <= r < 8) by exact (register_operand_in_range _ _ _ Hregs Hr).
    destruct (register_field_bounds r 9 Hrange ltac:(auto)) as [Er Br].
    change (2 ^ 9) with 512 in *.
    unfold translate_regular_instruction, get_opcode, or_register, get_operand,
      translate_register.
    destruct (opcode_ instr) eqn:Hopc; try discriminate Hls;
      injection Hfield as <- <-; rewrite Hr;
      cbn [bind Operand.register_id silent translate_opcode];
      rewrite ebind_silent_Ok, Er, Hor; do 2 f_equal;
      change (2 ^ 9) with 512 in *;
      match goal with |- Z.lor (Z.lor ?b _) _ = _ =>
        let v := eval vm_compute in b in change b with v end;
      rewrite (lor_field _ (r * 512) 4096) by field_side;
      rewrite (lor_field _ (offset mod 512) 512) by field_side;
      lia.
  - unfold fits_signed in Hfits. apply andb_true_iff in Hfits as [Hlo Hhi].
    apply Z.leb_le in Hlo, Hhi.
    apply sign_extend_mod; destruct Hbits as [-> | ->]; lia.
Qed.

Lemma translate_pc_relative_layout_witness :
  translate_regular_instruction countdown_scanned
    (instruction "" BRp [Operand.of_label "LOOP"] 12290)
  = ([], Ok (2048 * 0 + 1024 * 0 + 512 * 1 + to_i16 (12289 - 12290 - 1) mod 512)).
Proof.
  exact (proj1 (translate_pc_relative_layout countdown_scanned
                  (instruction "" BRp [Operand.of_label "LOOP"] 12290)
                  0%nat 9 "LOOP"%string 12289 eq_refl eq_refl eq_refl eq_refl eq_refl)
               0 0 1 eq_refl).
Defined.

(** Property X11.  A validated [BRz] with an immediate operand [v] is encoded
    without a message as [0000 010] and [v] in bits 8..0; the field read back
    in two's complement is [v]. *)
Theorem translate_BRz_immediate a instr v :
  opcode_ instr = BRz ->
  operands_ instr = [Operand.of_immediate v] ->
  validated instr ->
  translate_regular_instruction a instr = ([], Ok (1024 + v mod 512))
  /\ sign_extend 9 (v mod 512) = v.
Proof.
  intros Hop Hops Hv.
  assert (Hrange : -256 <= v <= 255).
  { pose proof (validated_immediate_range instr v Hv) as H.
    rewrite Hops in H. unfold immediate_range in H. rewrite Hop in H.
    apply H. apply list_elem_of_here. }
  destruct (immediate_field_bounds v 9 ltac:(auto)) as [Ei Bi].
  change (2 ^ 9) with 512 in *.
  split; [|apply (sign_extend_mod 9); lia].
  unfold translate_regular_instruction, get_opcode, or_immediate, get_operand,
    translate_immediate.
  rewrite Hop, Hops.
  cbn [lookup list_lookup bind ebind silent Operand.immediate_value translate_opcode
       Operand.type Operand.OperandType_eqb app].
  rewrite Ei. do 2 f_equal.
  match goal with |- Z.lor ?b _ = _ =>
    let v := eval vm_compute in b in change b with v end.
  rewrite (lor_field _ (v mod 512) 512) by field_side. lia.
Qed.

Lemma translate_BRz_immediate_witness :
  translate_regular_instruction countdown_scanned
    (instruction "" BRz [Operand.of_immediate (-3)] 12290)
  = ([], Ok (1024 + (-3) mod 512))
  /\ sign_extend 9 ((-3) mod 512) = -3.
Proof.
  exact (translate_BRz_immediate countdown_scanned
           (instruction "" BRz [Operand.of_immediate (-3)] 12290) (-3)
           eq_refl eq_refl eq_refl).
Defined.

(** *** Validated instructions reach no failed assertion *)

Lemma validated_signature instr :
  validated instr ->
  In (map Operand.type (operands_ instr)) (expected_operand_types instr).
Proof. intros Hv. apply (validated_accepts instr Hv). Qed.

Ltac known_types H :=
  repeat match type of H with
         | _ \/ _ => destruct H as [H | H]
         end;
  try contradiction.

Lemma translate_validated_returns a instr :
  validated instr ->
  (is_branch (opcode_ instr) = true -> opcode_ instr <> BRz ->
   forall v, operands_ instr <> [Operand.of_immediate v]) ->
  exists d word, translate_regular_instruction a instr = (d, Ok word).
Proof.
  intros Hv Hbr. pose proof (validated_signature instr Hv) as Hin.
  destruct instr as [lbl ops op addr]. cbn [opcode_ operands_] in *.
  unfold translate_regular_instruction, get_opcode. cbn [opcode_].
  destruct op; cbn [expected_operand_types opcode_ In] in Hin;
    try (do 2 eexists; reflexivity);
    known_types Hin;
    (destruct ops as [|o1 [|o2 [|o3 [|o4 ops]]]]; try discriminate Hin);
    repeat match goal with o : Operand.Operand |- _ => destruct o end;
    try discriminate Hin; clear Hin;
    try (exfalso; eapply Hbr; [reflexivity | discriminate | reflexivity]);
    unfold or_register, or_immediate, or_label, translate_label, get_operand,
      translate_register, translate_immediate, get_address;
    cbn [operands_ address_ lookup list_lookup bind ebind silent Operand.register_id
         Operand.immediate_value Operand.label Operand.type Operand.OperandType_eqb app];
    try (do 2 eexists; reflexivity);
    repeat match goal with
           | |- context [symbol_table_ a !! ?l] => destruct (symbol_table_ a !! l)
           | |- context [if ?b then _ else _] => destruct b
           end;
    do 2 eexists; reflexivity.
Qed.

(** Property X12.  On a validated instruction that is no branch on an
    immediate operand the encoder does not fault: it returns a 16-bit word,
    with no message, or with one message and the sentinel [0xFFFF]. *)
Theorem translate_regular_instruction_returns a instr :
  validated instr ->
  ~ branch_on_immediate_operand instr ->
  exists d word,
    translate_regular_instruction a instr = (d, Ok word)
    /\ 0 <= word < 65536
    /\ (d = [] \/ exists diagnostic, d = [diagnostic] /\ word = translation_failed).
Proof.
  intros Hv Hb.
  destruct (translate_validated_returns a instr Hv) as (d & word & H).
  { intros Hbr HBRz v Hops. apply Hb. split; [exact Hbr|]. split; [exact HBRz|]. eauto. }
  exists d, word. split; [exact H|].
  destruct (translate_regular_instruction_quiet_or_failed a instr)
    as [[Hd Hrange] | (diagnostic & Hfailed)]; rewrite H in *.
  - split; [now apply Hrange | left; exact Hd].
  - injection Hfailed as -> ->. split; [vm_compute; split; congruence | right; eauto].
Qed.

Lemma translate_regular_instruction_returns_witness :
  exists d word,
    translate_regular_instruction countdown_scanned
      (instruction "" BRp [Operand.of_label "NOWHERE"] 12290) = (d, Ok word)
    /\ 0 <= word < 65536
    /\ (d = [] \/ exists diagnostic, d = [diagnostic] /\ word = translation_failed).
Proof.
  apply translate_regular_instruction_returns; [reflexivity|].
  intros (_ & _ & v & Hoperands). discriminate Hoperands.
Defined.

(** *** The assembler returns *)

Lemma validated_set_address instr x : validated instr -> validated (set_address instr x).
Proof.
  intros Hv. destruct (validated_accepts instr Hv) as (Hl & Hin & Hrange).
  apply accepts_validated; destruct instr; assumption.
Qed.

Lemma encodable_set_address instr x : encodable instr -> encodable (set_address instr x).
Proof.
  intros (Hv & Hb & Hk). split; [now apply validated_set_address|].
  split; destruct instr; assumption.
Qed.

Lemma emitted_words_set_address instr x :
  emitted_words (set_address instr x) = emitted_words instr.
Proof. destruct instr. reflexivity. Qed.

Lemma emitted_words_nonneg instr : encodable instr -> 0 <= emitted_words instr.
Proof.
  intros (Hv & _ & Hk). unfold emitted_words, address_increment.
  destruct (opcode_ instr) eqn:Hop; try lia.
  - destruct (validated_BLKW instr Hv Hop) as (k & Hops & _). rewrite Hops.
    destruct (Z.neg_nonneg_cases k) as [Hneg | Hpos]; [|exact Hpos].
    exfalso. apply Hk. split; [exact Hop|]. eauto.
  - destruct (validated_STRINGZ instr Hv Hop) as (s & Hops). rewrite Hops. lia.
Qed.

Lemma total_words_nonneg instructions :
  Forall encodable instructions -> 0 <= total_words instructions.
Proof.
  induction 1 as [|instr rest He _ IH]; cbn; [lia|].
  pose proof (emitted_words_nonneg instr He). unfold total_words in IH. lia.
Qed.

Lemma length_string_words cs s : length (string_words cs s) = String.length s.
Proof. induction s as [|c s IH]; cbn; [reflexivity | now rewrite IH]. Qed.

(** A directive of an encodable program appends the words counted for it. *)
Lemma translate_pseudo_encodable cs instr results :
  encodable instr ->
  is_pseudo (opcode_ instr) = true ->
  Z.of_nat (length results) + emitted_words instr <= vector_max_size ->
  exists more,
    translate_pseudo cs instr results = Ok (results ++ more)
    /\ Z.of_nat (length more) = emitted_words instr.
Proof.
  intros He Hp Hmax. pose proof (emitted_words_nonneg instr He) as Hnonneg.
  destruct He as (Hv & _ & _).
  unfold translate_pseudo, get_opcode, get_operand, emitted_words, address_increment in *.
  destruct (opcode_ instr) eqn:Hop; try discriminate Hp.
  - exists []. split; [now rewrite app_nil_r | reflexivity].
  - destruct (validated_accepts instr Hv) as (_ & Hin & _).
    unfold expected_operand_types in Hin. rewrite Hop in Hin.
    cbn in Hin. destruct Hin as [Hin | []].
    destruct (operands_ instr) as [|[| v | | |] [|o2 ops]]; try discriminate Hin.
    cbn. eexists. split; reflexivity.
  - destruct (validated_BLKW instr Hv Hop) as (k & Hops & _). rewrite Hops in *.
    cbn [lookup list_lookup bind Operand.regular_decimal]. unfold resize, to_size_t.
    rewrite Z.mod_small
      by (pose proof vector_max_size_value; split; [lia|]; change (2 ^ 64) with 18446744073709551616; lia).
    destruct (Z.leb_spec (Z.of_nat (length results) + k) (Z.of_nat (length results))).
    + assert (k = 0) by lia. subst k. exists []. rewrite Z.add_0_r, Nat2Z.id.
      rewrite firstn_all. split; [now rewrite app_nil_r | reflexivity].
    + destruct (Z.leb_spec (Z.of_nat (length results) + k) vector_max_size); [|lia].
      eexists. split; [reflexivity|]. rewrite length_replicate. lia.
  - destruct (validated_STRINGZ instr Hv Hop) as (s & Hops). rewrite Hops in *.
    cbn [lookup list_lookup bind Operand.string_literal].
    exists (string_words cs s ++ [0]). split; [now rewrite app_assoc|].
    rewrite length_app, length_string_words. cbn [length]. lia.
  - exists []. split; [now rewrite app_nil_r | reflexivity].
Qed.

Lemma emitted_words_regular instr :
  is_pseudo (opcode_ instr) = false -> emitted_words instr = 1.
Proof.
  unfold emitted_words, address_increment.
  destruct (opcode_ instr); try discriminate; reflexivity.
Qed.

Lemma encodable_translate_returns a instr :
  encodable instr ->
  exists d word, translate_regular_instruction a instr = (d, Ok word).
Proof.
  intros (Hv & Hb & _). apply translate_validated_returns; [exact Hv|].
  intros Hbr HBRz v Hops. apply Hb. split; [exact Hbr|]. split; [exact HBRz|]. eauto.
Qed.

(** The encoding loop of an encodable program returns; when it runs to its
    end, it has appended the words counted for the instructions. *)
Lemma translate_from_encodable cs a instructions : forall results,
  Forall encodable instructions ->
  Z.of_nat (length results) + total_words instructions <= vector_max_size ->
  exists d finished,
    translate_from cs a instructions results = (d, Ok finished)
    /\ forall out, finished = Some out ->
         exists more, out = results ++ more
                      /\ Z.of_nat (length more) = total_words instructions.
Proof.
  induction instructions as [|instr rest IH]; intros results Hall Hmax.
  - exists [], (Some results). split; [reflexivity|]. intros out [= <-].
    exists []. split; [now rewrite app_nil_r | reflexivity].
  - apply Forall_cons in Hall as [He Hrest].
    pose proof (emitted_words_nonneg instr He) as Hn.
    pose proof (total_words_nonneg rest Hrest) as Hr.
    cbn [total_words fold_right] in Hmax. fold (total_words rest) in Hmax.
    cbn [translate_from]. unfold get_opcode.
    destruct (is_pseudo (opcode_ instr)) eqn:Hp.
    + destruct (translate_pseudo_encodable cs instr results He Hp ltac:(lia))
        as (more & -> & Hmore).
      rewrite ebind_silent_Ok.
      destruct (IH (results ++ more) Hrest) as (d & finished & -> & Hout).
      { rewrite length_app. lia. }
      exists d, finished. split; [reflexivity|]. intros out Hf.
      destruct (Hout out Hf) as (more' & -> & Hmore').
      exists (more ++ more'). split; [now rewrite app_assoc|].
      rewrite length_app. cbn [total_words fold_right]. fold (total_words rest). lia.
    + destruct (encodable_translate_returns a instr He) as (d1 & word & ->).
      cbn [ebind]. pose proof (emitted_words_regular instr Hp) as Hone.
      destruct (word =? translation_failed).
      * exists (d1 ++ []), None. split; [reflexivity | discriminate].
      * destruct (IH (results ++ [word]) Hrest) as (d & finished & -> & Hout).
        { rewrite length_app. cbn [length]. lia. }
        exists (d1 ++ d), finished. split; [reflexivity|]. intros out Hf.
        destruct (Hout out Hf) as (more' & -> & Hmore').
        exists (word :: more'). split; [now rewrite <- app_assoc|].
        cbn [length total_words fold_right]. fold (total_words rest). lia.
Qed.

Lemma assigned_pointwise instructions : forall assigned,
  length assigned = length instructions ->
  (forall i instr, instructions !! i = Some instr ->
     exists x, assigned !! i = Some (set_address instr x)) ->
  Forall2 (fun instr instr' => exists x, instr' = set_address instr x)
          instructions assigned.
Proof.
  induction instructions as [|instr rest IH]; intros [|instr' rest'] Hlen Hpoint;
    try discriminate Hlen; constructor.
  - destruct (Hpoint 0%nat instr eq_refl) as (x & [= ->]). eauto.
  - apply IH; [now injection Hlen|]. intros i instr0 Hi. exact (Hpoint (S i) instr0 Hi).
Qed.

Lemma assigned_encodable instructions assigned :
  Forall2 (fun instr instr' => exists x, instr' = set_address instr x)
          instructions assigned ->
  Forall encodable instructions ->
  Forall encodable assigned /\ total_words assigned = total_words instructions.
Proof.
  induction 1 as [|instr instr' rest rest' (x & ->) _ IH]; intros Hall;
    [split; [constructor | reflexivity]|].
  apply Forall_cons in Hall as [He Hrest]. destruct (IH Hrest) as [Hall' Htotal].
  split; [constructor; [now apply encodable_set_address | exact Hall']|].
  cbn [total_words fold_right]. fold (total_words rest') (total_words rest).
  now rewrite emitted_words_set_address, Htotal.
Qed.

Lemma assigned_registers instructions assigned :
  Forall2 (fun instr instr' => exists x, instr' = set_address instr x)
          instructions assigned ->
  Forall (fun instr => forallb register_in_range (operands_ instr) = true) instructions ->
  Forall (fun instr => forallb register_in_range (operands_ instr) = true) assigned.
Proof.
  induction 1 as [|instr instr' rest rest' (x & ->) _ IH]; intros Hall; [constructor|].
  apply Forall_cons in Hall as [Hi Hrest]. constructor; [exact Hi | now apply IH].
Qed.

(** Property X13.  On a program without a branch on an immediate operand and
    without a negative [.BLKW], [Assembler::run] returns: with one message and
    no word, or with no message and, the register numbers being those of
    [R0..R7], as many words as the instructions count. *)
Theorem run_emits_counted_words cs a :
  instructions_ a <> [] ->
  Forall (fun instr => ~ branch_on_immediate_operand instr /\ ~ negative_BLKW instr)
         (instructions_ a) ->
  total_words (instructions_ a) <= vector_max_size ->
  exists d a' binary,
    run cs a = (d, Ok (a', binary))
    /\ ((exists diagnostic, d = [diagnostic] /\ binary = [])
        \/ (d = []
            /\ (Forall (fun instr => forallb register_in_range (operands_ instr) = true)
                       (instructions_ a) ->
                Z.of_nat (length binary) = total_words (instructions_ a)))).
Proof.
  intros Hnonempty Hsafe Hmax. unfold run.
  destruct (any_invalid_reports (instructions_ a)) as [Hany | (diagnostic & ->)].
  2:{ cbn [ebind silent app]. do 3 eexists. split; [reflexivity|]. left. eauto. }
  destruct (any_invalid_returns (instructions_ a)) as (d0 & invalid & Hany' & Hvalid).
  rewrite Hany in Hany'. injection Hany' as <- <-. rewrite Hany.
  destruct (Hvalid eq_refl) as [_ Hv]. clear Hvalid Hany.
  rewrite ebind_quiet_Ok.
  destruct (instructions_ a) as [|front others] eqn:Hinstrs; [contradiction|].
  destruct (is_ORIG front) eqn:HORIG; cbn [negb];
    [|do 3 eexists; split; [reflexivity|]; left; eauto].
  destruct (existsb is_ORIG others);
    [do 3 eexists; split; [reflexivity|]; left; eauto|].
  assert (Hop : opcode_ front = ORIG).
  { unfold is_ORIG, Opcode_eqb, get_opcode in HORIG.
    destruct (Opcode_eq_dec (opcode_ front) ORIG); [assumption | discriminate]. }
  pose proof (Forall_inv Hv) as Hfront.
  destruct (validated_ORIG front Hfront Hop) as (v & Hops & _).
  destruct (assign_addresses_from_spec (front :: others) Hv (to_u16 v))
    as (assigned & Hassign & Hlen & Hpoint & _).
  unfold assign_addresses, get_operand. rewrite Hinstrs, Hops.
  cbn [lookup list_lookup bind Operand.immediate_value]. rewrite Hassign. cbn [bind].
  rewrite ebind_silent_Ok.
  unfold scan_label. cbn [instructions_ symbol_table_].
  destruct (scan_label_from_reports assigned (symbol_table_ a))
    as [(table & ->) | (diagnostic & table & ->)]; cbn [ebind app negb];
    [|do 3 eexists; split; [reflexivity|]; left; eauto].
  assert (Hencodable : Forall encodable (front :: others)).
  { clear -Hv Hsafe. induction Hv as [|instr rest Hi _ IH]; [constructor|].
    apply Forall_cons in Hsafe as [[Hb Hk] Hrest].
    constructor; [repeat split; assumption | now apply IH]. }
  pose proof (assigned_pointwise _ _ Hlen Hpoint) as Hsame.
  destruct (assigned_encodable _ _ Hsame Hencodable) as [Hall Htotal].
  unfold translate. cbn [instructions_].
  set (a2 := {| instructions_ := assigned; symbol_table_ := table |}).
  destruct (translate_from_encodable cs a2 assigned [] Hall)
    as (d2 & finished & Htranslate & Hout).
  { cbn [length]. rewrite Htotal. lia. }
  destruct (translate_from_reports cs a2 assigned []) as [Hd | (diagnostic & Hd)].
  - rewrite Htranslate in Hd |- *. cbn [fst] in Hd. subst d2.
    cbn [ebind silent app]. do 3 eexists. split; [reflexivity|]. right.
    split; [reflexivity|]. intros Hregs.
    destruct (translate_from_quiet_runs_to_end cs a2 assigned [] finished
                (assigned_registers _ _ Hsame Hregs) Htranslate) as (out & ->).
    destruct (Hout out eq_refl) as (more & -> & Hmore).
    cbn [app]. now rewrite Hmore, Htotal.
  - rewrite Hd. cbn [ebind silent app]. do 3 eexists. split; [reflexivity|]. left. eauto.
Qed.

Lemma run_emits_counted_words_witness :
  exists d a' binary,
    run true (new_Assembler data_block) = (d, Ok (a', binary))
    /\ ((exists diagnostic, d = [diagnostic] /\ binary = [])
        \/ (d = []
            /\ (Forall (fun instr => forallb register_in_range (operands_ instr) = true)
                       data_block ->
                Z.of_nat (length binary) = 8))).
Proof.
  apply (run_emits_counted_words true (new_Assembler data_block)).
  - discriminate.
  - repeat (apply Forall_cons_2 || apply Forall_nil_2);
      (split;
       [ intros (Hbranch & _ & v & Hoperands);
         first [discriminate Hbranch | discriminate Hoperands]
       | intros (Hopcode & k & Hoperands & Hk);
         first [discriminate Hopcode | injection Hoperands as <-; lia] ]).
  - vm_compute. discriminate.
Defined.

(** *** Pass 1 counts the words of pass 2 *)

Lemma to_u16_add_r a b : to_u16 (a + to_u16 b) = to_u16 (a + b).
Proof. unfold to_u16. apply Zplus_mod_idemp_r. Qed.

Lemma assign_addresses_from_at pre : forall address instr post assigned,
  0 <= address < 65536 ->
  Forall validated pre ->
  assign_addresses_from address (pre ++ instr :: post) = Ok assigned ->
  assigned !! length pre
  = Some (set_address instr
            (to_u16 (address + fold_right (fun i n => address_increment i + n) 0 pre))).
Proof.
  induction pre as [|first pre IH]; intros address instr post assigned Haddr Hv H.
  - cbn [app assign_addresses_from] in H.
    destruct (next_address address (set_address instr address)); [|discriminate].
    cbn [bind] in H. destruct (assign_addresses_from _ post); [|discriminate].
    injection H as <-. cbn. rewrite Z.add_0_r. unfold to_u16.
    now rewrite Z.mod_small by lia.
  - apply Forall_cons in Hv as [Hfirst Hv].
    cbn [app assign_addresses_from] in H.
    rewrite next_address_set_address, (next_address_validated _ _ Hfirst) in H.
    cbn [bind] in H.
    destruct (assign_addresses_from _ (pre ++ instr :: post)) as [rest|] eqn:E;
      [|discriminate].
    injection H as <-. cbn [length lookup list_lookup fold_right].
    change (rest !! length pre
            = Some (set_address instr
                      (to_u16 (address
                               + (address_increment first
                                  + fold_right (fun i n => address_increment i + n) 0 pre))))).
    rewrite (IH _ _ _ _ (to_u16_bounds _) Hv E). f_equal. f_equal.
    rewrite to_u16_add_l. f_equal. lia.
Qed.

Lemma address_increment_emitted pre :
  Forall (fun i => opcode_ i <> ORIG /\ opcode_ i <> END) pre ->
  fold_right (fun i n => address_increment i + n) 0 pre = total_words pre.
Proof.
  induction 1 as [|instr rest [HO HE] _ IH]; [reflexivity|].
  cbn [fold_right total_words]. fold (total_words rest). rewrite IH. f_equal.
  unfold emitted_words. destruct (opcode_ instr); try reflexivity; contradiction.
Qed.

(** Property X14.  Pass 1 gives an instruction the origin, plus one for
    [.ORIG], plus the number of words pass 2 emits for the instructions
    between [.ORIG] and it, modulo 2^16. *)
Theorem assigned_address_counts_words a front pre instr post :
  instructions_ a = front :: pre ++ instr :: post ->
  opcode_ front = ORIG ->
  Forall validated (instructions_ a) ->
  Forall (fun i => opcode_ i <> ORIG /\ opcode_ i <> END) pre ->
  exists origin a',
    operands_ front = [Operand.of_immediate origin]
    /\ assign_addresses a = Ok a'
    /\ start_address a' = Ok (to_u16 origin)
    /\ instructions_ a' !! S (length pre)
       = Some (set_address instr (to_u16 (origin + 1 + total_words pre))).
Proof.
  intros Hprog Hfront Hall Hpre. rewrite Hprog in Hall.
  pose proof Hall as Hall'. apply Forall_cons in Hall' as [Hvfront Hvrest].
  apply Forall_app in Hvrest as [Hvpre _].
  destruct (validated_ORIG front Hvfront Hfront) as (origin & Hops & _).
  destruct (assign_addresses_from_spec _ Hall (to_u16 origin))
    as (assigned & Hassigned & _ & _ & Hfirst & _).
  exists origin, {| instructions_ := assigned; symbol_table_ := symbol_table_ a |}.
  split; [exact Hops|]. split.
  { unfold assign_addresses. rewrite Hprog. unfold get_operand. rewrite Hops.
    change ([Operand.of_immediate origin] !! 0%nat) with (Some (Operand.of_immediate origin)).
    cbn [bind Operand.immediate_value]. rewrite <- Hprog in Hassigned |- *.
    rewrite Hassigned. reflexivity. }
  pose proof (assign_addresses_from_at (front :: pre) (to_u16 origin) instr post assigned
                (to_u16_bounds _) (Forall_cons_2 _ _ _ Hvfront Hvpre) Hassigned) as Hat.
  split.
  { unfold start_address. cbn [instructions_].
    destruct assigned as [|first assigned]; [discriminate Hat|].
    unfold get_address. now rewrite (Hfirst first eq_refl). }
  cbn [instructions_]. cbn [length] in Hat. rewrite Hat. do 2 f_equal.
  cbn [fold_right]. rewrite (address_increment_emitted pre Hpre).
  replace (address_increment front) with 1
    by (unfold address_increment; now rewrite Hfront).
  rewrite to_u16_add_l. f_equal. lia.
Qed.

Lemma assigned_address_counts_words_witness :
  exists origin a',
    [Operand.of_immediate 12288] = [Operand.of_immediate origin]
    /\ assign_addresses (new_Assembler data_block) = Ok a'
    /\ start_address a' = Ok (to_u16 origin)
    /\ instructions_ a' !! 4%nat = Some (instruction "" HALT [] (to_u16 (origin + 1 + 7))).
Proof.
  exact (assigned_address_counts_words (new_Assembler data_block)
           (instruction "" ORIG [Operand.of_immediate 12288] 0)
           [ instruction "" FILL [Operand.of_immediate 7] 0;
             instruction "" BLKW [Operand.of_number 3] 0;
             instruction "" STRINGZ [Operand.of_string_literal "Hi"] 0 ]
           (instruction "" HALT [] 0)
           [ instruction "" END [] 0 ]
           eq_refl eq_refl
           ltac:(repeat constructor)
           ltac:(repeat constructor; discriminate)).
Defined.

(** *** The symbol table *)

Lemma labels_cons instr rest :
  labels (instr :: rest)
  = if has_label instr then get_label instr :: labels rest else labels rest.
Proof.
  unfold labels. rewrite filter_cons.
  destruct (decide (has_label instr = true)) as [-> | Hn]; [reflexivity|].
  destruct (has_label instr); [contradiction | reflexivity].
Qed.

(** A scan that succeeds has met pairwise distinct labels, none of them in
    the table before, and has entered each with the address of its
    instruction; every other key is as before. *)
Lemma scan_label_from_success instructions : forall table table',
  scan_label_from instructions table = ([], (table', true)) ->
  NoDup (labels instructions)
  /\ (forall l, l ∈ labels instructions -> table !! l = None)
  /\ (forall instr, instr ∈ instructions -> has_label instr = true ->
        table' !! get_label instr = Some (get_address instr))
  /\ (forall l, l ∉ labels instructions -> table' !! l = table !! l).
Proof.
  induction instructions as [|instr rest IH]; intros table table' H.
  - cbn in H. injection H as <-. unfold labels. cbn.
    repeat split; [constructor | intros l Hl; inversion Hl | intros i Hi; inversion Hi].
  - cbn [scan_label_from] in H. rewrite labels_cons.
    destruct (has_label instr) eqn:Hl.
    + unfold add_label in H.
      destruct (table !! get_label instr) eqn:Hfresh; cbn [negb] in H; [discriminate|].
      destruct (IH _ _ H) as (Hnodup & Hnew & Hin & Hout).
      assert (Hnotin : get_label instr ∉ labels rest).
      { intros Hmem. specialize (Hnew _ Hmem). rewrite lookup_insert_eq in Hnew.
        discriminate. }
      split; [constructor; assumption|]. split; [|split].
      * intros l [-> | Hmem]%elem_of_cons; [exact Hfresh|].
        specialize (Hnew l Hmem).
        rewrite lookup_insert_ne in Hnew; [exact Hnew|]. intros <-. contradiction.
      * intros i [-> | Hmem]%elem_of_cons Hi; [|now apply Hin].
        rewrite (Hout _ Hnotin). apply lookup_insert_eq.
      * intros l [Hne Hmem]%not_elem_of_cons. rewrite (Hout l Hmem).
        now apply lookup_insert_ne.
    + destruct (IH _ _ H) as (Hnodup & Hnew & Hin & Hout).
      split; [exact Hnodup|]. split; [exact Hnew|]. split; [|exact Hout].
      intros i [-> | Hmem]%elem_of_cons Hi; [congruence | now apply Hin].
Qed.

(** A scan that fails stops at the first instruction whose label is in the
    table already, entered by an earlier instruction or there from before. *)
Lemma scan_label_from_failure instructions : forall table table' d,
  scan_label_from instructions table = (d, (table', false)) ->
  exists pre instr post,
    instructions = pre ++ instr :: post
    /\ d = [label_redefined instr]
    /\ has_label instr = true
    /\ NoDup (labels pre)
    /\ (forall l, l ∈ labels pre -> table !! l = None)
    /\ (get_label instr ∈ labels pre \/ table !! get_label instr <> None).
Proof.
  induction instructions as [|instr rest IH]; intros table table' d H; [discriminate|].
  cbn [scan_label_from] in H.
  destruct (has_label instr) eqn:Hl.
  - unfold add_label in H.
    destruct (table !! get_label instr) eqn:Hfresh; cbn [negb] in H.
    + injection H as <- <-. exists [], instr, rest.
      split; [reflexivity|]. split; [reflexivity|]. split; [assumption|].
      split; [constructor|]. split; [intros l Hm; inversion Hm | right; congruence].
    + destruct (IH _ _ _ H) as (pre & i & post & -> & -> & Hi & Hnodup & Hnew & Hdup).
      exists (instr :: pre), i, post. split; [reflexivity|]. split; [reflexivity|].
      split; [exact Hi|]. rewrite labels_cons, Hl.
      assert (Hnotin : get_label instr ∉ labels pre).
      { intros Hmem. specialize (Hnew _ Hmem). rewrite lookup_insert_eq in Hnew.
        discriminate. }
      split; [constructor; assumption|]. split.
      * intros l [-> | Hmem]%elem_of_cons; [exact Hfresh|].
        specialize (Hnew l Hmem).
        rewrite lookup_insert_ne in Hnew; [exact Hnew|]. intros <-. contradiction.
      * destruct Hdup as [Hdup | Hdup]; [left; now apply elem_of_cons; right|].
        destruct (decide (get_label instr = get_label i)) as [E | E].
        -- left. apply elem_of_cons. left. now symmetry.
        -- right. now rewrite lookup_insert_ne in Hdup.
  - destruct (IH _ _ _ H) as (pre & i & post & -> & -> & Hi & Hnodup & Hnew & Hdup).
    exists (instr :: pre), i, post. rewrite labels_cons, Hl. auto 10.
Qed.



Lemma labels_app pre rest : labels (pre ++ rest) = labels pre ++ labels rest.
Proof. unfold labels. now rewrite filter_app, map_app. Qed.

Lemma scan_label_from_outcome instructions table :
  (exists table', scan_label_from instructions table = ([], (table', true)))
  \/ (exists d table', scan_label_from instructions table = (d, (table', false))).
Proof.
  revert table. induction instructions as [|instr rest IH]; intros table;
    [left; eexists; reflexivity|].
  cbn [scan_label_from]. destruct (has_label instr); [|apply IH].
  unfold add_label. destruct (table !! get_label instr); cbn [negb]; [|apply IH].
  right. do 2 eexists. reflexivity.
Qed.

(** Property X15.  From an empty symbol table: when the labels of the program
    are pairwise distinct, [scan_label] succeeds without a message, leaves the
    instructions as they are, and [get_label] then gives every labelled
    instruction's address and reports every other name as missing; otherwise
    it fails with one [label_redefined] message, at the first instruction
    whose label an earlier instruction carries. *)
Theorem scan_label_distinct_labels a :
  symbol_table_ a = ∅ ->
  (NoDup (labels (instructions_ a)) ->
   exists a',
     scan_label a = ([], (a', true))
     /\ instructions_ a' = instructions_ a
     /\ (forall instr, instr ∈ instructions_ a -> has_label instr = true ->
           assembler_get_label a' (get_label instr) = (get_address instr, true))
     /\ (forall l, l ∉ labels (instructions_ a) -> assembler_get_label a' l = (0, false)))
  /\ (~ NoDup (labels (instructions_ a)) ->
      exists a' pre instr post,
        scan_label a = ([label_redefined instr], (a', false))
        /\ instructions_ a = pre ++ instr :: post
        /\ has_label instr = true
        /\ get_label instr ∈ labels pre
        /\ NoDup (labels pre)).
Proof.
  intros Hempty. unfold scan_label. rewrite Hempty.
  destruct (scan_label_from_outcome (instructions_ a) ∅)
    as [(table' & H) | (d & table' & H)]; rewrite H.
  - destruct (scan_label_from_success _ _ _ H) as (Hnodup & _ & Hin & Hout).
    split; [|intros Hdup; contradiction].
    intros _. eexists. split; [reflexivity|]. split; [reflexivity|].
    unfold assembler_get_label. cbn [symbol_table_]. split.
    + intros instr Hmem Hl. now rewrite (Hin instr Hmem Hl).
    + intros l Hl. now rewrite (Hout l Hl), lookup_empty.
  - destruct (scan_label_from_failure _ _ _ _ H)
      as (pre & instr & post & Hsplit & -> & Hl & Hnodup & _ & Hdup).
    destruct Hdup as [Hdup | Hdup]; [|rewrite lookup_empty in Hdup; contradiction].
    split.
    + intros Hall. exfalso. rewrite Hsplit, labels_app, labels_cons, Hl in Hall.
      apply NoDup_app in Hall as (_ & Hdisjoint & _).
      apply (Hdisjoint _ Hdup). apply list_elem_of_here.
    + intros _. exists {| instructions_ := instructions_ a; symbol_table_ := table' |},
        pre, instr, post. auto.
Qed.

Lemma scan_label_distinct_labels_witness :
  exists a',
    scan_label {| instructions_ := instructions_ countdown_scanned; symbol_table_ := ∅ |}
    = ([], (a', true))
    /\ assembler_get_label a' "LOOP" = (12289, true)
    /\ assembler_get_label a' "DONE" = (0, false).
Proof.
  destruct (proj1 (scan_label_distinct_labels
                     {| instructions_ := instructions_ countdown_scanned;
                        symbol_table_ := ∅ |} eq_refl))
    as (a' & Hscan & _ & Hfound & Hmissing).
  { apply NoDup_singleton. }
  exists a'. split; [exact Hscan|]. split.
  - apply (Hfound (instruction "LOOP" ADD
                     [Operand.of_register 1; Operand.of_register 1;
                      Operand.of_immediate (-1)] 12289));
      [apply list_elem_of_further, list_elem_of_here | reflexivity].
  - apply Hmissing. intros Hin. apply list_elem_of_singleton in Hin. discriminate Hin.
Defined.

(** *** The two scanners of [solution.cpp] *)

Lemma find_if_not_stops p s :
  match find_if_not p s with
  | String d _ => p d = false
  | EmptyString => True
  end.
Proof.
  induction s as [|c s IH]; cbn; [exact I|].
  destruct (p c) eqn:E; [exact IH | exact E].
Qed.

Lemma append_assoc a b c :
  String.append (String.append a b) c = String.append a (String.append b c).
Proof.
  induction a as [|x a IH]; [reflexivity | rewrite !append_cons; now rewrite IH].
Qed.

Lemma append_empty_r a : String.append a EmptyString = a.
Proof.
  induction a as [|x a IH]; [reflexivity | rewrite append_cons; now rewrite IH].
Qed.

(** Property X16.  [parse_decimal_number] consumes an optional sign, which it
    takes whenever the text starts with one, and then the longest run of
    decimal digits: the text is the sign, the digits and the returned rest,
    and the rest does not start with a digit. *)
Theorem parse_decimal_number_contract s :
  exists sign digits,
    s = String.append sign (String.append digits (parse_decimal_number s))
    /\ (sign = EmptyString \/ sign = "+"%string \/ sign = "-"%string)
    /\ (forall c rest, s = String c rest ->
          Ascii.eqb c "+" || Ascii.eqb c "-" = true -> sign = String c EmptyString)
    /\ all_of isdigit digits = true
    /\ match parse_decimal_number s with
       | String d _ => isdigit d = false
       | EmptyString => True
       end.
Proof.
  destruct s as [|c rest].
  { exists EmptyString, EmptyString. rewrite !append_nil.
    repeat split; auto. intros; discriminate. }
  unfold parse_decimal_number.
  destruct (Ascii.eqb c "+" || Ascii.eqb c "-") eqn:Hsign.
  - exists (String c EmptyString), (take_while isdigit rest).
    split; [rewrite append_cons, append_nil; now rewrite take_while_find_if_not|].
    split.
    { apply orb_true_iff in Hsign as [E | E]; apply Ascii.eqb_eq in E; subst; auto. }
    split; [intros c' rest' [= <- <-] _; reflexivity|].
    split; [apply all_of_take_while | apply find_if_not_stops].
  - exists EmptyString, (take_while isdigit (String c rest)).
    split; [rewrite append_nil; now rewrite take_while_find_if_not|].
    split; [auto|].
    split; [intros c' rest' [= <- <-] E; congruence|].
    split; [apply all_of_take_while | apply find_if_not_stops].
Qed.

Lemma parse_string_literal_closed body rest :
  all_of literal_character body = true ->
  parse_string_literal (String.append body (String quote rest)) = rest.
Proof.
  induction body as [|c body IH]; intros H.
  - rewrite append_nil. cbn. now rewrite Ascii.eqb_refl.
  - rewrite append_cons. cbn [all_of parse_string_literal] in *.
    apply andb_true_iff in H as [Hc Hbody]. unfold literal_character in Hc.
    apply andb_true_iff in Hc as [Hq Hn].
    apply negb_true_iff in Hq, Hn. rewrite Hq, Hn. now apply IH.
Qed.

Lemma parse_string_literal_open body rest :
  all_of literal_character body = true ->
  at_end_of_line rest ->
  parse_string_literal (String.append body rest) = rest.
Proof.
  induction body as [|c body IH]; intros H Hrest.
  - rewrite append_nil. destruct rest as [|d rest]; [reflexivity|].
    cbn in Hrest. subst d. reflexivity.
  - rewrite append_cons. cbn [all_of parse_string_literal] in *.
    apply andb_true_iff in H as [Hc Hbody]. unfold literal_character in Hc.
    apply andb_true_iff in Hc as [Hq Hn].
    apply negb_true_iff in Hq, Hn. rewrite Hq, Hn. now apply IH.
Qed.


(** Property X17.  [parse_string_literal] consumes characters that are neither
    a double quote nor a newline and then either the closing quote, or nothing
    when the line or the text ends first. *)
Theorem parse_string_literal_contract s :
  exists body,
    all_of literal_character body = true
    /\ (s = String.append body (String quote (parse_string_literal s))
        \/ (s = String.append body (parse_string_literal s)
            /\ at_end_of_line (parse_string_literal s))).
Proof.
  induction s as [|c s (body & Hbody & IH)].
  - exists EmptyString. split; [reflexivity|]. right. split; [reflexivity | exact I].
  - cbn [parse_string_literal].
    destruct (Ascii.eqb c quote) eqn:Hq.
    + apply Ascii.eqb_eq in Hq. subst c. exists EmptyString.
      split; [reflexivity|]. left. reflexivity.
    + destruct (Ascii.eqb c newline) eqn:Hn.
      * apply Ascii.eqb_eq in Hn. subst c. exists EmptyString.
        split; [reflexivity|]. right. split; reflexivity.
      * exists (String c body). split.
        { cbn [all_of]. unfold literal_character at 1. now rewrite Hq, Hn, Hbody. }
        destruct IH as [IH | [IH Hend]]; [left | right; split; [|exact Hend]];
          rewrite append_cons; now rewrite <- IH.
Qed.

(** *** String literals from the source to the operand *)

Lemma get_last pre c : String.get (String.length pre) (String.append pre (String c EmptyString)) = Some c.
Proof. induction pre as [|x pre IH]; [reflexivity | rewrite append_cons; exact IH]. Qed.

Lemma get_last_none pre : String.get (String.length pre) pre = None.
Proof. induction pre as [|x pre IH]; [reflexivity | exact IH]. Qed.

Lemma all_of_last p body c :
  all_of p body = true -> body <> EmptyString ->
  String.get (String.length body - 1) body = Some c -> p c = true.
Proof.
  induction body as [|x body IH]; intros H Hne Hget; [contradiction|].
  cbn [all_of] in H. apply andb_true_iff in H as [Hx Hbody].
  destruct body as [|y body].
  - cbn in Hget. injection Hget as <-. exact Hx.
  - apply IH; [exact Hbody | discriminate|].
    cbn [String.length] in *. replace (S (S (String.length body)) - 1)%nat
      with (S (String.length body)) in Hget by lia.
    cbn [String.get] in Hget. replace (S (String.length body) - 1)%nat
      with (String.length body) by lia. exact Hget.
Qed.

Lemma substring_middle c body d :
  String.substring 1 (String.length body) (String c (String.append body (String d EmptyString)))
  = body.
Proof.
  cbn [String.substring]. induction body as [|x body IH]; [reflexivity|].
  rewrite append_cons. cbn [String.length String.substring]. now rewrite IH.
Qed.

Lemma next_token_string_literal body rest current :
  parse_string_literal (String.append body rest) = current ->
  next_token (String quote (String.append body rest))
  = Some (Token.mk Token.String
            (consumed (String quote (String.append body rest)) current), current).
Proof. intros H. unfold next_token. cbn. unfold lex_string_literal. now rewrite H. Qed.

Lemma closed_literal_operand instr body rest :
  all_of literal_character body = true ->
  let token :=
    Token.mk Token.String (String quote (String.append body (String quote EmptyString))) in
  next_token (String quote (String.append body (String quote rest))) = Some (token, rest)
  /\ add_operand instr token
     = Ok (NoError, push_operand instr (Operand.of_string_literal body)).
Proof.
  intros Hbody. cbv zeta. split.
  - rewrite (next_token_string_literal body (String quote rest) rest)
      by now apply parse_string_literal_closed.
    do 3 f_equal.
    replace (String quote (String.append body (String quote rest)))
      with (String.append (String quote (String.append body (String quote EmptyString)))
                          rest)
      by (rewrite append_cons, append_assoc, append_cons, append_nil; reflexivity).
    apply consumed_app.
  - unfold add_operand. cbn [Token.kind Token.content String.length].
    rewrite append_length. cbn [String.length].
    replace (S (String.length body + 1) - 1)%nat with (S (String.length body)) by lia.
    cbn [String.get]. rewrite get_last, Ascii.eqb_refl.
    replace (1 <? S (String.length body + 1))%nat with true
      by (symmetry; apply Nat.ltb_lt; lia).
    cbn [andb]. unfold Operand.from_string_literal.
    cbn [String.length]. rewrite append_length. cbn [String.length].
    replace (2 <=? S (String.length body + 1))%nat with true
      by (symmetry; apply Nat.leb_le; lia).
    replace (S (String.length body + 1) - 2)%nat with (String.length body) by lia.
    rewrite substring_middle. reflexivity.
Qed.

(** Property X18.  A literal closed on its line is lexed as one [String] token
    from which [add_operand] builds the operand that holds the text between
    the quotes; a literal left open at the end of the line or of the text is
    lexed up to there, and [add_operand] answers [MissingQuote] and leaves the
    instruction as it was. *)
Theorem string_literal_operand instr body rest :
  all_of literal_character body = true ->
  (let token :=
     Token.mk Token.String (String quote (String.append body (String quote EmptyString))) in
   next_token (String quote (String.append body (String quote rest))) = Some (token, rest)
   /\ add_operand instr token
      = Ok (NoError, push_operand instr (Operand.of_string_literal body)))
  /\ (at_end_of_line rest ->
      let token := Token.mk Token.String (String quote body) in
      next_token (String quote (String.append body rest)) = Some (token, rest)
      /\ add_operand instr token = Ok (MissingQuote, instr)).
Proof.
  intros Hbody. split.
  - exact (closed_literal_operand instr body rest Hbody).
  - intros Hend. cbv zeta. split.
    + rewrite (next_token_string_literal body rest rest)
        by now apply parse_string_literal_open.
      do 3 f_equal.
      change (String quote (String.append body rest))
        with (String.append (String quote body) rest).
      apply consumed_app.
    + unfold add_operand. cbn [Token.kind Token.content String.length].
      destruct body as [|c body]; [reflexivity|].
      replace (1 <? S (String.length (String c body)))%nat with true
        by (symmetry; apply Nat.ltb_lt; cbn; lia).
      replace (S (String.length (String c body)) - 1)%nat
        with (S (String.length (String c body) - 1))
        by (cbn [String.length]; lia).
      remember (String.length (String c body) - 1)%nat as n eqn:Hn.
      change (String.get (S n) (String quote (String c body)))
        with (String.get n (String c body)).
      cbn [andb].
      destruct (String.get n (String c body)) as [d|] eqn:Hget; [|reflexivity].
      subst n.
      pose proof (all_of_last _ _ _ Hbody ltac:(discriminate) Hget) as Hd.
      unfold literal_character in Hd. apply andb_true_iff in Hd as [Hq _].
      apply negb_true_iff in Hq. now rewrite Hq.
Qed.

Lemma string_literal_operand_witness :
  next_token (String quote (String.append "Hi" (String quote EmptyString)))
  = Some (Token.mk Token.String
            (String quote (String.append "Hi" (String quote EmptyString))), EmptyString)
  /\ add_operand unknown_instruction
       (Token.mk Token.String (String quote (String.append "Hi" (String quote EmptyString))))
     = Ok (NoError, push_operand unknown_instruction (Operand.of_string_literal "Hi")).
Proof.
  exact (proj1 (string_literal_operand unknown_instruction "Hi" EmptyString eq_refl)).
Defined.

(** *** Tokens of the lexer *)

Lemma next_token_from_End fuel s t r :
  next_token_from fuel s = Some (t, r) ->
  Token.kind t = Token.End ->
  r = EmptyString /\ Token.content t = EmptyString.
Proof.
  revert s. induction fuel as [|fuel IH]; intros s H Hk; [discriminate|].
  destruct s as [|c rest]; cbn [next_token_from] in H.
  { injection H as <- <-. auto. }
  repeat match type of H with
  | (if ?b then _ else _) = _ =>
      destruct b; [first [ now eauto | injection H as <- <-; try discriminate Hk ]|]
  end.
  - cbn [Token.kind] in Hk. unfold identifier_kind in Hk.
    repeat match type of Hk with (if ?b then _ else _) = _ => destruct b end;
      discriminate.
  - cbn [Token.kind] in Hk. destruct (is_valid_pseudo _); discriminate.
  - injection H as <- <-. discriminate.
Qed.

Lemma next_token_from_opcode fuel s t r :
  next_token_from fuel s = Some (t, r) ->
  (Token.kind t = Token.Opcode -> is_valid_opcode (Token.content t) = true)
  /\ (Token.kind t = Token.Pseudo -> is_valid_pseudo (Token.content t) = true).
Proof.
  revert s. induction fuel as [|fuel IH]; intros s H; [discriminate|].
  destruct s as [|c rest]; cbn [next_token_from] in H.
  { injection H as <- <-. split; discriminate. }
  repeat match type of H with
  | (if ?b then _ else _) = _ =>
      destruct b;
      [first [ now eauto | injection H as <- <-; split; discriminate | idtac ]|]
  end.
  - injection H as <- <-. cbn [Token.kind Token.content]. unfold identifier_kind.
    destruct (is_valid_opcode _) eqn:E; [split; [reflexivity | discriminate]|].
    repeat match goal with |- context [if ?b then _ else _] => destruct b end;
      split; discriminate.
  - injection H as <- <-. cbn [Token.kind Token.content].
    destruct (is_valid_pseudo _) eqn:E; split; try discriminate. reflexivity.
  - injection H as <- <-. split; discriminate.
Qed.

Lemma lexed_register t :
  lexed t -> Token.kind t = Token.Register -> is_valid_register (Token.content t) = true.
Proof. intros (s & r & H). exact (next_token_from_register _ _ _ _ H). Qed.

Lemma lexed_integer t :
  lexed t -> Token.kind t = Token.Immediate \/ Token.kind t = Token.Number ->
  lexed_integer_slice (Token.kind t) (Token.content t) = true.
Proof. intros (s & r & H). exact (next_token_integer_slice _ _ _ H). Qed.

(** The outcome of [add_operand] on a token of the lexer: an operand is
    appended, or the instruction is as before. *)
Lemma add_operand_lexed instr t :
  lexed t ->
  exists error instr',
    add_operand instr t = Ok (error, instr')
    /\ ((error = NoError
         /\ exists o, instr' = push_operand instr o /\ operand_from_token o)
        \/ (error <> NoError /\ instr' = instr)).
Proof.
  intros Hlex. unfold add_operand.
  destruct (Token.kind t) eqn:Hk;
    try (do 2 eexists; split; [reflexivity|]; right; split; [discriminate | reflexivity]).
  - (* Label *)
    do 2 eexists; split; [reflexivity|]. left. split; [reflexivity|].
    eexists. split; [reflexivity|]. split; [reflexivity | discriminate].
  - (* Register *)
    pose proof (lexed_register t Hlex Hk) as Hreg. unfold is_valid_register in Hreg.
    destruct (Token.content t) as [|c0 [|c1 [|c2 rest]]]; try discriminate.
    cbn [String.get Nat.eqb]. do 2 eexists; split; [reflexivity|]. left.
    split; [reflexivity|]. eexists. split; [reflexivity|].
    split; [|discriminate].
    apply andb_true_iff in Hreg as [Hreg Hhi]. apply andb_true_iff in Hreg as [_ Hlo].
    unfold Operand.from_register, register_in_range, to_u8.
    revert Hlo Hhi. destruct c1 as [[] [] [] [] [] [] [] []]; vm_compute;
      intros; try reflexivity; discriminate.
  - (* Immediate *)
    pose proof (lexed_integer t Hlex (or_introl Hk)) as Hshape. rewrite Hk in Hshape.
    destruct (Token.content t) as [|c rest] eqn:Hc; [discriminate|].
    rewrite (is_valid_number_rejected (String c rest)) by discriminate.
    cbn [bind]. destruct (negb (negb _));
      [do 2 eexists; split; [reflexivity|]; right; split; [discriminate | reflexivity]|].
    destruct (to_integer (String c rest)) as [value ok] eqn:E.
    unfold to_integer, string_to_integer in E.
    destruct ok;
      [|do 2 eexists; split; [reflexivity|]; right; split; [discriminate | reflexivity]].
    do 2 eexists; split; [reflexivity|]. left. split; [reflexivity|].
    eexists. split; [reflexivity|]. split; [reflexivity|].
    cbn. intros v [= <-].
    cbv beta iota in E.
    match type of E with (let '(pos, base) := ?x in _) = _ => destruct x as [pos base] end.
    destruct (stoll _ _) as [converted| |]; try discriminate E.
    destruct (_ || _); [discriminate E|]. injection E as <-.
    unfold to_i16, INT16_MIN, INT16_MAX.
    pose proof (Z.mod_pos_bound (converted + 32768) 65536 eq_refl). lia.
  - (* Number *)
    pose proof (lexed_integer t Hlex (or_intror Hk)) as Hshape. rewrite Hk in Hshape.
    destruct (Token.content t) as [|c rest] eqn:Hc; [discriminate|].
    rewrite (is_valid_number_rejected (String c rest)) by discriminate.
    cbn [bind]. destruct (negb (negb _));
      [do 2 eexists; split; [reflexivity|]; right; split; [discriminate | reflexivity]|].
    destruct (to_integer (String c rest)) as [value ok] eqn:E.
    unfold to_integer, string_to_integer in E.
    destruct ok;
      [|do 2 eexists; split; [reflexivity|]; right; split; [discriminate | reflexivity]].
    do 2 eexists; split; [reflexivity|]. left. split; [reflexivity|].
    eexists. split; [reflexivity|]. split; [reflexivity|].
    cbn. intros v [= <-].
    cbv beta iota in E.
    match type of E with (let '(pos, base) := ?x in _) = _ => destruct x as [pos base] end.
    destruct (stoll _ _) as [converted| |]; try discriminate E.
    destruct (_ || _); [discriminate E|]. injection E as <-.
    unfold to_i16, INT16_MIN, INT16_MAX.
    pose proof (Z.mod_pos_bound (converted + 32768) 65536 eq_refl). lia.
  - (* String *)
    match goal with |- context [if ?b then _ else _] => destruct b eqn:Hb end;
      [|do 2 eexists; split; [reflexivity|]; right; split; [discriminate | reflexivity]].
    apply andb_true_iff in Hb as [Hsize _]. apply Nat.ltb_lt in Hsize.
    unfold Operand.from_string_literal.
    replace (2 <=? String.length (Token.content t))%nat with true
      by (symmetry; apply Nat.leb_le; lia).
    cbn [bind]. do 2 eexists; split; [reflexivity|]. left. split; [reflexivity|].
    eexists. split; [reflexivity|]. split; [reflexivity | discriminate].
Qed.

(** Property X19.  On every token the lexer gives, [add_operand] returns
    without fault. Either it answers [NoError] and the instruction has one
    more operand, at the end of its operand list, with label, opcode and
    address as before; a register operand is then one of [R0..R7] and an
    integer operand lies in the signed 16-bit range. Or it answers an error
    and leaves the instruction as it was. *)
Theorem add_operand_on_lexed_token source token rest instr :
  next_token source = Some (token, rest) ->
  exists error instr',
    add_operand instr token = Ok (error, instr')
    /\ ((error = NoError
         /\ exists o,
              operands_ instr' = operands_ instr ++ [o]
              /\ label_ instr' = label_ instr
              /\ opcode_ instr' = opcode_ instr
              /\ address_ instr' = address_ instr
              /\ operand_from_token o)
        \/ (error <> NoError /\ instr' = instr)).
Proof.
  intros Hnext.
  destruct (add_operand_lexed instr token) as (error & instr' & Hadd & Hcase);
    [exists source, rest; exact Hnext|].
  exists error, instr'. split; [exact Hadd|].
  destruct Hcase as [(Herror & o & -> & Ho) | Hfailed]; [left | right; exact Hfailed].
  split; [exact Herror|]. exists o. cbn [push_operand operands_ label_ opcode_ address_].
  repeat (split; [reflexivity|]). exact Ho.
Qed.

Lemma add_operand_on_lexed_token_witness :
  (exists error instr',
     add_operand (instruction "LOOP" ADD [Operand.of_register 1] 7)
                 (Token.mk Token.Register "R2") = Ok (error, instr')
     /\ ((error = NoError
          /\ exists o,
               operands_ instr' = [Operand.of_register 1] ++ [o]
               /\ label_ instr' = "LOOP"%string
               /\ opcode_ instr' = ADD
               /\ address_ instr' = 7
               /\ operand_from_token o)
         \/ (error <> NoError
             /\ instr' = instruction "LOOP" ADD [Operand.of_register 1] 7)))
  /\ add_operand (instruction "LOOP" ADD [Operand.of_register 1] 7)
                 (Token.mk Token.Register "R2")
     = Ok (NoError,
           instruction "LOOP" ADD [Operand.of_register 1; Operand.of_register 2] 7)
  /\ (exists error instr',
        add_operand unknown_instruction (Token.mk Token.Immediate "#70000")
        = Ok (error, instr')
        /\ ((error = NoError
             /\ exists o,
                  operands_ instr' = [] ++ [o]
                  /\ label_ instr' = EmptyString
                  /\ opcode_ instr' = UnknownOp
                  /\ address_ instr' = 0
                  /\ operand_from_token o)
            \/ (error <> NoError /\ instr' = unknown_instruction)))
  /\ add_operand unknown_instruction (Token.mk Token.Immediate "#70000")
     = Ok (IntegerOverflow, unknown_instruction).
Proof.
  split; [|split; [|split]].
  - exact (add_operand_on_lexed_token "R2, R3" (Token.mk Token.Register "R2")
             ", R3" (instruction "LOOP" ADD [Operand.of_register 1] 7) eq_refl).
  - reflexivity.
  - exact (add_operand_on_lexed_token "#70000, R1" (Token.mk Token.Immediate "#70000")
             ", R1" unknown_instruction eq_refl).
  - reflexivity.
Defined.

(** *** The parser returns *)

Lemma returns_bind {A B} (m : parsing A) (k : A -> parsing B) p Q1 Q :
  returns m p Q1 ->
  (forall d a p', Q1 d a p' -> returns (k a) p' (fun d' b p'' => Q (d ++ d') b p'')) ->
  returns (pbind m k) p Q.
Proof.
  intros (d & a & p' & Hm & HQ1) Hk.
  destruct (Hk d a p' HQ1) as (d' & b & p'' & Hka & HQ).
  exists (d ++ d'), b, p''. split; [|exact HQ].
  unfold pbind. now rewrite Hm, Hka.
Qed.

Lemma returns_weaken {A} (m : parsing A) p (Q1 Q : _ -> _ -> _ -> Prop) :
  returns m p Q1 -> (forall d a p', Q1 d a p' -> Q d a p') -> returns m p Q.
Proof. intros (d & a & p' & Hm & HQ1) H. exists d, a, p'. auto. Qed.

Lemma returns_parsed {A} (a : A) p (Q : _ -> _ -> _ -> Prop) :
  Q [] a p -> returns (parsed a) p Q.
Proof. intros H. exists [], a, p. auto. Qed.

Lemma returns_current_token p (Q : _ -> _ -> _ -> Prop) :
  Q [] (cur_token_ p) p -> returns current_token p Q.
Proof. intros H. exists [], (cur_token_ p), p. auto. Qed.

Lemma returns_move_to_next_token p :
  parser_invariant p ->
  returns move_to_next_token p
    (fun d token p' =>
       d = [] /\ cur_token_ p' = token /\ parser_invariant p'
       /\ (String.length (current_ p') <= String.length (current_ p))%nat
       /\ (Token.kind token <> Token.End ->
           (String.length (current_ p') < String.length (current_ p))%nat)
       /\ (unparsed p' <= unparsed p)%nat
       /\ (Token.kind (cur_token_ p) <> Token.End -> (unparsed p' < unparsed p)%nat)).
Proof.
  intros [Hlex Hend]. unfold move_to_next_token, returns.
  destruct (next_token_total (current_ p)) as (t & r & Hnext). rewrite Hnext.
  do 3 eexists. split; [reflexivity|]. cbn [cur_token_ current_].
  assert (Hinv : parser_invariant {| current_ := r; cur_token_ := t |}).
  { split; cbn [cur_token_ current_]; [now exists (current_ p), r|].
    intros Hk. apply (next_token_from_End _ _ _ _ Hnext Hk). }
  pose proof (next_token_from_progress _ _ _ _ Hnext) as Hprogress.
  assert (Hle : (String.length r <= String.length (current_ p))%nat).
  { destruct Hprogress as [Hk | Hlt]; [|lia].
    destruct (next_token_from_End _ _ _ _ Hnext Hk) as [-> _]. cbn. lia. }
  split; [reflexivity|]. split; [reflexivity|]. split; [exact Hinv|].
  split; [exact Hle|]. split; [|split].
  - intros Hk. destruct Hprogress as [Hk' | Hlt]; [contradiction | exact Hlt].
  - unfold unparsed. cbn [cur_token_ current_].
    destruct (Token.kind t) eqn:Hk;
      try (destruct Hprogress as [Hk' | Hlt]; [discriminate|];
           destruct (Token.kind (cur_token_ p)); lia).
    destruct (next_token_from_End _ _ _ _ Hnext Hk) as [-> _]. cbn. lia.
  - intros Hcur. unfold unparsed. cbn [cur_token_ current_].
    destruct (Token.kind t) eqn:Hk;
      try (destruct Hprogress as [Hk' | Hlt]; [discriminate|];
           destruct (Token.kind (cur_token_ p)); try contradiction; lia).
    destruct (next_token_from_End _ _ _ _ Hnext Hk) as [-> _]. cbn.
    destruct (Token.kind (cur_token_ p)); try contradiction; lia.
Qed.

Lemma returns_from_outcome {A} (r : outcome A) p a :
  r = Ok a ->
  returns (from_outcome r) p (fun d a' p' => d = [] /\ a' = a /\ p' = p).
Proof. intros ->. exists [], a, p. auto. Qed.

Lemma returns_emit_operand_diag error p :
  returns (emit_operand_diag_at_current_token error) p
    (fun d _ p' => d = [operand_construction_failed (cur_token_ p) error] /\ p' = p).
Proof. do 3 eexists. split; [reflexivity | auto]. Qed.

Lemma returns_emit_opcode_diag p :
  returns emit_opcode_diag_at_current_token p
    (fun d _ p' => d = [opcode_expected (cur_token_ p)] /\ p' = p).
Proof. do 3 eexists. split; [reflexivity | auto]. Qed.

Lemma returns_the_current_token p :
  returns current_token p (fun d token p' => d = [] /\ token = cur_token_ p /\ p' = p).
Proof. do 3 eexists. split; [reflexivity | auto]. Qed.


Lemma with_operands_refl instr : with_operands instr instr.
Proof.
  repeat split. exists []. split; [now rewrite app_nil_r | constructor].
Qed.

Lemma with_operands_push instr o instr' :
  operand_from_token o -> with_operands (push_operand instr o) instr' ->
  with_operands instr instr'.
Proof.
  intros Ho (Hl & Hop & Ha & more & Hops & Hall). cbn in *.
  repeat split; try assumption. exists (o :: more).
  split; [now rewrite Hops, <- app_assoc | now constructor].
Qed.

Lemma parse_operands_after_returns fuel : forall instr p,
  parser_invariant p ->
  (String.length (current_ p) < fuel)%nat ->
  returns (parse_operands_after fuel instr) p
    (fun d instr' p' =>
       parser_invariant p' /\ (unparsed p' <= unparsed p)%nat
       /\ parsed_or_reported d instr' (with_operands instr)).
Proof.
  induction fuel as [|fuel IH]; intros instr p Hinv Hfuel; [lia|].
  cbn [parse_operands_after].
  eapply returns_bind; [apply (returns_move_to_next_token p Hinv)|].
  intros d separator p1 (-> & Hcur1 & Hinv1 & Hlen1 & Hlt1 & Hun1 & _).
  cbn [app].
  destruct (TokenKind_eqb (Token.kind separator) Token.Comma) eqn:Hcomma.
  - assert (Hk : Token.kind separator <> Token.End)
      by (destruct (Token.kind separator); discriminate).
    specialize (Hlt1 Hk).
    eapply returns_bind; [apply (returns_move_to_next_token p1 Hinv1)|].
    intros d token p2 (-> & Hcur2 & Hinv2 & Hlen2 & _ & Hun2 & _). cbn [app].
    destruct (add_operand_lexed instr token) as (error & instr' & Hadd & Hcase).
    { rewrite <- Hcur2. apply Hinv2. }
    eapply returns_bind; [exact (returns_from_outcome _ p2 _ Hadd)|].
    intros d [error' instr''] p3 (-> & [= -> ->] & ->). cbn [app].
    destruct Hcase as [(-> & o & -> & Ho) | (Herr & ->)].
    + eapply returns_weaken; [apply (IH _ p2 Hinv2); lia|].
      intros d i' p' (Hinv' & Hun' & Hres). split; [exact Hinv'|]. split; [lia|].
      destruct Hres as [[-> Hwith] | [Hd ->]]; [left | right; auto].
      split; [reflexivity|]. eapply with_operands_push; eassumption.
    + destruct error; try contradiction;
        (eapply returns_bind; [apply returns_emit_operand_diag|];
         intros ? ? ? [-> ->]; apply returns_parsed;
         split; [exact Hinv2|]; split; [lia|];
         right; split; [eexists; reflexivity | reflexivity]).
  - apply returns_parsed. split; [exact Hinv1|]. split; [lia|].
    left. split; [reflexivity | apply with_operands_refl].
Qed.

Lemma parse_operand_list_returns instr p :
  parser_invariant p ->
  returns (parse_operand_list instr) p
    (fun d instr' p' =>
       parser_invariant p' /\ (unparsed p' <= unparsed p)%nat
       /\ parsed_or_reported d instr' (with_operands instr)).
Proof.
  intros Hinv. unfold parse_operand_list.
  eapply returns_bind; [apply returns_the_current_token|].
  intros d token p1 (-> & -> & ->). cbn [app].
  destruct (add_operand_lexed instr (cur_token_ p)) as (error & instr' & Hadd & Hcase);
    [apply Hinv|].
  eapply returns_bind; [exact (returns_from_outcome _ p _ Hadd)|].
  intros d [error' instr''] p3 (-> & [= -> ->] & ->). cbn [app].
  destruct Hcase as [(-> & o & -> & Ho) | (Herr & ->)].
  - eapply returns_weaken; [apply (parse_operands_after_returns _ _ p Hinv); lia|].
    intros d i' p' (Hinv' & Hun' & Hres). split; [exact Hinv'|]. split; [lia|].
    destruct Hres as [[-> Hwith] | [Hd ->]]; [left | right; auto].
    split; [reflexivity|]. eapply with_operands_push; eassumption.
  - destruct error; try contradiction;
      try (eapply returns_bind; [apply returns_emit_operand_diag|];
           intros ? ? ? [-> ->]; apply returns_parsed;
           split; [exact Hinv|]; split; [lia|];
           right; split; [eexists; reflexivity | reflexivity]).
    apply returns_parsed. split; [exact Hinv|]. split; [lia|].
    left. split; [reflexivity | apply with_operands_refl].
Qed.

Lemma skip_EOL_returns fuel : forall p,
  parser_invariant p ->
  (unparsed p < fuel)%nat ->
  returns (skip_EOL fuel) p
    (fun d _ p' =>
       d = [] /\ parser_invariant p' /\ (unparsed p' <= unparsed p)%nat).
Proof.
  induction fuel as [|fuel IH]; intros p Hinv Hfuel; [lia|].
  cbn [skip_EOL].
  eapply returns_bind; [apply returns_the_current_token|].
  intros d token p1 (-> & -> & ->). cbn [app].
  destruct (TokenKind_eqb (Token.kind (cur_token_ p)) Token.EOL) eqn:HEOL.
  - assert (Hk : Token.kind (cur_token_ p) <> Token.End)
      by (destruct (Token.kind (cur_token_ p)); discriminate).
    eapply returns_bind; [apply (returns_move_to_next_token p Hinv)|].
    intros d t p1 (-> & _ & Hinv1 & _ & _ & _ & Hlt). specialize (Hlt Hk). cbn [app].
    eapply returns_weaken; [apply (IH p1 Hinv1); lia|].
    intros d [] p' (-> & Hinv' & Hun'). split; [reflexivity|]. split; [exact Hinv'|]. lia.
  - apply returns_parsed. split; [reflexivity|]. split; [exact Hinv | lia].
Qed.

Lemma table_find_app {A} key (t1 t2 : list (string * A)) :
  table_find key (t1 ++ t2)
  = match table_find key t1 with Some v => Some v | None => table_find key t2 end.
Proof.
  induction t1 as [|[k v] t1 IH]; [reflexivity|]. cbn [app table_find].
  destruct (String.eqb key k); [reflexivity | exact IH].
Qed.

(** An opcode or directive token of the lexer is a key of [opcode_map], and
    no key maps to [UnknownOp]. *)
Lemma set_opcode_from_token_lexed instr token :
  lexed token ->
  Token.kind token = Token.Opcode \/ Token.kind token = Token.Pseudo ->
  exists opcode,
    set_opcode_from_token instr token = Ok (set_opcode instr opcode)
    /\ opcode <> UnknownOp.
Proof.
  intros (s & r & Hnext) Hk.
  destruct (next_token_from_opcode _ _ _ _ Hnext) as [Hopcode Hpseudo].
  unfold set_opcode_from_token.
  replace (TokenKind_eqb (Token.kind token) Token.Opcode
           || TokenKind_eqb (Token.kind token) Token.Pseudo) with true
    by (destruct Hk as [-> | ->]; reflexivity).
  unfold opcode_map. rewrite table_find_app.
  assert (Hno : forall key table opcode,
             table = opcode_def \/ table = pseudos ->
             table_find key table = Some opcode -> opcode <> UnknownOp).
  { intros key table opcode [-> | ->]; cbn;
      repeat match goal with
             | |- (if ?b then _ else _) = _ -> _ => destruct b; [intros [= <-]; discriminate|]
             end; discriminate. }
  destruct (table_find (Token.content token) opcode_def) as [opcode|] eqn:E1.
  - exists opcode. split; [reflexivity|]. eapply Hno; [left; reflexivity | exact E1].
  - destruct Hk as [Hk | Hk].
    + specialize (Hopcode Hk). unfold is_valid_opcode in Hopcode.
      rewrite E1 in Hopcode. discriminate.
    + specialize (Hpseudo Hk). unfold is_valid_pseudo in Hpseudo.
      destruct (table_find (Token.content token) pseudos) as [opcode|] eqn:E2;
        [|discriminate].
      exists opcode. split; [reflexivity|]. eapply Hno; [right; reflexivity | exact E2].
Qed.

Lemma parse_instruction_returns indeterminate p :
  parser_invariant p ->
  Token.kind (cur_token_ p) <> Token.End ->
  returns (parse_instruction indeterminate) p
    (fun d instr p' =>
       parser_invariant p'
       /\ parsed_or_reported d instr
            (fun instr => parsed_instruction instr /\ (unparsed p' < unparsed p)%nat)).
Proof.
  intros Hinv Hcur. unfold parse_instruction.
  eapply returns_bind; [apply returns_the_current_token|].
  intros d first p0 (-> & -> & ->). cbn [app].
  eapply (returns_bind _ _ p
            (fun d instr p1 =>
               d = [] /\ parser_invariant p1 /\ (unparsed p1 <= unparsed p)%nat
               /\ operands_ instr = [] /\ opcode_ instr = UnknownOp)).
  { destruct (TokenKind_eqb (Token.kind (cur_token_ p)) Token.Label).
    - eapply returns_bind; [apply (returns_move_to_next_token p Hinv)|].
      intros d t p1 (-> & _ & Hinv1 & _ & _ & Hun & _). apply returns_parsed.
      repeat split; try apply Hinv1. exact Hun.
    - apply returns_parsed. repeat split; try apply Hinv. lia. }
  intros d instr p1 (-> & Hinv1 & Hun1 & Hops & Hop). cbn [app].
  eapply returns_bind; [apply (skip_EOL_returns _ p1 Hinv1); unfold unparsed;
                        destruct (Token.kind (cur_token_ p1)); lia|].
  intros d [] p2 (-> & Hinv2 & Hun2). cbn [app].
  eapply returns_bind; [apply returns_the_current_token|].
  intros d opcode_token p3 (-> & -> & ->). cbn [app].
  destruct (negb (TokenKind_eqb (Token.kind (cur_token_ p2)) Token.Opcode)
            && negb (TokenKind_eqb (Token.kind (cur_token_ p2)) Token.Pseudo)) eqn:Hkind.
  - eapply returns_bind; [apply returns_emit_opcode_diag|].
    intros ? ? ? [-> ->]. apply returns_parsed. split; [exact Hinv2|].
    right. split; [eexists; reflexivity | reflexivity].
  - assert (Hk : Token.kind (cur_token_ p2) = Token.Opcode
                 \/ Token.kind (cur_token_ p2) = Token.Pseudo)
      by (destruct (Token.kind (cur_token_ p2)); try discriminate Hkind; auto).
    destruct (set_opcode_from_token_lexed instr (cur_token_ p2) (proj1 Hinv2) Hk)
      as (opcode & Hset & Hknown).
    eapply returns_bind; [exact (returns_from_outcome _ p2 _ Hset)|].
    intros d instr2 p3 (-> & -> & ->). cbn [app].
    eapply returns_bind; [apply (returns_move_to_next_token p2 Hinv2)|].
    intros d t p3 (-> & _ & Hinv3 & _ & _ & _ & Hlt). cbn [app].
    assert (Hlt3 : (unparsed p3 < unparsed p2)%nat)
      by (apply Hlt; destruct Hk as [-> | ->]; discriminate).
    eapply returns_weaken; [apply (parse_operand_list_returns _ p3 Hinv3)|].
    intros d i' p' (Hinv' & Hun' & Hres). split; [exact Hinv'|].
    destruct Hres as [[-> Hwith] | [Hd ->]]; [left | right; auto].
    split; [reflexivity|]. split; [|lia].
    destruct Hwith as (_ & Hopc & _ & more & Hmore & Hall). cbn in Hopc, Hmore.
    split.
    + unfold is_unknown, Opcode_eqb. rewrite Hopc.
      destruct (Opcode_eq_dec opcode UnknownOp); [contradiction | reflexivity].
    + rewrite Hmore, Hops. exact Hall.
Qed.

Lemma END_only_last_snoc instructions instr :
  Forall (fun i => opcode_ i <> END) instructions ->
  END_only_last (instructions ++ [instr]).
Proof.
  intros Hall i instr' Hi Hop. rewrite length_app. cbn [length].
  destruct (Nat.lt_ge_cases i (length instructions)) as [Hlt | Hge].
  - rewrite lookup_app_l in Hi by exact Hlt.
    rewrite Forall_forall in Hall.
    apply list_elem_of_lookup_2, Hall in Hi. contradiction.
  - apply lookup_lt_Some in Hi. rewrite length_app in Hi. cbn [length] in Hi. lia.
Qed.

Lemma END_only_last_without instructions :
  Forall (fun i => opcode_ i <> END) instructions -> END_only_last instructions.
Proof.
  intros Hall i instr Hi Hop. rewrite Forall_forall in Hall.
  apply list_elem_of_lookup_2, Hall in Hi. contradiction.
Qed.

Lemma parse_instructions_from_returns uninitialised fuel : forall instructions p,
  parser_invariant p ->
  (unparsed p < fuel)%nat ->
  Forall parsed_instruction instructions ->
  Forall (fun i => opcode_ i <> END) instructions ->
  returns (parse_instructions_from fuel uninitialised instructions) p
    (fun d result _ => parse_result d result).
Proof.
  induction fuel as [|fuel IH]; intros instructions p Hinv Hfuel Hparsed HEND; [lia|].
  cbn [parse_instructions_from].
  eapply returns_bind; [apply returns_the_current_token|].
  intros d token p0 (-> & -> & ->). cbn [app].
  assert (Hdefault :
    Token.kind (cur_token_ p) <> Token.End ->
    returns
      (parser_do instr <- parse_instruction (uninitialised (length instructions));
       (if is_unknown instr
        then parsed [unknown_instruction]
        else
         let instructions0 := instructions ++ [instr] in
         if Opcode_eqb (get_opcode instr) END
         then parsed instructions0
         else parse_instructions_from fuel uninitialised instructions0)) p
      (fun d result _ => parse_result d result)).
  { intros Hk.
    eapply returns_bind; [apply (parse_instruction_returns _ p Hinv Hk)|].
    intros d instr p1 (Hinv1 & Hres).
    destruct Hres as [(-> & (Hknown & Hops) & Hlt) | [(diagnostic & ->) ->]].
    - rewrite Hknown. cbn [app]. cbv zeta.
      assert (Hall : Forall parsed_instruction (instructions ++ [instr])).
      { apply Forall_app. split; [exact Hparsed|]. repeat constructor; assumption. }
      unfold Opcode_eqb, get_opcode.
      destruct (Opcode_eq_dec (opcode_ instr) END) as [HE | HE].
      + apply returns_parsed. left. split; [reflexivity|]. split; [exact Hall|].
        apply END_only_last_snoc. exact HEND.
      + apply (IH _ p1 Hinv1); [lia | exact Hall|].
        apply Forall_app. split; [exact HEND|]. repeat constructor. exact HE.
    - change (is_unknown unknown_instruction) with true. cbv iota.
      apply returns_parsed. right. rewrite app_nil_r.
      split; [eexists; reflexivity | reflexivity]. }
  destruct (Token.kind (cur_token_ p)) eqn:Hk;
    try (apply Hdefault; discriminate).
  - (* EOL *)
    eapply returns_bind; [apply (returns_move_to_next_token p Hinv)|].
    intros d t p1 (-> & _ & Hinv1 & _ & _ & _ & Hlt). cbn [app].
    apply (IH _ p1 Hinv1); [|assumption|assumption].
    assert ((unparsed p1 < unparsed p)%nat) by (apply Hlt; rewrite Hk; discriminate).
    lia.
  - (* End *)
    apply returns_parsed. left. split; [reflexivity|]. split; [exact Hparsed|].
    apply END_only_last_without. exact HEND.
Qed.

Lemma parse_instructions_returns uninitialised source :
  returns (parse_instructions uninitialised) (new_Parser source)
    (fun d result _ => parse_result d result).
Proof.
  unfold parse_instructions.
  unfold returns, move_to_next_token, pbind.
  change (current_ (new_Parser source)) with source.
  destruct (next_token_total source) as (t & r & Hnext). rewrite Hnext.
  assert (Hinv : parser_invariant {| current_ := r; cur_token_ := t |}).
  { split; cbn [cur_token_ current_]; [now exists source, r|].
    intros Hk. apply (next_token_from_End _ _ _ _ Hnext Hk). }
  destruct (parse_instructions_from_returns uninitialised
              (S (S (String.length r))) [] {| current_ := r; cur_token_ := t |} Hinv)
    as (d & result & p' & Hrun & Hres);
    [unfold unparsed; cbn [cur_token_ current_]; destruct (Token.kind t); lia
    | constructor | constructor |].
  cbn [current_]. rewrite Hrun. exists d, result, p'. split; [reflexivity | exact Hres].
Qed.

(** Property X20.  [parse_instructions] returns on every source text, without
    fault: with no message and the instructions of the text, each with a known
    opcode and operands built from tokens, [.END] at most once and last; or
    with one message and the unknown instruction alone. *)
Theorem parse_instructions_result uninitialised source :
  exists d instructions p,
    parse_instructions uninitialised (new_Parser source) = Some (d, Ok (instructions, p))
    /\ ((d = [] /\ Forall parsed_instruction instructions /\ END_only_last instructions)
        \/ ((exists diagnostic, d = [diagnostic])
            /\ instructions = [unknown_instruction])).
Proof.
  destruct (parse_instructions_returns uninitialised source)
    as (d & instructions & p & Hparse & Hresult).
  exists d, instructions, p. split; [exact Hparse | exact Hresult].
Qed.

(** *** The program *)

Lemma assemble_and_list_outcome cs instructions :
  let '(d, r) := assemble_and_list cs instructions in
  (length d <= 1)%nat
  /\ forall status lines,
       r = Ok (status, lines) ->
       (status = 0 /\ d = [] /\ lines <> []) \/ (status = 1 /\ lines = []).
Proof.
  unfold assemble_and_list.
  destruct (run_reports cs (new_Assembler instructions)) as [Hd | (diag & a' & ->)].
  - destruct (run cs (new_Assembler instructions)) as [d [[a' binary]|f]] eqn:Hrun;
      cbn [fst] in Hd; subst d; cbn [ebind].
    + destruct binary as [|word binary]; cbn [silent app length].
      * split; [lia|]. intros status lines [= <- <-]. right. auto.
      * destruct (run_success cs _ _ _ _ Hrun ltac:(discriminate))
          as (_ & _ & _ & first & others & _ & _ & _ & _ & _ & Hfirst & _).
        unfold start_address. rewrite Hfirst. cbn [silent ebind app length].
        split; [lia|]. intros status lines [= <- <-]. left.
        split; [reflexivity|]. split; [reflexivity | discriminate].
    + cbn [length]. split; [lia | discriminate].
  - cbn [ebind silent app length]. split; [lia|].
    intros status lines [= <- <-]. right. auto.
Qed.

(** Property X21.  Without [-t] and [-I], [main] returns on every source text
    unless the assembler faults; it writes at most one message; the exit
    status is 0 exactly when it writes a non-empty listing, and then there is
    no message; otherwise the status is 1 and nothing is listed. *)
Theorem main_exit_status cs uninitialised source :
  exists messages r,
    main cs uninitialised {| print_tokens := false; print_instructions := false |} source
    = Some (messages, r)
    /\ (length messages <= 1)%nat
    /\ forall status written,
         r = Ok (status, written) ->
         (status = 0 /\ messages = [] /\ written <> [])
         \/ (status = 1 /\ written = []).
Proof.
  unfold main. cbn [print_tokens print_instructions].
  destruct (parse_instructions_returns uninitialised source)
    as (d & instructions & p' & -> & Hres).
  destruct Hres as [(-> & Hparsed & _) | [(diagnostic & ->) ->]].
  - replace ((length instructions =? 1)%nat && forallb is_unknown instructions)
      with false.
    2:{ destruct instructions as [|instr [|]]; try reflexivity.
        apply Forall_inv in Hparsed. destruct Hparsed as [Hknown _].
        cbn. now rewrite Hknown. }
    pose proof (assemble_and_list_outcome cs instructions) as Hout.
    destruct (assemble_and_list cs instructions) as [d' [[status lines]|f]].
    + destruct Hout as [Hlen Hout]. do 2 eexists. split; [reflexivity|].
      cbn [map app]. split; [now rewrite length_map|].
      intros status' written [= <- <-].
      destruct (Hout status lines eq_refl) as [(-> & -> & Hlines) | (-> & ->)];
        [left | right; auto].
      split; [reflexivity|]. split; [reflexivity|].
      destruct lines; [contradiction | discriminate].
    + destruct Hout as [Hlen _]. do 2 eexists. split; [reflexivity|].
      cbn [map app]. split; [now rewrite length_map | discriminate].
  - cbn [length Nat.eqb forallb andb]. change (is_unknown unknown_instruction) with true.
    cbn [andb]. do 2 eexists. split; [reflexivity|]. cbn [map length].
    split; [lia|]. intros status written [= <- <-]. right. auto.
Qed.

(** *** Printed numerals *)

Lemma numeral_value_app base ds suffix :
  numeral_value base (String.append ds suffix)
  = numeral_value base ds * base ^ Z.of_nat (String.length suffix)
    + numeral_value base suffix.
Proof.
  induction ds as [|c ds IH]; [rewrite append_nil; cbn; lia|].
  rewrite append_cons. cbn [numeral_value String.length]. rewrite IH, append_length.
  rewrite Nat2Z.inj_add, Z.pow_add_r by lia. lia.
Qed.

Lemma all_of_app p a b : all_of p (String.append a b) = all_of p a && all_of p b.
Proof.
  induction a as [|c a IH]; [reflexivity|]. rewrite append_cons. cbn [all_of].
  now rewrite IH, andb_assoc.
Qed.

(** The character that an alphabet of digits holds for a value below the
    base. *)
Lemma digit_character base alphabet v :
  (base = 10 /\ alphabet = "0123456789"%string)
  \/ (base = 16 /\ alphabet = "0123456789ABCDEF"%string) ->
  0 <= v < base ->
  exists c, String.get (Z.to_nat v) alphabet = Some c
            /\ numeral_digit c = v
            /\ is_digit_of base c = true
            /\ (base = 10 -> isdigit c = true).
Proof.
  intros [[-> ->] | [-> ->]] Hv.
  - assert (E : v = 0 \/ v = 1 \/ v = 2 \/ v = 3 \/ v = 4 \/ v = 5 \/ v = 6 \/ v = 7
                \/ v = 8 \/ v = 9) by lia.
    repeat destruct E as [-> | E]; try subst v;
      (eexists; split; [reflexivity|]; repeat split; reflexivity).
  - assert (E : v = 0 \/ v = 1 \/ v = 2 \/ v = 3 \/ v = 4 \/ v = 5 \/ v = 6 \/ v = 7
                \/ v = 8 \/ v = 9 \/ v = 10 \/ v = 11 \/ v = 12 \/ v = 13 \/ v = 14
                \/ v = 15) by lia.
    repeat destruct E as [-> | E]; try subst v;
      (eexists; split; [reflexivity|]; repeat split; try reflexivity; discriminate).
Qed.

Lemma digits_in_S base alphabet fuel n suffix :
  digits_in base alphabet (S fuel) n suffix
  = let digit :=
      match String.get (Z.to_nat (n mod base)) alphabet with
      | Some c => c
      | None => "?"%char
      end in
    if n <? base then String digit suffix
    else digits_in base alphabet fuel (n / base) (String digit suffix).
Proof. reflexivity. Qed.

Lemma digits_in_numeral base alphabet fuel : forall n suffix,
  (base = 10 /\ alphabet = "0123456789"%string)
  \/ (base = 16 /\ alphabet = "0123456789ABCDEF"%string) ->
  0 <= n < base ^ Z.of_nat (S fuel) ->
  exists ds,
    digits_in base alphabet (S fuel) n suffix = String.append ds suffix
    /\ ds <> EmptyString
    /\ all_of (is_digit_of base) ds = true
    /\ (base = 10 -> all_of isdigit ds = true)
    /\ numeral_value base ds = n.
Proof.
  induction fuel as [|fuel IH]; intros n suffix Hbase Hn;
    assert (Hb : 1 < base) by (destruct Hbase as [[-> _] | [-> _]]; lia);
    rewrite digits_in_S; cbv zeta;
    (destruct (digit_character base alphabet (n mod base) Hbase)
       as (c & -> & Hc & Hdigit & Hdec); [apply Z.mod_pos_bound; lia|]);
    destruct (Z.ltb_spec n base) as [Hsmall | Hlarge].
  - exists (String c EmptyString). rewrite append_cons, append_nil.
    split; [reflexivity|]. split; [discriminate|]. cbn [all_of numeral_value String.length].
    rewrite Hdigit, Hc, Z.mod_small by lia. split; [reflexivity|].
    split; [intros Hten; now rewrite (Hdec Hten) | cbn; lia].
  - exfalso. change (Z.of_nat 1) with 1 in Hn. rewrite Z.pow_1_r in Hn. lia.
  - exists (String c EmptyString). rewrite append_cons, append_nil.
    split; [reflexivity|]. split; [discriminate|]. cbn [all_of numeral_value String.length].
    rewrite Hdigit, Hc, Z.mod_small by lia. split; [reflexivity|].
    split; [intros Hten; now rewrite (Hdec Hten) | cbn; lia].
  - destruct (IH (n / base) (String c suffix) Hbase) as (ds & -> & Hne & Hall & Hdecs & Hval).
    { rewrite (Nat2Z.inj_succ (S fuel)), Z.pow_succ_r in Hn by lia.
      split; [apply Z.div_pos; lia | apply Z.div_lt_upper_bound; lia]. }
    exists (String.append ds (String c EmptyString)).
    split; [now rewrite append_assoc, append_cons, append_nil|].
    split; [destruct ds; [contradiction | discriminate]|].
    rewrite !all_of_app, Hall. cbn [all_of]. rewrite Hdigit.
    split; [reflexivity|]. split.
    + intros Hten. now rewrite (Hdecs Hten), (Hdec Hten).
    + rewrite numeral_value_app, Hval. cbn [numeral_value String.length]. rewrite Hc.
      change (Z.of_nat 1) with 1. change (Z.of_nat 0) with 0.
      rewrite Z.pow_1_r, Z.pow_0_r. pose proof (Z.div_mod n base ltac:(lia)). lia.
Qed.

Lemma fuel_suffices base n :
  1 < base -> 0 <= n -> n < base ^ Z.of_nat (S (Z.to_nat (Z.log2 n))).
Proof.
  intros Hb Hn. rewrite Nat2Z.inj_succ, Z2Nat.id by apply Z.log2_nonneg.
  destruct (Z.eq_dec n 0) as [-> | Hne]; [cbn; lia|].
  destruct (Z.log2_spec n ltac:(lia)) as [_ Hlt].
  eapply Z.lt_le_trans; [exact Hlt|].
  apply Z.pow_le_mono_l. lia.
Qed.

Lemma print_unsigned_numeral n :
  0 <= n ->
  print_unsigned n <> EmptyString
  /\ all_of isdigit (print_unsigned n) = true
  /\ numeral_value 10 (print_unsigned n) = n.
Proof.
  intros Hn. unfold print_unsigned.
  destruct (digits_in_numeral 10 "0123456789" (Z.to_nat (Z.log2 n)) n EmptyString)
    as (ds & -> & Hne & _ & Hdec & Hval);
    [auto | split; [exact Hn | apply fuel_suffices; lia]|].
  rewrite append_empty_r. auto.
Qed.

Lemma digit_of_16_hex c : is_digit_of 16 c = true -> is_hex_digit c = true.
Proof. each_char_hyp c. Qed.

Lemma print_hex_uppercase_numeral n :
  0 <= n ->
  print_hex_uppercase n <> EmptyString
  /\ all_of is_hex_digit (print_hex_uppercase n) = true
  /\ numeral_value 16 (print_hex_uppercase n) = n.
Proof.
  intros Hn. unfold print_hex_uppercase.
  destruct (digits_in_numeral 16 "0123456789ABCDEF" (Z.to_nat (Z.log2 n)) n EmptyString)
    as (ds & -> & Hne & Hall & _ & Hval);
    [auto | split; [exact Hn | apply fuel_suffices; lia]|].
  rewrite append_empty_r. split; [exact Hne|]. split; [|exact Hval].
  exact (all_of_impl _ _ _ digit_of_16_hex Hall).
Qed.

Lemma length_print_bitset N value : String.length (print_bitset N value) = N.
Proof. induction N as [|N IH]; cbn; [reflexivity | now rewrite IH]. Qed.

Lemma print_bitset_numeral N value :
  all_of is_binary_digit (print_bitset N value) = true
  /\ numeral_value 2 (print_bitset N value) = value mod 2 ^ Z.of_nat N.
Proof.
  induction N as [|N [IHall IHval]].
  - split; [reflexivity|]. cbn. now rewrite Z.mod_1_r.
  - cbn [print_bitset all_of numeral_value]. rewrite IHall, IHval, length_print_bitset.
    split; [destruct (Z.testbit value (Z.of_nat N)); reflexivity|].
    rewrite Nat2Z.inj_succ, Z.pow_succ_r, (Z.mul_comm 2) by lia.
    rewrite Z.rem_mul_r by lia.
    rewrite <- Z.testbit_spec' by lia.
    destruct (Z.testbit value (Z.of_nat N)); cbn [Z.b2z]; [change (numeral_digit "1") with 1
                                                          | change (numeral_digit "0") with 0];
      lia.
Qed.

(** *** Printed operands and listing lines read back *)

Lemma not_alnum_not_digit c : isalnum c = false -> isdigit c = false.
Proof. unfold isalnum. destruct (isdigit c); [rewrite orb_true_r; discriminate | reflexivity]. Qed.

Lemma delimited_not_digit rest :
  delimited rest -> match rest with String d _ => isdigit d = false | EmptyString => True end.
Proof. destruct rest; [auto | apply not_alnum_not_digit]. Qed.

Lemma next_token_identifier c run rest :
  isalpha c = true -> all_of isalnum run = true -> delimited rest ->
  next_token (String.append (String c run) rest)
  = Some (Token.mk (identifier_kind (String c run)) (String c run), rest).
Proof.
  intros Hc Hrun Hrest.
  destruct (isalpha_dispatch c Hc) as (H1 & H2 & H3 & H4 & H5 & H6).
  unfold next_token. rewrite append_cons. cbn [next_token_from String.length].
  rewrite H1, H2, H3, H4, H5, H6, Hc.
  unfold lex_identifier.
  rewrite (find_if_not_all isalnum run rest Hrun) by (destruct rest; auto).
  change (String c (String.append run rest)) with (String.append (String c run) rest).
  rewrite consumed_app. reflexivity.
Qed.

(** The text [operator<<] writes for an integer: a minus sign in front of the
    digits of a negative one. *)
Lemma print_integer_shape v :
  exists c t,
    print_integer v = String c t
    /\ all_of isdigit t = true
    /\ ((c = "-"%char /\ t <> EmptyString /\ v = - numeral_value 10 t)
        \/ (isdigit c = true /\ v = numeral_value 10 (String c t))).
Proof.
  unfold print_integer. destruct (v <? 0) eqn:E.
  - apply Z.ltb_lt in E.
    destruct (print_unsigned_numeral (- v) ltac:(lia)) as (Hne & Hall & Hval).
    exists "-"%char, (print_unsigned (- v)). split; [reflexivity|].
    split; [exact Hall|]. left. split; [reflexivity|]. split; [exact Hne | lia].
  - apply Z.ltb_ge in E.
    destruct (print_unsigned_numeral v E) as (Hne & Hall & Hval).
    destruct (print_unsigned v) as [|c t]; [contradiction|].
    cbn [all_of] in Hall. apply andb_true_iff in Hall as [Hc Ht].
    exists c, t. split; [reflexivity|]. split; [exact Ht|]. right. auto.
Qed.

Lemma digit_no_sign c : isdigit c = true -> Ascii.eqb c "+" || Ascii.eqb c "-" = false.
Proof. each_char_hyp c. Qed.

Lemma digit_dispatch c :
  isdigit c = true ->
  Ascii.eqb c newline = false /\ is_blank c = false /\ Ascii.eqb c "," = false
  /\ Ascii.eqb c "#" = false /\ Ascii.eqb c quote = false
  /\ Ascii.eqb c "x" = false /\ Ascii.eqb c "b" = false.
Proof. each_char c; intros _; repeat split. Qed.

Lemma print_integer_lexed v rest :
  delimited rest ->
  parse_decimal_number (String.append (print_integer v) rest) = rest
  /\ signed_decimal_shape (print_integer v) = true
  /\ signed_decimal_value (print_integer v) = v
  /\ print_integer v <> EmptyString
  /\ print_integer v <> "+"%string /\ print_integer v <> "-"%string
  /\ exists c t, print_integer v = String c t
                 /\ (isdigit c || Ascii.eqb c "+" || Ascii.eqb c "-") = true
                 /\ Ascii.eqb c "#" = false /\ Ascii.eqb c "x" = false
                 /\ Ascii.eqb c "b" = false /\ Ascii.eqb c newline = false
                 /\ is_blank c = false /\ Ascii.eqb c "," = false
                 /\ Ascii.eqb c quote = false.
Proof.
  intros Hrest. apply delimited_not_digit in Hrest.
  destruct (print_integer_shape v) as (c & t & -> & Ht & [(-> & Hne & Hv) | (Hc & Hv)]).
  - rewrite append_cons. cbn [parse_decimal_number signed_decimal_shape signed_decimal_value].
    change (Ascii.eqb "-" "+" || Ascii.eqb "-" "-") with true.
    change (Ascii.eqb "-" "-") with true. change (Ascii.eqb "-" "+") with false.
    cbv iota. rewrite (find_if_not_all isdigit t rest Ht Hrest), Ht.
    split; [reflexivity|]. split; [reflexivity|]. split; [congruence|].
    split; [discriminate|]. split; [discriminate|].
    split; [intros [= ->]; now apply Hne|].
    exists "-"%char, t. repeat split.
  - rewrite append_cons. cbn [parse_decimal_number signed_decimal_shape signed_decimal_value].
    pose proof (digit_no_sign c Hc) as Hs. apply orb_false_iff in Hs as [Hp Hm].
    rewrite Hp, Hm. cbn [orb]. cbv iota.
    change (String c (String.append t rest)) with (String.append (String c t) rest).
    rewrite (find_if_not_all isdigit (String c t) rest) by (cbn [all_of]; rewrite ?Hc, ?Ht; auto).
    cbn [all_of]. rewrite Hc, Ht.
    destruct (digit_dispatch c Hc) as (D1 & D2 & D3 & D4 & D5 & D6 & D7).
    split; [reflexivity|]. split; [reflexivity|]. split; [congruence|].
    split; [discriminate|].
    split; [intros [= -> ->]; discriminate Hc|].
    split; [intros [= -> ->]; discriminate Hc|].
    exists c, t. rewrite Hc. repeat split; auto.
Qed.

Lemma fold_to_i16_small v : INT16_MIN <= v <= INT16_MAX -> fold_to_i16 v = v.
Proof.
  unfold INT16_MAX, fold_to_i16. intros H.
  destruct (v <=? 32767) eqn:E; [reflexivity | apply Z.leb_gt in E; lia].
Qed.

Lemma in_int16_range v :
  INT16_MIN <= v <= INT16_MAX -> (INT16_MIN <=? v) && (v <=? UINT16_MAX) = true.
Proof.
  unfold INT16_MIN, INT16_MAX, UINT16_MAX. intros H.
  apply andb_true_iff. split; apply Z.leb_le; lia.
Qed.

Lemma not_rejected_number text :
  signed_decimal_shape text = true ->
  text <> EmptyString -> text <> "+"%string -> text <> "-"%string ->
  (exists c t, text = String c t /\ Ascii.eqb c "#" = false /\ Ascii.eqb c "x" = false
               /\ Ascii.eqb c "b" = false) ->
  ~ In text rejected_slices /\ ~ In (String "#" text) rejected_slices.
Proof.
  intros Hshape Hne Hp Hm (c & t & -> & Hh & Hx & Hb).
  unfold rejected_slices. cbn [In].
  split; intros H; repeat destruct H as [H | H]; try contradiction; try congruence;
    try (injection H as <-; discriminate).
Qed.

(** A printed integer is lexed as a number, after [#] as an immediate, and
    decoded to the integer it was printed from. *)
Lemma printed_integer_operand instr v rest :
  INT16_MIN <= v <= INT16_MAX -> delimited rest ->
  (next_token (String.append (print_integer v) rest)
   = Some (Token.mk Token.Number (print_integer v), rest)
   /\ add_operand instr (Token.mk Token.Number (print_integer v))
      = Ok (NoError, push_operand instr (Operand.of_number v)))
  /\ (next_token (String "#" (String.append (print_integer v) rest))
      = Some (Token.mk Token.Immediate (String "#" (print_integer v)), rest)
      /\ add_operand instr (Token.mk Token.Immediate (String "#" (print_integer v)))
         = Ok (NoError, push_operand instr (Operand.of_immediate v))).
Proof.
  intros Hv Hrest.
  destruct (print_integer_lexed v rest Hrest)
    as (Hparse & Hshape & Hval & Hne & Hp & Hm & c & t & Htext & Hstart & Hh & Hx & Hb
        & Hnl & Hbl & Hco & Hq).
  destruct (not_rejected_number (print_integer v) Hshape Hne Hp Hm) as [Hrej Hrej'];
    [exists c, t; auto|].
  assert (Hnum : lexed_integer_slice Token.Number (print_integer v) = true).
  { rewrite Htext. cbn [lexed_integer_slice]. rewrite Hstart, <- Htext. exact Hshape. }
  assert (Himm : lexed_integer_slice Token.Immediate (String "#" (print_integer v)) = true).
  { cbn [lexed_integer_slice]. exact Hshape. }
  pose proof (string_to_integer_lexed Token.Number _ (or_intror eq_refl) Hnum Hrej) as Dn.
  pose proof (string_to_integer_lexed Token.Immediate _ (or_introl eq_refl) Himm Hrej') as Di.
  cbv zeta in Dn, Di.
  replace (represented_integer (print_integer v)) with v in Dn
    by (rewrite Htext; unfold represented_integer; rewrite Hh, Hx, Hb, <- Htext; now rewrite Hval).
  replace (represented_integer (String "#" (print_integer v))) with v in Di
    by (unfold represented_integer; change (Ascii.eqb "#" "#") with true; now rewrite Hval).
  rewrite (in_int16_range v Hv), (fold_to_i16_small v Hv) in Dn, Di.
  split; split.
  - unfold next_token. rewrite Htext, append_cons. cbn [next_token_from String.length].
    rewrite Hnl, Hbl, Hco, Hh, Hq, Hstart.
    unfold lex_decimal_number.
    change (String c (String.append t rest)) with (String.append (String c t) rest).
    rewrite <- Htext, Hparse, consumed_app. reflexivity.
  - unfold add_operand. cbn [Token.kind Token.content].
    rewrite (is_valid_number_rejected (print_integer v) Hne).
    replace (existsb (String.eqb (print_integer v)) rejected_slices) with false
      by (symmetry; apply not_true_is_false; intros E; apply existsb_eqb_In in E; contradiction).
    cbn [bind negb]. unfold to_integer. rewrite Dn. reflexivity.
  - unfold next_token. cbn [next_token_from String.length].
    change (Ascii.eqb "#" newline) with false. change (is_blank "#") with false.
    change (Ascii.eqb "#" ",") with false. change (Ascii.eqb "#" "#") with true.
    cbv iota. unfold lex_decimal_number. rewrite Hparse.
    change (String "#" (String.append (print_integer v) rest))
      with (String.append (String "#" (print_integer v)) rest).
    rewrite consumed_app. reflexivity.
  - unfold add_operand. cbn [Token.kind Token.content].
    rewrite (is_valid_number_rejected (String "#" (print_integer v))) by discriminate.
    replace (existsb (String.eqb (String "#" (print_integer v))) rejected_slices) with false
      by (symmetry; apply not_true_is_false; intros E; apply existsb_eqb_In in E; contradiction).
    cbn [bind negb]. unfold to_integer. rewrite Di. reflexivity.
Qed.

Lemma printed_register_operand instr reg_id rest :
  0 <= reg_id <= 7 -> delimited rest ->
  next_token (String.append (String "R" (print_unsigned reg_id)) rest)
  = Some (Token.mk Token.Register (String "R" (print_unsigned reg_id)), rest)
  /\ add_operand instr (Token.mk Token.Register (String "R" (print_unsigned reg_id)))
     = Ok (NoError, push_operand instr (Operand.of_register reg_id)).
Proof.
  intros Hr Hrest.
  assert (Hcases : reg_id = 0 \/ reg_id = 1 \/ reg_id = 2 \/ reg_id = 3 \/ reg_id = 4
                   \/ reg_id = 5 \/ reg_id = 6 \/ reg_id = 7) by lia.
  repeat destruct Hcases as [-> | Hcases]; try subst reg_id;
    (split; [rewrite next_token_identifier by (auto; reflexivity) | ]; reflexivity).
Qed.

Lemma printed_operand_read_back instr o rest :
  printable o -> delimited rest ->
  exists token,
    next_token (String.append (print_Operand o) rest) = Some (token, rest)
    /\ add_operand instr token = Ok (NoError, push_operand instr o).
Proof.
  intros Ho Hrest. destruct o as [reg_id | imm | imm | text | text]; cbn [printable] in Ho.
  - eexists. exact (printed_register_operand instr reg_id rest Ho Hrest).
  - eexists. exact (proj2 (printed_integer_operand instr imm rest Ho Hrest)).
  - eexists. exact (proj1 (printed_integer_operand instr imm rest Ho Hrest)).
  - destruct Ho as (c & run & -> & Hc & Hrun & Hkind).
    eexists. split; [exact (next_token_identifier c run rest Hc Hrun Hrest)|].
    unfold add_operand. cbn [Token.kind Token.content]. rewrite Hkind. reflexivity.
  - eexists. cbn [print_Operand]. rewrite append_cons, append_assoc, append_cons, append_nil.
    exact (closed_literal_operand instr text rest Ho).
Qed.

(** Property X22.  What [operator<<] prints for an operand is lexed as one
    token, from which [add_operand] builds the operand again. *)
Theorem operand_print_parse instr o rest :
  printable o -> delimited rest ->
  exists token,
    next_token (String.append (print_Operand o) rest) = Some (token, rest)
    /\ add_operand instr token = Ok (NoError, push_operand instr o).
Proof.
  intros Ho Hrest.
  destruct (printed_operand_read_back instr o rest Ho Hrest) as (token & Hlex & Hadd).
  exists token. split; [exact Hlex | exact Hadd].
Qed.

Lemma operand_print_parse_witness :
  exists token,
    next_token (String.append (print_Operand (Operand.of_immediate (-5))) ", R1")
    = Some (token, ", R1"%string)
    /\ add_operand unknown_instruction token
       = Ok (NoError, push_operand unknown_instruction (Operand.of_immediate (-5))).
Proof.
  apply operand_print_parse.
  - unfold printable, INT16_MIN, INT16_MAX. lia.
  - reflexivity.
Defined.

Lemma hex_digit_dispatch c :
  is_hex_digit c = true ->
  Ascii.eqb c "+" = false /\ Ascii.eqb c "-" = false.
Proof. each_char c; intros _; split; reflexivity. Qed.

(** Property X23.  A line of the listing holds the address in hexadecimal and
    the word as sixteen binary digits; behind the prefixes [x] and [b] the
    decoder of the assembler reads them back. *)
Theorem listing_line_reads_back address word :
  0 <= address <= UINT16_MAX -> 0 <= word <= UINT16_MAX ->
  let hex := print_hex_uppercase address in
  let bits := print_bitset 16 word in
  listing_line (address, word)
  = String.append "(" (String.append hex (String.append ") " (String.append bits end_of_line)))
  /\ String.length bits = 16%nat
  /\ string_to_integer (String "x" hex) = (fold_to_i16 address, true)
  /\ string_to_integer (String "b" bits) = (fold_to_i16 word, true).
Proof.
  intros Ha Hw hex bits. unfold UINT16_MAX in Ha, Hw.
  split; [unfold listing_line, written; cbn [fold_right fst snd]; now rewrite append_empty_r|].
  split; [apply length_print_bitset|].
  destruct (print_hex_uppercase_numeral address ltac:(lia)) as (Hne & Hhex & Hvalue).
  destruct (print_bitset_numeral 16 word) as (Hbin & Hword).
  rewrite Z.mod_small in Hword by (change (2 ^ Z.of_nat 16) with 65536; lia).
  split.
  - rewrite (string_to_integer_lexed Token.Immediate (String "x" hex)).
    + cbv zeta. unfold represented_integer.
      change (Ascii.eqb "x" "#") with false. change (Ascii.eqb "x" "x") with true.
      cbv iota. fold hex in Hvalue. rewrite Hvalue.
      replace ((INT16_MIN <=? address) && (address <=? UINT16_MAX)) with true; [reflexivity|].
      symmetry. apply andb_true_iff. unfold INT16_MIN, UINT16_MAX. split; apply Z.leb_le; lia.
    + now left.
    + exact Hhex.
    + fold hex in Hne, Hhex. destruct hex as [|c t]; [contradiction|].
      cbn [all_of] in Hhex. apply andb_true_iff in Hhex as [Hc _].
      destruct (hex_digit_dispatch c Hc) as [Hp Hm].
      unfold rejected_slices. cbn [In].
      intros H; repeat destruct H as [H | H]; try contradiction; try discriminate H;
        injection H as <- _; vm_compute in Hp, Hm; discriminate.
  - rewrite (string_to_integer_lexed Token.Immediate (String "b" bits)).
    + cbv zeta. unfold represented_integer.
      change (Ascii.eqb "b" "#") with false. change (Ascii.eqb "b" "x") with false.
      change (Ascii.eqb "b" "b") with true.
      cbv iota. fold bits in Hword. rewrite Hword.
      replace ((INT16_MIN <=? word) && (word <=? UINT16_MAX)) with true; [reflexivity|].
      symmetry. apply andb_true_iff. unfold INT16_MIN, UINT16_MAX. split; apply Z.leb_le; lia.
    + now left.
    + exact Hbin.
    + pose proof (length_print_bitset 16 word) as Hlen. fold bits in Hlen.
      unfold rejected_slices. cbn [In].
      intros H; repeat destruct H as [H | H]; try contradiction; try discriminate H;
        injection H as H; rewrite <- H in Hlen; discriminate Hlen.
Qed.

Lemma listing_line_reads_back_witness :
  listing_line (12288, 4735)
  = String.append "("
      (String.append (print_hex_uppercase 12288)
         (String.append ") " (String.append (print_bitset 16 4735) end_of_line)))
  /\ String.length (print_bitset 16 4735) = 16%nat
  /\ string_to_integer (String "x" (print_hex_uppercase 12288)) = (fold_to_i16 12288, true)
  /\ string_to_integer (String "b" (print_bitset 16 4735)) = (fold_to_i16 4735, true).
Proof.
  apply (listing_line_reads_back 12288 4735); unfold UINT16_MAX; lia.
Defined.

(** *** Tokens are slices of the source *)

Lemma consumed_one c rest : consumed (String c rest) rest = String c EmptyString.
Proof.
  change (String c rest) with (String.append (String c EmptyString) rest).
  apply consumed_app.
Qed.


Ltac branch H name :=
  match type of H with (if ?b then _ else _) = _ => destruct b eqn:name end.



(** *** The content of a token in a message *)

Lemma display_content_app a b :
  display_content (String.append a b)
  = String.append (display_content a) (display_content b).
Proof.
  induction a as [|c a IH]; [reflexivity|].
  rewrite append_cons. cbn [display_content]. now rewrite IH, append_assoc.
Qed.


(** *** The printed program read back *)

Lemma next_token_from_fuel fuel : forall fuel' s,
  (String.length s < fuel)%nat -> (String.length s < fuel')%nat ->
  next_token_from fuel s = next_token_from fuel' s.
Proof.
  induction fuel as [|fuel IH]; intros [|fuel'] s H H'; try lia.
  destruct s as [|c rest]; [reflexivity|]. cbn [next_token_from String.length] in *.
  pose proof (find_if_not_length (fun ch => isspace ch && negb (Ascii.eqb ch newline)) rest).
  pose proof (find_if_not_length (fun ch => negb (Ascii.eqb ch newline)) rest).
  repeat match goal with
         | |- (if ?b then _ else _) = (if ?b then _ else _) => destruct b
         end;
    try reflexivity; apply IH; unfold consume_spaces, consume_comment; lia.
Qed.

Lemma blank_isspace c : is_blank c = isspace c && negb (Ascii.eqb c newline).
Proof. each_char c. Qed.

Lemma next_token_from_blank fuel c rest :
  is_blank c = true ->
  next_token_from (S fuel) (String c rest) = next_token_from fuel (consume_spaces rest).
Proof.
  intros Hc. cbn [next_token_from]. rewrite Hc.
  replace (Ascii.eqb c newline) with false; [reflexivity|].
  revert Hc. each_char_hyp c.
Qed.

Lemma next_token_consume_spaces s : next_token (consume_spaces s) = next_token s.
Proof.
  destruct s as [|c rest]; [reflexivity|].
  unfold consume_spaces at 1. cbn [find_if_not].
  destruct (isspace c && negb (Ascii.eqb c newline)) eqn:Hc; [|reflexivity].
  rewrite <- blank_isspace in Hc.
  unfold next_token at 2. cbn [String.length]. rewrite (next_token_from_blank _ _ _ Hc).
  pose proof (find_if_not_length (fun ch => isspace ch && negb (Ascii.eqb ch newline)) rest).
  apply next_token_from_fuel; unfold consume_spaces; lia.
Qed.

Lemma next_token_skips_blank s : next_token (String " " s) = next_token s.
Proof.
  unfold next_token at 1. cbn [String.length].
  rewrite (next_token_from_blank _ " " s eq_refl).
  rewrite <- (next_token_consume_spaces s).
  pose proof (find_if_not_length (fun ch => isspace ch && negb (Ascii.eqb ch newline)) s).
  apply next_token_from_fuel; unfold consume_spaces; lia.
Qed.

Lemma next_token_comma rest :
  next_token (String "," rest) = Some (Token.mk Token.Comma ",", rest).
Proof.
  unfold next_token. cbn [next_token_from String.length].
  change (Ascii.eqb "," newline) with false. change (is_blank ",") with false.
  change (Ascii.eqb "," ",") with true. cbv iota. now rewrite consumed_one.
Qed.

Lemma next_token_newline rest :
  next_token (String newline rest) = Some (Token.mk Token.EOL end_of_line, rest).
Proof.
  unfold next_token. cbn [next_token_from String.length].
  rewrite Ascii.eqb_refl. now rewrite consumed_one.
Qed.

Lemma next_token_dotted run rest :
  all_of isalnum run = true -> delimited rest ->
  next_token (String.append (String "." run) rest)
  = Some (Token.mk (if is_valid_pseudo (String "." run) then Token.Pseudo else Token.Unknown)
                   (String "." run), rest).
Proof.
  intros Hrun Hrest.
  unfold next_token. rewrite append_cons. cbn [next_token_from String.length].
  change (Ascii.eqb "." newline) with false. change (is_blank ".") with false.
  change (Ascii.eqb "." ",") with false. change (Ascii.eqb "." "#") with false.
  change (Ascii.eqb "." quote) with false.
  change (isdigit "." || Ascii.eqb "." "+" || Ascii.eqb "." "-") with false.
  change (isalpha ".") with false. change (Ascii.eqb "." ".") with true. cbv iota.
  unfold lex_identifier.
  rewrite (find_if_not_all isalnum run rest Hrun) by (destruct rest; auto).
  change (String "." (String.append run rest)) with (String.append (String "." run) rest).
  rewrite consumed_app. reflexivity.
Qed.

(** The spelling of an opcode is lexed as one token, under which
    [set_opcode] finds the opcode. *)
Lemma spelling_lexed instr rest :
  is_unknown instr = false -> delimited rest ->
  exists token,
    next_token (String.append (get_opcode_spelling instr) rest) = Some (token, rest)
    /\ (Token.kind token = Token.Opcode \/ Token.kind token = Token.Pseudo)
    /\ forall instr0, set_opcode_from_token instr0 token = Ok (set_opcode instr0 (opcode_ instr)).
Proof.
  intros Hknown Hrest. unfold get_opcode_spelling, is_unknown in *.
  destruct (opcode_ instr); try discriminate Hknown; cbn [table_key opcode_def pseudos];
    (eexists; split;
     [ first [ apply next_token_identifier; [reflexivity | reflexivity | exact Hrest]
             | apply next_token_dotted; [reflexivity | exact Hrest] ]
     | split; [first [left; reflexivity | right; reflexivity] | intros instr0; reflexivity] ]).
Qed.

Lemma print_operands_cons ops : forall o,
  print_operands (o :: ops) = String.append (print_Operand o) (more_operands ops).
Proof.
  induction ops as [|o' ops IH]; intros o.
  - cbn [print_operands more_operands]. now rewrite append_empty_r.
  - change (print_operands (o :: o' :: ops))
      with (String.append (print_Operand o)
              (String.append ", " (print_operands (o' :: ops)))).
    rewrite IH. reflexivity.
Qed.

Lemma delimited_more_operands ops rest :
  delimited (String.append (more_operands ops) (String newline rest)).
Proof. destruct ops; reflexivity. Qed.

Lemma length_more_operands ops rest :
  (length ops <= String.length (String.append (more_operands ops) rest))%nat.
Proof.
  induction ops as [|o ops IH]; cbn [length more_operands]; [lia|].
  rewrite !append_cons. cbn [String.length]. rewrite append_assoc, append_length. lia.
Qed.

Lemma pbind_quiet {A B} (m : parsing A) (k : A -> parsing B) p a p' :
  m p = Some ([], Ok (a, p')) -> pbind m k p = k a p'.
Proof. intros H. unfold pbind. rewrite H. destruct (k a p') as [[d r]|]; reflexivity. Qed.

Lemma move_to_next_token_lexed text token0 token rest :
  next_token text = Some (token, rest) ->
  move_to_next_token {| current_ := text; cur_token_ := token0 |}
  = Some ([], Ok (token, {| current_ := rest; cur_token_ := token |})).
Proof. intros H. unfold move_to_next_token. cbn [current_]. now rewrite H. Qed.

Lemma fold_push_operand ops : forall instr,
  fold_left push_operand ops instr
  = {| label_ := label_ instr; operands_ := operands_ instr ++ ops;
       opcode_ := opcode_ instr; address_ := address_ instr |}.
Proof.
  induction ops as [|o ops IH]; intros instr.
  - cbn [fold_left]. rewrite app_nil_r. now destruct instr.
  - cbn [fold_left]. rewrite IH. cbn [push_operand label_ operands_ opcode_ address_].
    now rewrite <- app_assoc.
Qed.

(** The loop of [parse_operand_list] on the printed operands. *)
Lemma parse_operands_after_printed ops : forall fuel instr token rest,
  Forall printable ops -> (length ops < fuel)%nat ->
  parse_operands_after fuel instr
    {| current_ := String.append (more_operands ops) (String newline rest);
       cur_token_ := token |}
  = Some ([], Ok (fold_left push_operand ops instr,
                  {| current_ := rest; cur_token_ := Token.mk Token.EOL end_of_line |})).
Proof.
  induction ops as [|o ops IH]; intros [|fuel] instr token rest Hall Hfuel;
    cbn [length] in Hfuel; try lia; cbn [parse_operands_after more_operands fold_left].
  - rewrite append_nil.
    rewrite (pbind_quiet _ _ _ _ _
               (move_to_next_token_lexed _ token _ _ (next_token_newline rest))).
    reflexivity.
  - apply Forall_cons in Hall as [Ho Hall].
    rewrite !append_cons.
    rewrite (pbind_quiet _ _ _ _ _
               (move_to_next_token_lexed _ token _ _ (next_token_comma _))).
    cbn [Token.kind TokenKind_eqb].
    destruct (printed_operand_read_back instr o
                (String.append (more_operands ops) (String newline rest)) Ho
                (delimited_more_operands ops rest)) as (operand_token & Hlex & Hadd).
    erewrite pbind_quiet.
    2:{ apply move_to_next_token_lexed.
        rewrite next_token_skips_blank, append_assoc. exact Hlex. }
    rewrite Hadd. cbn [from_outcome].
    erewrite pbind_quiet by reflexivity.
    apply IH; [exact Hall | lia].
Qed.

Lemma print_Instruction_text instr :
  print_Instruction instr
  = String.append (if has_label instr then String.append (get_label instr) " "
                   else EmptyString)
      (String.append (get_opcode_spelling instr) (operand_text (operands_ instr))).
Proof.
  unfold print_Instruction, operand_size.
  destruct (operands_ instr) as [|o more]; [reflexivity|].
  cbn [length Nat.eqb negb operand_text]. now rewrite print_operands_cons.
Qed.

Lemma delimited_operand_text ops rest :
  delimited (String.append (operand_text ops) (String newline rest)).
Proof. destruct ops; reflexivity. Qed.

Lemma current_token_step {B} (k : Token.Token -> parsing B) p :
  pbind current_token k p = k (cur_token_ p) p.
Proof. now apply pbind_quiet. Qed.

(** [parse_operand_list], entered behind the opcode, on the printed
    operands. *)
Lemma parse_operand_list_printed instr ops rest token :
  Forall printable ops ->
  pbind move_to_next_token (fun _ => parse_operand_list instr)
    {| current_ := String.append (operand_text ops) (String newline rest);
       cur_token_ := token |}
  = Some ([], Ok (fold_left push_operand ops instr,
                  {| current_ := rest; cur_token_ := Token.mk Token.EOL end_of_line |})).
Proof.
  intros Hall. destruct ops as [|o more]; cbn [operand_text fold_left].
  - rewrite append_nil.
    rewrite (pbind_quiet _ _ _ _ _
               (move_to_next_token_lexed _ token _ _ (next_token_newline rest))).
    unfold parse_operand_list. rewrite current_token_step. reflexivity.
  - apply Forall_cons in Hall as [Ho Hall].
    destruct (printed_operand_read_back instr o
                (String.append (more_operands more) (String newline rest)) Ho
                (delimited_more_operands more rest)) as (operand_token & Hlex & Hadd).
    erewrite pbind_quiet.
    2:{ apply move_to_next_token_lexed.
        rewrite append_cons, next_token_skips_blank, append_assoc. exact Hlex. }
    unfold parse_operand_list. rewrite current_token_step. cbn [cur_token_].
    rewrite Hadd. cbn [from_outcome]. erewrite pbind_quiet by reflexivity.
    cbv beta iota. cbn [current_].
    apply parse_operands_after_printed; [exact Hall|].
    pose proof (length_more_operands more (String newline rest)). lia.
Qed.

Lemma skip_EOL_at_opcode fuel p :
  Token.kind (cur_token_ p) = Token.Opcode \/ Token.kind (cur_token_ p) = Token.Pseudo ->
  skip_EOL (S fuel) p = Some ([], Ok (tt, p)).
Proof.
  intros Hk. cbn [skip_EOL]. rewrite current_token_step.
  destruct Hk as [-> | ->]; reflexivity.
Qed.

(** [parse_instruction] behind the opcode token. *)
Lemma parse_instruction_at_opcode instr0 instr rest opcode_token :
  Forall printable (operands_ instr) ->
  (Token.kind opcode_token = Token.Opcode \/ Token.kind opcode_token = Token.Pseudo) ->
  set_opcode_from_token instr0 opcode_token = Ok (set_opcode instr0 (opcode_ instr)) ->
  (parser_do _ <- (fun p => skip_EOL (S (S (String.length (current_ p)))) p);
   parser_do opcode_token <- current_token;
   if negb (TokenKind_eqb (Token.kind opcode_token) Token.Opcode)
      && negb (TokenKind_eqb (Token.kind opcode_token) Token.Pseudo)
   then
     parser_do _ <- emit_opcode_diag_at_current_token;
     parsed unknown_instruction
   else
     parser_do instr <- from_outcome (set_opcode_from_token instr0 opcode_token);
     parser_do _ <- move_to_next_token;
     parse_operand_list instr)
    {| current_ := String.append (operand_text (operands_ instr)) (String newline rest);
       cur_token_ := opcode_token |}
  = Some ([], Ok (fold_left push_operand (operands_ instr)
                    (set_opcode instr0 (opcode_ instr)),
                  {| current_ := rest; cur_token_ := Token.mk Token.EOL end_of_line |})).
Proof.
  intros Hall Hkind Hset.
  erewrite pbind_quiet by (apply skip_EOL_at_opcode; exact Hkind).
  rewrite current_token_step. cbn [cur_token_].
  replace (negb (TokenKind_eqb (Token.kind opcode_token) Token.Opcode)
           && negb (TokenKind_eqb (Token.kind opcode_token) Token.Pseudo)) with false
    by (destruct Hkind as [-> | ->]; reflexivity).
  rewrite Hset. cbn [from_outcome]. erewrite pbind_quiet by reflexivity.
  now apply parse_operand_list_printed.
Qed.

Lemma no_label instr : has_label instr = false -> label_ instr = EmptyString.
Proof.
  unfold has_label. intros H. apply negb_false_iff in H. now apply String.eqb_eq in H.
Qed.

(** One printed line: its first token, and [parse_instruction] entered on
    that token. *)
Lemma parse_instruction_printed indeterminate instr rest token :
  printable_instruction instr ->
  exists first p,
    move_to_next_token
      {| current_ := String.append (print_Instruction instr) (String newline rest);
         cur_token_ := token |}
    = Some ([], Ok (first, p))
    /\ cur_token_ p = first
    /\ (String.length rest < String.length (current_ p))%nat
    /\ Token.kind first <> Token.EOL /\ Token.kind first <> Token.End
    /\ parse_instruction indeterminate p
       = Some ([], Ok ({| label_ := label_ instr; operands_ := operands_ instr;
                          opcode_ := opcode_ instr; address_ := indeterminate |},
                       {| current_ := rest;
                          cur_token_ := Token.mk Token.EOL end_of_line |})).
Proof.
  intros (Hknown & Hlabel & Hall).
  set (result := {| label_ := label_ instr; operands_ := operands_ instr;
                    opcode_ := opcode_ instr; address_ := indeterminate |}).
  rewrite print_Instruction_text, !append_assoc.
  destruct (spelling_lexed instr
              (String.append (operand_text (operands_ instr)) (String newline rest))
              Hknown (delimited_operand_text _ _)) as (opcode_token & Hlex & Hkind & Hset).
  assert (Hfinal : forall label,
            label = label_ instr ->
            fold_left push_operand (operands_ instr)
              (set_opcode (set_label (default_initialised indeterminate) label)
                          (opcode_ instr))
            = result).
  { intros label ->. rewrite fold_push_operand. reflexivity. }
  destruct (has_label instr) eqn:Hhas.
  - destruct (Hlabel eq_refl) as (c & run & Htext & Hc & Hrun & Hlabel_kind).
    unfold get_label. rewrite Htext in Hlabel_kind |- *. rewrite append_assoc.
    do 2 eexists. split.
    { apply move_to_next_token_lexed. apply next_token_identifier; [exact Hc | exact Hrun|].
      reflexivity. }
    cbn [cur_token_ current_]. split; [reflexivity|]. rewrite Hlabel_kind.
    split; [rewrite !append_length; cbn [String.length]; lia|].
    split; [discriminate|]. split; [discriminate|].
    unfold parse_instruction. rewrite current_token_step. cbn [cur_token_ Token.kind].
    cbn [TokenKind_eqb Token.content].
    erewrite pbind_quiet.
    2:{ erewrite pbind_quiet; [reflexivity|]. apply move_to_next_token_lexed.
        rewrite append_cons, append_nil, next_token_skips_blank. exact Hlex. }
    rewrite <- (Hfinal (String c run)) by (symmetry; exact Htext).
    apply parse_instruction_at_opcode; [exact Hall | exact Hkind | apply Hset].
  - cbn [String.append]. rewrite append_nil.
    do 2 eexists. split; [apply move_to_next_token_lexed; exact Hlex|].
    cbn [cur_token_ current_]. split; [reflexivity|].
    split; [rewrite !append_length; cbn [String.length]; lia|].
    split; [destruct Hkind as [-> | ->]; discriminate|].
    split; [destruct Hkind as [-> | ->]; discriminate|].
    unfold parse_instruction. rewrite current_token_step. cbn [cur_token_].
    replace (TokenKind_eqb (Token.kind opcode_token) Token.Label) with false
      by (destruct Hkind as [-> | ->]; reflexivity).
    erewrite pbind_quiet by reflexivity.
    rewrite <- (Hfinal EmptyString) by (symmetry; now apply no_label).
    apply parse_instruction_at_opcode; [exact Hall | exact Hkind | apply Hset].
Qed.

Lemma printed_program_cons instr more :
  printed_program (instr :: more)
  = String.append (print_Instruction instr) (String newline (printed_program more)).
Proof.
  unfold printed_program, written. cbn [map fold_right]. now rewrite append_assoc.
Qed.

Lemma length_printed_program instructions :
  (2 * length instructions <= String.length (printed_program instructions))%nat.
Proof.
  induction instructions as [|instr more IH]; [cbn; lia|].
  rewrite printed_program_cons, append_length, print_Instruction_text, !append_length.
  cbn [length String.length].
  assert (0 < String.length (get_opcode_spelling instr))%nat
    by (unfold get_opcode_spelling; destruct (opcode_ instr); cbn; lia).
  lia.
Qed.

Lemma END_only_last_tail instr more :
  END_only_last (instr :: more) -> END_only_last more.
Proof.
  intros H i instr' Hi Hop. specialize (H (S i) instr' Hi Hop). cbn [length] in H. lia.
Qed.

(** The loop of [parse_instructions] on the printed program, entered on the
    first token: each instruction comes back with the address its local was
    left with. *)
Lemma parse_instructions_from_printed uninitialised instructions :
  forall fuel done token first p,
  Forall printable_instruction instructions ->
  END_only_last instructions ->
  (2 * length instructions < fuel)%nat ->
  move_to_next_token {| current_ := printed_program instructions; cur_token_ := token |}
  = Some ([], Ok (first, p)) ->
  exists p',
    parse_instructions_from fuel uninitialised done p
    = Some ([], Ok (done ++ imap (fun k instr =>
                                    {| label_ := label_ instr; operands_ := operands_ instr;
                                       opcode_ := opcode_ instr;
                                       address_ := uninitialised (length done + k)%nat |})
                                 instructions, p')).
Proof.
  induction instructions as [|instr more IH];
    intros [|fuel] done token first p Hall Hend Hfuel Hmove; cbn [length] in Hfuel; try lia.
  - injection Hmove as <- <-. exists {| current_ := EmptyString;
                                        cur_token_ := Token.mk Token.End EmptyString |}.
    cbn [parse_instructions_from imap]. rewrite current_token_step, app_nil_r. reflexivity.
  - apply Forall_cons in Hall as [Hinstr Hall].
    rewrite printed_program_cons in Hmove.
    destruct (parse_instruction_printed (uninitialised (length done)) instr
                (printed_program more) token Hinstr)
      as (first' & p1 & Hmove' & Hcur & _ & HnEOL & HnEnd & Hparse).
    rewrite Hmove in Hmove'. injection Hmove' as <- <-.
    pose proof Hinstr as (Hknown & _).
    set (instr' := {| label_ := label_ instr; operands_ := operands_ instr;
                      opcode_ := opcode_ instr;
                      address_ := uninitialised (length done) |}) in *.
    assert (Hknown' : is_unknown instr' = false) by exact Hknown.
    assert (Hread : done ++ imap (fun k instr =>
                                    {| label_ := label_ instr; operands_ := operands_ instr;
                                       opcode_ := opcode_ instr;
                                       address_ := uninitialised (length done + k)%nat |})
                                 (instr :: more)
                    = (done ++ [instr'])
                      ++ imap (fun k instr =>
                                 {| label_ := label_ instr; operands_ := operands_ instr;
                                    opcode_ := opcode_ instr;
                                    address_ :=
                                      uninitialised (length (done ++ [instr']) + k)%nat |})
                              more).
    { rewrite imap_cons, <- app_assoc. cbn [app]. rewrite Nat.add_0_r. fold instr'.
      do 2 f_equal. apply imap_ext. intros k x _. cbn. rewrite length_app. cbn [length].
      do 2 f_equal. lia. }
    assert (Hrest : exists p',
              (if Opcode_eqb (get_opcode instr') END then parsed (done ++ [instr'])
               else parse_instructions_from fuel uninitialised (done ++ [instr']))
                {| current_ := printed_program more;
                   cur_token_ := Token.mk Token.EOL end_of_line |}
              = Some ([], Ok (done ++ imap (fun k instr =>
                                    {| label_ := label_ instr; operands_ := operands_ instr;
                                       opcode_ := opcode_ instr;
                                       address_ := uninitialised (length done + k)%nat |})
                                 (instr :: more), p'))).
    { rewrite Hread. destruct (Opcode_eqb (get_opcode instr') END) eqn:HEND.
      - unfold Opcode_eqb, get_opcode in HEND. cbn [instr' opcode_] in HEND.
        destruct (Opcode_eq_dec (opcode_ instr) END) as [Hop|]; [|discriminate].
        specialize (Hend 0%nat instr eq_refl Hop). cbn [length] in Hend.
        destruct more; [|discriminate]. eexists. cbn [imap]. rewrite app_nil_r. reflexivity.
      - destruct fuel as [|fuel]; [lia|]. cbn [parse_instructions_from].
        rewrite current_token_step. cbn [cur_token_ Token.kind].
        destruct (next_token_total (printed_program more)) as (next & rest & Hnext).
        erewrite pbind_quiet by (apply move_to_next_token_lexed; exact Hnext).
        destruct (IH fuel (done ++ [instr']) (Token.mk Token.EOL end_of_line) next
                    {| current_ := rest; cur_token_ := next |} Hall
                    (END_only_last_tail _ _ Hend) ltac:(lia)
                    (move_to_next_token_lexed _ _ _ _ Hnext)) as (p' & Hloop).
        exists p'. exact Hloop. }
    destruct Hrest as (p' & Hrest). exists p'.
    cbn [parse_instructions_from]. rewrite current_token_step, Hcur.
    destruct (Token.kind first); try contradiction;
      (erewrite pbind_quiet by exact Hparse; fold instr'; rewrite Hknown'; exact Hrest).
Qed.

Lemma print_Instruction_address instr address :
  print_Instruction {| label_ := label_ instr; operands_ := operands_ instr;
                       opcode_ := opcode_ instr; address_ := address |}
  = print_Instruction instr.
Proof. reflexivity. Qed.

(** Property X26.  The parser reads the program [main] prints under [-I] back
    into the instructions it was printed from, without a message: label,
    opcode and operands are those printed, and the address of each is what its
    local in [parse_instruction] was left with, which the source does not set.
    Printed again, the text is the same, whatever these addresses are. *)
Theorem parse_printed_program cs uninitialised instructions :
  Forall printable_instruction instructions ->
  END_only_last instructions ->
  (exists p,
     parse_instructions uninitialised (new_Parser (printed_program instructions))
     = Some ([], Ok (imap (fun k instr =>
                             {| label_ := label_ instr; operands_ := operands_ instr;
                                opcode_ := opcode_ instr;
                                address_ := uninitialised k |})
                          instructions, p)))
  /\ main cs uninitialised {| print_tokens := false; print_instructions := true |}
          (printed_program instructions)
     = Some ([], Ok (0, map (fun instr => String.append (print_Instruction instr) end_of_line)
                            instructions)).
Proof.
  intros Hall Hend.
  set (read := imap (fun k instr =>
                       {| label_ := label_ instr; operands_ := operands_ instr;
                          opcode_ := opcode_ instr; address_ := uninitialised k |})
                    instructions).
  assert (Hparse : exists p,
            parse_instructions uninitialised (new_Parser (printed_program instructions))
            = Some ([], Ok (read, p))).
  { unfold parse_instructions, new_Parser.
    destruct (next_token_total (printed_program instructions)) as (first & rest & Hnext).
    pose proof (move_to_next_token_lexed _ (Token.mk Token.Unknown EmptyString) _ _ Hnext)
      as Hmove.
    erewrite pbind_quiet by exact Hmove. cbn [current_].
    apply (parse_instructions_from_printed uninitialised instructions _ []
             (Token.mk Token.Unknown EmptyString) first _ Hall Hend);
      [|exact Hmove].
    destruct instructions as [|instr more]; [cbn [length]; lia|].
    apply Forall_cons in Hall as [Hinstr _].
    rewrite printed_program_cons in Hmove.
    destruct (parse_instruction_printed 0 instr (printed_program more)
                (Token.mk Token.Unknown EmptyString) Hinstr)
      as (first' & p1 & Hmove' & _ & Hlen & _).
    rewrite Hmove in Hmove'. injection Hmove' as _ <-. cbn [current_] in Hlen.
    pose proof (length_printed_program more). cbn [length]. lia. }
  split; [exact Hparse|].
  destruct Hparse as (p & Hparse). unfold main. cbn [print_tokens print_instructions].
  rewrite Hparse. cbn [map].
  assert (Hprint : map (fun instr => String.append (print_Instruction instr) end_of_line) read
                   = map (fun instr => String.append (print_Instruction instr) end_of_line)
                         instructions).
  { unfold read. clear. revert uninitialised.
    induction instructions as [|instr more IH]; intros uninitialised; [reflexivity|].
    rewrite imap_cons. cbn [map]. rewrite print_Instruction_address. f_equal. apply IH. }
  rewrite Hprint.
  replace ((length read =? 1)%nat && forallb is_unknown read) with false;
    [reflexivity|].
  unfold read. destruct instructions as [|instr [|]]; try reflexivity.
  apply Forall_inv in Hall. destruct Hall as (Hknown & _). cbn.
  change (is_unknown instr = false) in Hknown. 
  unfold is_unknown in *. cbn [opcode_]. now rewrite Hknown.
Qed.

Lemma parse_printed_program_witness :
  (exists p,
     parse_instructions (fun k => 21288 + Z.of_nat k) (new_Parser (printed_program countdown))
     = Some ([], Ok (imap (fun k instr =>
                             {| label_ := label_ instr; operands_ := operands_ instr;
                                opcode_ := opcode_ instr;
                                address_ := 21288 + Z.of_nat k |})
                          countdown, p)))
  /\ main true (fun k => 21288 + Z.of_nat k)
          {| print_tokens := false; print_instructions := true |}
          (printed_program countdown)
     = Some ([], Ok (0, map (fun instr => String.append (print_Instruction instr) end_of_line)
                            countdown)).
Proof.
  apply (parse_printed_program true (fun k => 21288 + Z.of_nat k) countdown).
  - repeat (apply Forall_cons_2 || apply Forall_nil_2);
      (split; [reflexivity|]; split;
       [ first [ intros Hlabel; discriminate Hlabel
               | intros _; exists "L"%char, "OOP"%string; repeat split ]
       | repeat (apply Forall_cons_2 || apply Forall_nil_2);
         first [ unfold printable, INT16_MIN, INT16_MAX; lia
               | exists "L"%char, "OOP"%string; repeat split ] ]).
  - intros [|[|[|[|i]]]] instr Hlookup Hopcode; try reflexivity;
      try (injection Hlookup as <-; discriminate Hopcode); discriminate Hlookup.
Defined.

(** *** Blanks and comments *)

Lemma next_token_from_comment fuel rest :
  next_token_from (S fuel) (String ";" rest) = next_token_from fuel (consume_comment rest).
Proof. reflexivity. Qed.

Lemma next_token_blank c s : is_blank c = true -> next_token (String c s) = next_token s.
Proof.
  intros Hc. unfold next_token at 1. cbn [String.length].
  rewrite (next_token_from_blank _ c s Hc), <- (next_token_consume_spaces s).
  pose proof (find_if_not_length (fun ch => isspace ch && negb (Ascii.eqb ch newline)) s).
  apply next_token_from_fuel; unfold consume_spaces; lia.
Qed.

(** Property X27.  Blanks and comments are invisible to the lexer: a blank
    (space, tab, carriage return, form feed, vertical tab) in front of a text
    does not change the token read from it, and a comment is skipped up to,
    and not including, the newline that ends its line. *)
Theorem next_token_skips_blanks_and_comments s :
  (forall c, is_blank c = true -> next_token (String c s) = next_token s)
  /\ next_token (consume_spaces s) = next_token s
  /\ next_token (String ";" s) = next_token (consume_comment s)
  /\ exists comment,
       s = String.append comment (consume_comment s)
       /\ on_one_line comment = true
       /\ at_end_of_line (consume_comment s).
Proof.
  split; [intros c Hc; now apply next_token_blank|].
  split; [apply next_token_consume_spaces|].
  split.
  - unfold next_token at 1. cbn [String.length]. rewrite next_token_from_comment.
    pose proof (find_if_not_length (fun ch => negb (Ascii.eqb ch newline)) s).
    apply next_token_from_fuel; unfold consume_comment; lia.
  - exists (take_while (fun ch => negb (Ascii.eqb ch newline)) s). unfold consume_comment.
    split; [now rewrite take_while_find_if_not|].
    split; [apply all_of_take_while|].
    pose proof (find_if_not_stops (fun ch => negb (Ascii.eqb ch newline)) s) as Hstop.
    destruct (find_if_not _ s) as [|d rest]; [exact I|].
    cbn [at_end_of_line]. apply negb_false_iff in Hstop. now apply Ascii.eqb_eq in Hstop.
Qed.

(** *** The content of a token of each kind *)

Lemma next_token_from_shape fuel : forall s t r,
  next_token_from fuel s = Some (t, r) ->
  match Token.kind t with
  | Token.EOL => Token.content t = end_of_line
  | Token.Comma => Token.content t = ","%string
  | Token.Label => printable (Operand.of_label (Token.content t))
  | Token.String =>
      exists body,
        all_of literal_character body = true
        /\ (Token.content t = String quote (String.append body (String quote EmptyString))
            \/ Token.content t = String quote body)
  | Token.Unknown => Token.content t <> EmptyString
  | _ => True
  end.
Proof.
  induction fuel as [|fuel IH]; intros s t r H; [discriminate|].
  destruct s as [|c rest]; cbn [next_token_from] in H.
  { injection H as <- <-. exact I. }
  branch H Hnl.
  { injection H as <- <-. cbn [Token.kind Token.content]. rewrite consumed_one.
    apply Ascii.eqb_eq in Hnl. now subst c. }
  branch H Hblank; [exact (IH _ _ _ H)|].
  branch H Hcomma.
  { injection H as <- <-. cbn [Token.kind Token.content]. rewrite consumed_one.
    apply Ascii.eqb_eq in Hcomma. now subst c. }
  branch H Hhash; [injection H as <- <-; exact I|].
  branch H Hquote.
  { injection H as <- <-. cbn [Token.kind Token.content]. unfold lex_string_literal.
    apply Ascii.eqb_eq in Hquote. subst c.
    destruct (parse_string_literal_contract rest) as (body & Hbody & [Hs | [Hs _]]).
    - exists body. split; [exact Hbody|]. left.
      rewrite Hs at 1.
      replace (String quote (String.append body (String quote (parse_string_literal rest))))
        with (String.append (String quote (String.append body (String quote EmptyString)))
                            (parse_string_literal rest))
        by (rewrite append_cons, append_assoc, append_cons, append_nil; reflexivity).
      apply consumed_app.
    - exists body. split; [exact Hbody|]. right.
      rewrite Hs at 1.
      change (String quote (String.append body (parse_string_literal rest)))
        with (String.append (String quote body) (parse_string_literal rest)).
      apply consumed_app. }
  branch H Hnum; [injection H as <- <-; exact I|].
  branch H Halpha.
  { injection H as <- <-. cbn [Token.kind Token.content]. unfold lex_identifier.
    rewrite consumed_find_if_not.
    destruct (identifier_kind (String c (take_while isalnum rest))) eqn:Hkind;
      try exact I; try (unfold identifier_kind in Hkind;
                        repeat match type of Hkind with
                               | (if ?b then _ else _) = _ => destruct b
                               end; discriminate Hkind).
    exists c, (take_while isalnum rest).
    split; [reflexivity|]. split; [exact Halpha|].
    split; [apply all_of_take_while | exact Hkind]. }
  branch H Hdot.
  { injection H as <- <-. cbn [Token.kind Token.content]. unfold lex_identifier.
    rewrite consumed_find_if_not. destruct (is_valid_pseudo _); [exact I | discriminate]. }
  branch H Hsemi; [exact (IH _ _ _ H)|].
  injection H as <- <-. cbn [Token.kind Token.content]. rewrite consumed_one. discriminate.
Qed.

(** Property X28.  Every token the lexer gives has the content of its kind:
    [EOL] a newline, [Comma] a comma, [End] nothing; [Opcode] and [Pseudo] a
    key of the opcode tables, [Register] one of [R0..R7]; [Immediate] and
    [Number] a numeral of the lexed shapes; [Label] a letter followed by
    letters and digits that is neither an opcode, a register nor a prefixed
    numeral; [String] a quote, characters other than quote and newline, and
    the closing quote if the line has one; [Unknown] is never empty. *)
Theorem lexed_token_shape source token rest :
  next_token source = Some (token, rest) -> token_shape token.
Proof.
  intros H. unfold token_shape. cbv zeta.
  pose proof (next_token_from_shape _ _ _ _ H) as Hshape.
  pose proof (next_token_from_opcode _ _ _ _ H) as [Hopcode Hpseudo].
  destruct (Token.kind token) eqn:Hkind; try exact Hshape.
  - exact (proj2 (next_token_from_End _ _ _ _ H Hkind)).
  - now apply Hopcode.
  - apply (next_token_from_register _ _ _ _ H Hkind).
  - now apply Hpseudo.
  - pose proof (next_token_integer_slice _ _ _ H (or_introl Hkind)) as Hslice.
    now rewrite Hkind in Hslice.
  - pose proof (next_token_integer_slice _ _ _ H (or_intror Hkind)) as Hslice.
    now rewrite Hkind in Hslice.
Qed.

Lemma lexed_token_shape_witness :
  token_shape (Token.mk Token.Label "LOOP").
Proof.
  exact (lexed_token_shape "LOOP ADD R1, R1, #-1" (Token.mk Token.Label "LOOP")
           " ADD R1, R1, #-1" eq_refl).
Defined.

(** *** Numerals that are no numbers *)

(** Property X29.  [is_valid_number] rejects exactly eleven contents: a lone
    prefix [#], [x] or [b], a lone sign, and a prefix followed by a lone sign;
    on the empty content its read of the first character is undefined. *)
Theorem is_valid_number_rejects slice :
  (slice = EmptyString -> is_valid_number slice = Fault UndefinedBehaviour)
  /\ (slice <> EmptyString ->
      (is_valid_number slice = Ok false <-> In slice rejected_slices)
      /\ (is_valid_number slice = Ok true <-> ~ In slice rejected_slices)).
Proof.
  split; [intros ->; reflexivity|]. intros Hne.
  rewrite (is_valid_number_rejected slice Hne).
  destruct (existsb (String.eqb slice) rejected_slices) eqn:E; cbn [negb].
  - apply existsb_eqb_In in E. split; split; try tauto; discriminate.
  - assert (Hnot : ~ In slice rejected_slices).
    { intros Hin. apply existsb_eqb_In in Hin. congruence. }
    split; split; try tauto; discriminate.
Qed.

(** *** The listed word assembled again *)

Lemma binary_digit_alnum c : is_binary_digit c = true -> isalnum c = true.
Proof. each_char_hyp c. Qed.

Lemma table_find_lowercase {A} c rest (table : list (string * A)) :
  Forall (fun entry => match fst entry with
                       | String k _ => Ascii.eqb c k = false
                       | EmptyString => True
                       end) table ->
  table_find (String c rest) table = None.
Proof.
  induction 1 as [|[key value] table Hkey _ IH]; [reflexivity|].
  cbn [table_find]. cbn [fst] in Hkey. destruct key as [|k key]; [exact IH|].
  cbn [String.eqb]. now rewrite Hkey.
Qed.

Lemma binary_literal_kind bits :
  all_of is_binary_digit bits = true ->
  (2 <= String.length bits)%nat ->
  identifier_kind (String "b" bits) = Token.Immediate.
Proof.
  intros Hbits Hlen. unfold identifier_kind, is_valid_opcode.
  rewrite (table_find_lowercase "b" bits opcode_def)
    by (repeat (apply Forall_cons_2 || apply Forall_nil_2); reflexivity).
  replace (is_valid_register (String "b" bits)) with false
    by (destruct bits as [|c0 [|c1 bits]]; reflexivity).
  cbn [may_be_valid_immediate_number].
  change (Ascii.eqb "b" "x") with false. change (Ascii.eqb "b" "b") with true. cbv iota.
  now rewrite Hbits.
Qed.

(** Property X30.  The word column of a listing line, behind the prefix [b],
    is a literal the assembler takes back: it is lexed as one [Immediate]
    token, [add_operand] builds an operand from it, the [.FILL] with that
    operand is validated, and [translate_pseudo] appends exactly the listed
    word for it. *)
Theorem listed_word_refilled cs word label address rest results :
  0 <= word <= UINT16_MAX ->
  delimited rest ->
  exists token operand,
    next_token (String.append (String "b" (print_bitset 16 word)) rest) = Some (token, rest)
    /\ add_operand (instruction label FILL [] address) token
       = Ok (NoError, instruction label FILL [operand] address)
    /\ validated (instruction label FILL [operand] address)
    /\ translate_pseudo cs (instruction label FILL [operand] address) results
       = Ok (results ++ [word]).
Proof.
  intros Hword Hrest. unfold UINT16_MAX in Hword.
  destruct (print_bitset_numeral 16 word) as (Hbits & Hvalue).
  rewrite Z.mod_small in Hvalue by (change (2 ^ Z.of_nat 16) with 65536; lia).
  pose proof (length_print_bitset 16 word) as Hlen.
  set (bits := print_bitset 16 word) in *.
  assert (Hkind : identifier_kind (String "b" bits) = Token.Immediate)
    by (apply binary_literal_kind; [exact Hbits | lia]).
  assert (Hdecode : string_to_integer (String "b" bits) = (fold_to_i16 word, true)).
  { rewrite (string_to_integer_lexed Token.Immediate (String "b" bits));
      [| now left | exact Hbits |].
    - cbv zeta. unfold represented_integer.
      change (Ascii.eqb "b" "#") with false. change (Ascii.eqb "b" "x") with false.
      change (Ascii.eqb "b" "b") with true. cbv iota. rewrite Hvalue.
      replace ((INT16_MIN <=? word) && (word <=? UINT16_MAX)) with true; [reflexivity|].
      symmetry. apply andb_true_iff. unfold INT16_MIN, UINT16_MAX. split; apply Z.leb_le; lia.
    - unfold rejected_slices. cbn [In].
      intros H; repeat destruct H as [H | H]; try contradiction; try discriminate H;
        injection H as H; rewrite <- H in Hlen; discriminate Hlen. }
  assert (Hrange : INT16_MIN <= fold_to_i16 word <= INT16_MAX).
  { unfold fold_to_i16, INT16_MIN, INT16_MAX.
    destruct (word <=? 32767) eqn:E; [apply Z.leb_le in E | apply Z.leb_gt in E]; lia. }
  exists (Token.mk Token.Immediate (String "b" bits)),
         (Operand.of_immediate (fold_to_i16 word)).
  split; [|split; [|split]].
  - rewrite <- Hkind.
    apply next_token_identifier;
      [reflexivity | exact (all_of_impl _ _ _ binary_digit_alnum Hbits) | exact Hrest].
  - unfold add_operand. cbn [Token.kind Token.content].
    rewrite (is_valid_number_rejected (String "b" bits)) by discriminate.
    replace (existsb (String.eqb (String "b" bits)) rejected_slices) with false.
    + cbn [bind negb]. unfold to_integer. rewrite Hdecode. reflexivity.
    + symmetry. apply not_true_is_false. intros E. apply existsb_eqb_In in E.
      unfold rejected_slices in E. cbn [In] in E.
      repeat destruct E as [E | E]; try contradiction; try discriminate E;
        injection E as E; rewrite <- E in Hlen; discriminate Hlen.
  - apply accepts_validated.
    + intros _. reflexivity.
    + cbn. left. reflexivity.
    + cbn [operands_ instruction]. apply Forall_cons_2; [|apply Forall_nil_2].
      intros v [= <-]. exact Hrange.
  - unfold translate_pseudo, get_opcode, get_operand. cbn [opcode_ operands_ instruction].
    change ([Operand.of_immediate (fold_to_i16 word)] !! 0%nat)
      with (Some (Operand.of_immediate (fold_to_i16 word))).
    cbn [bind Operand.immediate_value]. do 3 f_equal.
    unfold fold_to_i16, to_u16. destruct (word <=? 32767) eqn:E.
    + apply Z.mod_small. lia.
    + apply Z.leb_gt in E.
      replace (word - 65536) with (word + (-1) * 65536) by lia.
      rewrite Z.mod_add by lia. apply Z.mod_small. lia.
Qed.

Lemma listed_word_refilled_witness :
  exists token operand,
    next_token (String.append (String "b" (print_bitset 16 61477)) end_of_line)
    = Some (token, end_of_line)
    /\ add_operand (instruction "STOP" FILL [] 0) token
       = Ok (NoError, instruction "STOP" FILL [operand] 0)
    /\ validated (instruction "STOP" FILL [operand] 0)
    /\ translate_pseudo true (instruction "STOP" FILL [operand] 0) [4735; 1022]
       = Ok ([4735; 1022] ++ [61477]).
Proof.
  apply (listed_word_refilled true 61477 "STOP" 0 end_of_line [4735; 1022]).
  - unfold UINT16_MAX. lia.
  - reflexivity.
Defined.

